(** * Domain risk evaluation: shallow embedding and verified properties

    This development embeds the scoring core of the domain risk evaluator
    (packages [match], [scoring], [api]) and proves properties of it.

    Modelling conventions.
    - Go strings are Rocq [string]s (byte sequences).  Domain names, marks and
      vice terms are taken to be ASCII: [strings.ToLower] maps [A-Z] to [a-z]
      and leaves the other bytes alone, [strings.TrimSpace] trims the ASCII
      white space characters.
    - Go [int] values are [Z]; the scores that occur are far from the
      machine bounds, so no wrap-around is involved.
    - [float64] confidences and similarities are exact rationals ([Q]); the
      constants of the code are two-digit decimals and only comparisons are
      performed on them.
    - Go maps are [gmap]s, sets ([map[string]struct{}]) are [gset]s.
    - Collaborators reached through the network or the database (the AI
      explainer, the USPTO client, the commercial matcher, the persistence
      facade) are inputs of the functions that call them. *)

From Stdlib Require Import String Ascii List ZArith QArith Qminmax Qround Qabs DecimalString Bool Lia.
From stdpp Require Import base option gmap strings list sorting.

Local Open Scope string_scope.
Local Open Scope Z_scope.

(** ** Package [strings] of the Go standard library (the part that is used) *)

Module GoStrings.

Definition code (c : ascii) : N := N_of_ascii c.

Definition is_upper (c : ascii) : bool := ((65 <=? code c) && (code c <=? 90))%N.
Definition is_lower (c : ascii) : bool := ((97 <=? code c) && (code c <=? 122))%N.
Definition is_digit (c : ascii) : bool := ((48 <=? code c) && (code c <=? 57))%N.
Definition is_alnum (c : ascii) : bool := is_lower c || is_digit c.

Definition lower_ascii (c : ascii) : ascii :=
  if is_upper c then ascii_of_N (code c + 32) else c.

Definition upper_ascii (c : ascii) : ascii :=
  if is_lower c then ascii_of_N (code c - 32) else c.

Fixpoint smap (f : ascii -> ascii) (s : string) : string :=
  match s with
  | EmptyString => EmptyString
  | String c s' => String (f c) (smap f s')
  end.

Fixpoint sfilter (p : ascii -> bool) (s : string) : string :=
  match s with
  | EmptyString => EmptyString
  | String c s' => if p c then String c (sfilter p s') else sfilter p s'
  end.

Fixpoint sforall (p : ascii -> bool) (s : string) : bool :=
  match s with
  | EmptyString => true
  | String c s' => p c && sforall p s'
  end.

(** [strings.ToLower], [strings.ToUpper]. *)
Definition ToLower (s : string) : string := smap lower_ascii s.
Definition ToUpper (s : string) : string := smap upper_ascii s.

(** Drop the longest prefix of characters satisfying [p]. *)
Fixpoint trim_left (p : ascii -> bool) (s : string) : string :=
  match s with
  | EmptyString => EmptyString
  | String c s' => if p c then trim_left p s' else s
  end.

Definition trim_right (p : ascii -> bool) (s : string) : string :=
  String.rev (trim_left p (String.rev s)).

(** [strings.TrimSpace]. *)
Definition TrimSpace (s : string) : string :=
  trim_right Ascii.is_space (trim_left Ascii.is_space s).

(** [strings.Trim(s, cutset)] for a one-character cutset. *)
Definition Trim (s : string) (c : ascii) : string :=
  trim_right (Ascii.eqb c) (trim_left (Ascii.eqb c) s).

(** [strings.HasPrefix], [strings.HasSuffix]. *)
Definition HasPrefix (s p : string) : bool := String.prefix p s.

(** The slices [s[n:]] and [s[:n]]. *)
Fixpoint sdrop (n : nat) (s : string) : string :=
  match n, s with
  | O, _ => s
  | S n', String _ s' => sdrop n' s'
  | S _, EmptyString => EmptyString
  end.

Fixpoint stake (n : nat) (s : string) : string :=
  match n, s with
  | O, _ => EmptyString
  | S n', String c s' => String c (stake n' s')
  | S _, EmptyString => EmptyString
  end.

Definition HasSuffix (s p : string) : bool :=
  (String.length p <=? String.length s)%nat
  && String.eqb (sdrop (String.length s - String.length p) s) p.

(** [strings.TrimPrefix], [strings.TrimSuffix]. *)
Definition TrimPrefix (s p : string) : string :=
  if HasPrefix s p then sdrop (String.length p) s else s.

Definition TrimSuffix (s p : string) : string :=
  if HasSuffix s p then stake (String.length s - String.length p) s else s.

(** [strings.Contains]. *)
Fixpoint Contains (s sub : string) : bool :=
  String.prefix sub s ||
  match s with
  | EmptyString => false
  | String _ s' => Contains s' sub
  end.

(** [strings.Index(s, sep)] and [strings.IndexRune] for a one-character
    separator: the offset of the first occurrence, [None] for [-1]. *)
Fixpoint IndexByte (s : string) (c : ascii) : option nat :=
  match s with
  | EmptyString => None
  | String d s' =>
      if Ascii.eqb d c then Some O
      else match IndexByte s' c with
           | Some i => Some (S i)
           | None => None
           end
  end.

(** [strings.LastIndex(s, sep)] for a one-character separator. *)
Fixpoint LastIndexByte (s : string) (c : ascii) : option nat :=
  match s with
  | EmptyString => None
  | String d s' =>
      match LastIndexByte s' c with
      | Some i => Some (S i)
      | None => if Ascii.eqb d c then Some O else None
      end
  end.

(** [strings.Split(s, sep)] for a one-character separator.  The result is
    never empty: [Split "" sep] is the list holding the empty string. *)
Fixpoint Split (s : string) (sep : ascii) : list string :=
  match s with
  | EmptyString => [EmptyString]
  | String c s' =>
      if Ascii.eqb c sep then EmptyString :: Split s' sep
      else match Split s' sep with
           | [] => [String c EmptyString]
           | h :: t => String c h :: t
           end
  end.

(** [strings.Join(parts, sep)] for a one-character separator. *)
Fixpoint Join (parts : list string) (sep : ascii) : string :=
  match parts with
  | [] => EmptyString
  | [p] => p
  | p :: rest => p ++ String sep (Join rest sep)
  end.

(** [strings.ReplaceAll(s, old, "")] for a one-character [old]. *)
Definition RemoveAll (s : string) (c : ascii) : string :=
  sfilter (fun d => negb (Ascii.eqb d c)) s.

(** [strings.ReplaceAll(s, old, new)] for one-character [old] and [new]. *)
Definition ReplaceByte (s : string) (old new : ascii) : string :=
  smap (fun d => if Ascii.eqb d old then new else d) s.

(** [strings.FieldsFunc]: the maximal runs of characters that do not
    satisfy [p]. *)
Fixpoint fields_go (p : ascii -> bool) (cur : option string) (s : string) : list string :=
  match s with
  | EmptyString => option_list (String.rev <$> cur)
  | String c s' =>
      if p c then option_list (String.rev <$> cur) ++ fields_go p None s'
      else fields_go p (Some (String c (default EmptyString cur))) s'
  end.

Definition FieldsFunc (s : string) (p : ascii -> bool) : list string :=
  fields_go p None s.

End GoStrings.

Import GoStrings.

(** ** Package [match]: domain normalisation (normalize.go) *)

Module Match.

(** [DomainProfile] captures the normalisation output for a domain string. *)
Record DomainProfile : Type := mkDomainProfile {
  Original : string;
  Host : string;
  Core : string;
  BrandToken : string;
  Tokens : list string;
  AltSplits : list string
}.

(** [protocolStripper = ^https?://], replaced by the empty string. *)
Definition stripProtocol (s : string) : string :=
  if HasPrefix s "https://" then sdrop 8 s
  else if HasPrefix s "http://" then sdrop 7 s
  else s.

(** [if idx := strings.Index(lower, sep); idx >= 0 { lower = lower[:idx] }] *)
Definition cutAt (s : string) (sep : ascii) : string :=
  match IndexByte s sep with
  | Some idx => stake idx s
  | None => s
  end.

(** [nonAlphaNum = [^a-z0-9]], replaced by the empty string. *)
Definition stripNonAlphaNum (s : string) : string := sfilter is_alnum s.

Definition compactSegments (segs : list string) : list string :=
  filter (fun seg => seg <> "") (map TrimSpace segs).

(** [s[i]] for an index the code has checked to be in range. *)
Definition at_index (l : list string) (i : nat) : string := default "" (l !! i).

Definition splitTokens (core0 : string) : list string :=
  let core := ReplaceByte core0 "_" "-" in
  let parts :=
    FieldsFunc core (fun r => Ascii.eqb r "-" || Ascii.eqb r "_" || Ascii.eqb r "+" || is_digit r) in
  let out := filter (fun part => part <> "") (map TrimSpace parts) in
  match out with
  | [] => [core]
  | _ => out
  end.

Definition genericSuffixes : list string :=
  ["support"; "help"; "shop"; "store"; "online"; "tech"; "services"; "blog";
   "app"; "world"; "global"; "labs"; "care"; "pay"; "group"; "cloud"; "ai";
   "hub"; "zone"; "plus"].

Definition appendUnique (s : list string) (v : string) : list string :=
  if decide (v = "") then s
  else if decide (v ∈ s) then s
  else s ++ [v].

Definition compoundSplits (token : string) : list string :=
  fold_left
    (fun splits suffix =>
       let long := (String.length suffix + 2 <? String.length token)%nat in
       let splits :=
         if HasSuffix token suffix && long
         then appendUnique (appendUnique splits (TrimSuffix token suffix)) suffix
         else splits in
       if HasPrefix token suffix && long
       then appendUnique (appendUnique splits suffix) (TrimPrefix token suffix)
       else splits)
    genericSuffixes [].

(** The host of the input: lower-cased, without scheme, path, query,
    fragment, credentials, surrounding dots, leading [www.] and port. *)
Definition hostOf (input : string) : string :=
  let lower := ToLower (TrimSpace input) in
  let lower := stripProtocol lower in
  let lower := fold_left cutAt ["/"; "?"; "#"]%char lower in
  let lower :=
    match LastIndexByte lower "@" with
    | Some idx => sdrop (S idx) lower
    | None => lower
    end in
  let lower := Trim lower "." in
  let lower := TrimPrefix lower "www." in
  cutAt lower ":".

(** The label the brand token is taken from, with the rule for two-letter
    country-code TLDs. *)
Definition coreOf (host : string) : string :=
  let segments := compactSegments (Split host ".") in
  let segments :=
    if (3 <? length segments)%nat then drop (length segments - 3) segments
    else segments in
  let n := length segments in
  if (n =? 1)%nat then at_index segments 0
  else if (2 <=? n)%nat then
    let tld := at_index segments (n - 1) in
    let second := at_index segments (n - 2) in
    if (String.length tld =? 2)%nat && (3 <=? n)%nat
    then at_index segments (n - 3)
    else second
  else host.

(** [NormalizeDomain] normalises and tokenises the supplied domain name. *)
Definition NormalizeDomain (input : string) : DomainProfile :=
  let host := hostOf input in
  let core := coreOf host in
  let brandToken :=
    let b := stripNonAlphaNum core in
    if decide (b = "") then core else b in
  {| Original := input;
     Host := host;
     Core := core;
     BrandToken := brandToken;
     Tokens := splitTokens core;
     AltSplits := compoundSplits brandToken |}.

End Match.

(** ** Package [store]: the records the scoring core reads (models.go) *)

Module Store.

(** A USPTO trademark entry. *)
Record Mark : Type := mkMark {
  Serial : string;
  Registration : string;
  MarkText : string;          (* field [Mark]: the display form *)
  MarkNormalized : string;
  MarkNoSpaces : string;
  Owner : string;
  ClassesJSON : string;
  IsFanciful : bool
}.

(** The per-domain scoring output that is persisted.  The JSON column
    [ViceCategoriesJSON] is kept as the list it encodes; timestamps and
    durations are left out. *)
Record Evaluation : Type := mkEvaluation {
  ID : Z;
  Domain : string;
  DomainNormalized : string;
  TrademarkScore : Z;
  TrademarkType : string;
  MatchedTrademark : string;
  TrademarkConfidence : Q;
  ViceScore : Z;
  ViceCategories : list string;
  ViceConfidence : Q;
  OverallRecommendation : string;
  Explanation : string;
  CommercialOverride : bool;
  CommercialSource : string;
  CommercialSimilarity : Q
}.

Record CSVBatch : Type := mkCSVBatch {
  batchID : Z;                (* field [ID] *)
  Name : string;
  UniqueDomains : Z;
  ProcessedDomains : Z
}.

Record BatchRequest : Type := mkBatchRequest {
  requestID : Z;              (* field [ID] *)
  requestBatchID : Z;         (* field [BatchID] *)
  requestType : string;       (* field [Type] *)
  Status : string;
  JobID : string;
  StartedAt : Z;
  FinishedAt : option Z
}.

(** One row per domain occurrence in a batch. *)
Record DomainBatch : Type := mkDomainBatch {
  rowBatchID : Z;             (* field [BatchID] *)
  rowDomain : string;         (* field [Domain] *)
  rowDomainNormalized : string;
  RowIndex : Z
}.

(** [BatchDomain]: a work item of the evaluation run. *)
Record BatchDomain : Type := mkBatchDomain {
  itemDomain : string;            (* field [Domain] *)
  itemDomainNormalized : string;  (* field [DomainNormalized] *)
  itemRowIndex : Z                (* field [RowIndex] *)
}.

(** [CommercialSale]: a historical sale of the inventory. *)
Record CommercialSale : Type := mkCommercialSale {
  saleSLD : string;           (* field [SLD] *)
  saleNormalized : string;    (* field [Normalized] *)
  salePrefix : string;        (* field [Prefix] *)
  saleLength : Z;             (* field [Length] *)
  salePrice : Q               (* field [Price] *)
}.

End Store.

(** ** Package [scoring] *)

Module Scoring.

Import Match Store.

(** [sanitizeLabel]: lower-case, trim, keep [a-z0-9] (trademark.go). *)
Definition sanitizeLabel (label0 : string) : string :=
  let label := ToLower (TrimSpace label0) in
  if decide (label = "") then ""
  else sfilter (fun r => is_lower r || is_digit r) label.

(** [extractSLD]: the label of the host the trademark scorer looks up. *)
Definition extractSLD (profile : DomainProfile) : string :=
  let host := ToLower (TrimSpace (Host profile)) in
  if decide (host = "") then ""
  else
    let parts := Split host "." in
    if (length parts <? 2)%nat then host
    else at_index parts (length parts - 2).

(** *** Popular tokens; the process-wide set [popularTokens] is passed
    explicitly. *)

Definition defaultPopularTokens : gset string :=
  list_to_set
    ["amazon"; "meta"; "facebook"; "google"; "youtube"; "instagram";
     "twitter"; "tesla"; "microsoft"; "apple"; "netflix"; "paypal"; "uber";
     "lyft"; "salesforce"; "nike"; "adidas"; "cocacola"; "pepsi"; "tiktok";
     "snapchat"; "beyonce"; "taylor"; "swift"; "kanye"; "elon"; "rihanna";
     "drake"; "madonna"; "oprah"; "zuckerberg"; "musk"].

(** [SetPopularTokens]: the new value of the process-wide set. *)
Definition SetPopularTokens (tokens : gset string) : gset string :=
  set_fold
    (fun token combined =>
       let normalized := sanitizeLabel token in
       if decide (normalized = "") then combined
       else {[normalized]} ∪ combined)
    defaultPopularTokens tokens.

Definition IsPopularToken (popularTokens : gset string) (token : string) : bool :=
  let normalized := sanitizeLabel token in
  if decide (normalized = "") then false
  else bool_decide (normalized ∈ popularTokens).

(** *** Trademark index and scorer (trademark.go) *)

Record TrademarkResult : Type := mkTrademarkResult {
  tmScore : Z;                    (* field [Score] *)
  tmType : string;                (* field [Type] *)
  tmMatched : string;             (* field [MatchedTrademark] *)
  tmConfidence : Q                (* field [Confidence] *)
}.

Record trademarkIndex : Type := mkTrademarkIndex {
  exact : gmap string Mark;
  seeds : gset string
}.

Definition buildExactMap (marks : list Mark) : gmap string Mark :=
  fold_left
    (fun result mark =>
       let key := sanitizeLabel (MarkNoSpaces mark) in
       if decide (key = "") then result
       else match result !! key with
            | Some _ => result
            | None => <[key := mark]> result
            end)
    marks ∅.

(** [loadSeeds] after the file has been read and parsed: [entries] is the
    decoded JSON array. *)
Definition seedSet (entries : list string) : gset string :=
  fold_left
    (fun set entry =>
       let normalized := sanitizeLabel entry in
       if decide (normalized = "") then set else {[normalized]} ∪ set)
    entries ∅.

Definition buildTrademarkIndex (marks : list Mark) (seeds : gset string) : trademarkIndex :=
  {| exact := buildExactMap marks; seeds := seeds |}.

Definition lookupExact (idx : trademarkIndex) (token : string) : option Mark :=
  exact idx !! token.

Section Scorer.

(** The process-wide popular token set at the time of the call. *)
Variable popularTokens : gset string.

(** [isCommonWord] is defined in a file of package [scoring] that is not
    part of the sources at hand; the scorer is parameterised by it. *)
Variable isCommonWord : string -> bool.

Definition classify (idx : trademarkIndex) (mark : Mark) : string :=
  let key := sanitizeLabel (MarkNoSpaces mark) in
  if bool_decide (key ∈ seeds idx) then "fanciful"
  else if IsFanciful mark then "fanciful"
  else if IsPopularToken popularTokens key then "popular"
  else "generic".

Definition noTrademark : TrademarkResult :=
  {| tmScore := 0; tmType := "none"; tmMatched := ""; tmConfidence := 0.2 |}.

(** [TrademarkScorer.Score]; a nil scorer or index is [None]. *)
Definition Score (s : option trademarkIndex) (profile : DomainProfile) : TrademarkResult :=
  match s with
  | None => noTrademark
  | Some index =>
      let sld := sanitizeLabel (extractSLD profile) in
      if decide (sld = "") then noTrademark
      else
        match lookupExact index sld with
        | Some entry =>
            let markType := classify index entry in
            let isCommon := isCommonWord sld in
            if decide (markType = "fanciful") then
              if isCommon then
                {| tmScore := 2; tmType := "generic";
                   tmMatched := MarkText entry; tmConfidence := 0.6 |}
              else if IsPopularToken popularTokens sld then
                {| tmScore := 3; tmType := "popular";
                   tmMatched := MarkText entry; tmConfidence := 0.9 |}
              else
                {| tmScore := 5; tmType := markType;
                   tmMatched := MarkText entry; tmConfidence := 1.0 |}
            else if decide (markType = "popular") then
              if isCommon then
                {| tmScore := 2; tmType := markType;
                   tmMatched := MarkText entry; tmConfidence := 0.75 |}
              else
                {| tmScore := 3; tmType := markType;
                   tmMatched := MarkText entry; tmConfidence := 0.9 |}
            else
              if isCommon then
                {| tmScore := 2; tmType := "generic";
                   tmMatched := MarkText entry; tmConfidence := 0.6 |}
              else
                {| tmScore := 0; tmType := markType;
                   tmMatched := MarkText entry; tmConfidence := 0.4 |}
        | None => noTrademark
        end
  end.

End Scorer.

(** [NewTrademarkScorer] once the seed file has been read. *)
Definition NewTrademarkScorer (marks : list Mark) (seedEntries : list string) : option trademarkIndex :=
  Some (buildTrademarkIndex marks (seedSet seedEntries)).

(** *** Fanciful decider (fanciful.go) *)

Record FancifulDecider : Type := mkFancifulDecider { deciderSeeds : gset string }.

Definition Decide (d : FancifulDecider) (markNormalized : string)
    (classes : list string) (owner : string) : bool :=
  let key := RemoveAll (RemoveAll (ToLower markNormalized) " ") "-" in
  if bool_decide (key ∈ deciderSeeds d) then true
  else if (6 <=? String.length markNormalized)%nat && (2 <=? length classes)%nat then true
  else false.

(** *** Vice scorer *)

Record ViceResult : Type := mkViceResult {
  viceScore : Z;                  (* field [Score] *)
  Categories : list string;
  viceConfidence : Q              (* field [Confidence] *)
}.

Record ViceScorer : Type := mkViceScorer { terms : gmap Z (list string) }.

Definition stripDiacritics (s : string) : string :=
  sfilter
    (fun r =>
       if Ascii.eqb r " " || Ascii.eqb r "-" || Ascii.eqb r "_" then false
       else if is_lower r then true
       else is_digit r)
    s.

Definition normalizeTerm (term : string) : string :=
  stripDiacritics (TrimSpace (ToLower term)).

Definition confidenceForSeverity (severity : Z) : Q :=
  if decide (severity = 5 \/ severity = 4) then 0.95
  else if decide (severity = 3) then 0.80
  else if decide (severity = 2) then 0.70
  else if decide (severity = 1) then 0.60
  else 0.99.

(** The loop of [dedupe] over the sorted slice; [prev] starts as the empty
    string. *)
Fixpoint dedupeFrom (prev : string) (items : list string) : list string :=
  match items with
  | [] => []
  | item :: rest =>
      if decide (item = prev) then dedupeFrom prev rest
      else item :: dedupeFrom item rest
  end.

(** [sort.Strings]: ascending byte-wise order.  The order is total and
    antisymmetric, so the sorted slice does not depend on the algorithm. *)
Definition sortStrings (items : list string) : list string :=
  merge_sort String.le items.

Definition dedupe (items : list string) : list string :=
  match items with
  | [] => items
  | _ => dedupeFrom "" (sortStrings items)
  end.

(** The hits of one severity tier: the body of the inner loop of [Score]. *)
Definition hitsAt (v : ViceScorer) (domain brand : string) (severity : Z) : list string :=
  filter
    (fun term => term <> "" /\ (Contains domain term || Contains brand term))
    (default [] (terms v !! severity)).

(** The outer loop of [Score], from severity [n] down to 1. *)
Fixpoint scoreFrom (v : ViceScorer) (domain brand : string) (n : nat) : ViceResult :=
  match n with
  | O => {| viceScore := 0; Categories := []; viceConfidence := confidenceForSeverity 0 |}
  | S k =>
      let severity := Z.of_nat n in
      let hits := hitsAt v domain brand severity in
      if (0 <? length hits)%nat then
        {| viceScore := severity;
           Categories := dedupe hits;
           viceConfidence := confidenceForSeverity severity |}
      else scoreFrom v domain brand k
  end.

(** [ViceScorer.Score]; a nil scorer is [None]. *)
Definition ViceScore (v : option ViceScorer) (profile : DomainProfile) : ViceResult :=
  match v with
  | None => {| viceScore := 0; Categories := []; viceConfidence := 0.99 |}
  | Some v =>
      let domain := normalizeTerm (Host profile) in
      let brand := normalizeTerm (BrandToken profile) in
      scoreFrom v domain brand 5
  end.

(** *** Overall recommendation *)

Record OverallResult : Type := mkOverallResult {
  Recommendation : string;
  Confidence : Q
}.

Definition Qltb (a b : Q) : bool := negb (Qle_bool b a).

(** [CombineRecommendation] applies the matrix to the two outcomes. *)
Definition CombineRecommendation (tr : TrademarkResult) (vice : ViceResult) : OverallResult :=
  let rec :=
    if (4 <=? tmScore tr) || (4 <=? viceScore vice) then "BLOCK"
    else if (viceScore vice =? 3) || (tmScore tr =? 3) then "REVIEW"
    else if tmScore tr =? 2 then "ALLOW_WITH_CAUTION"
    else if tmScore tr =? 1 then "ALLOW_WITH_CAUTION"
    else "ALLOW" in
  let confidence :=
    if Qltb (tmConfidence tr) (viceConfidence vice) then tmConfidence tr
    else viceConfidence vice in
  {| Recommendation := ToUpper rec; Confidence := confidence |}.

(** *** Loading the vice terms *)

(** [int] is 64 bits wide: the value of an arithmetic result. *)
Definition wrapInt (z : Z) : Z := (z + 2 ^ 63) mod 2 ^ 64 - 2 ^ 63.

(** The loop of [atoiSafe]; [n] is the number read so far. *)
Fixpoint atoiFrom (n : Z) (s : string) : Z :=
  match s with
  | EmptyString => n
  | String r s' =>
      if (code r <? 48)%N || (57 <? code r)%N then 0
      else atoiFrom (wrapInt (n * 10 + Z.of_N (code r - 48))) s'
  end.

Definition atoiSafe (s : string) : Z := atoiFrom 0 s.

(** [NewViceScorer] once the file has been read and decoded; [raw] holds
    the entries of the decoded map in the order the loop visits them. *)
Definition NewViceScorer (raw : list (string * list string)) : ViceScorer :=
  {| terms :=
       fold_left
         (fun terms kv =>
            let severity := atoiSafe (fst kv) in
            let list := filter (fun term => term <> "") (map normalizeTerm (snd kv)) in
            if (0 <? length list)%nat then <[severity := list]> terms else terms)
         raw ∅ |}.

(** [Validate]; the error, if any. *)
Definition Validate (v : option ViceScorer) : option string :=
  match v with
  | None => Some "vice scorer is nil"
  | Some v => if (size (terms v) =? 0)%nat then Some "vice terms missing" else None
  end.

End Scoring.

(** ** Package [usp]: the lookup result the engine consumes *)

Module Usp.

Record Mark : Type := mkMark {
  SerialNumber : string;
  RegistrationNumber : string;
  MarkText : string;          (* field [Mark] *)
  Owner : string;
  Status : string;
  Classes : list string;
  IsLive : bool
}.

Record LookupResult : Type := mkLookupResult {
  Term : string;
  ExactMatches : list Mark;
  Similar : list Mark;
  Checked : bool
}.

Definition emptyLookup : LookupResult :=
  {| Term := ""; ExactMatches := []; Similar := []; Checked := false |}.

End Usp.

(** ** Package [commercial]: the best match the engine consumes *)

Module Commercial.

Record Match : Type := mkMatch {
  SLD : string;
  Price : Q;
  Similarity : Q
}.

(** *** Similarity of two labels and the best matching sale *)

Definition normalize (value : string) : string := TrimSpace (ToLower value).

(** [prefix]: the first [size] runes; the runes of an ASCII string are its
    bytes. *)
Definition prefix (value : string) (size : Z) : string :=
  if size <=? 0 then ""
  else
    let size :=
      if Z.of_nat (String.length value) <? size then Z.of_nat (String.length value)
      else size in
    if size <=? 0 then "" else stake (Z.to_nat size) value.

Definition runeLen (value : string) : Z := Z.of_nat (String.length value).

(** The loop of [uniqueNonEmpty]. *)
Fixpoint uniqueNonEmptyFrom (seen : gset string) (items : list string) : list string :=
  match items with
  | [] => []
  | item :: rest =>
      let trimmed := TrimSpace item in
      if decide (trimmed = "") then uniqueNonEmptyFrom seen rest
      else if decide (trimmed ∈ seen) then uniqueNonEmptyFrom seen rest
      else trimmed :: uniqueNonEmptyFrom ({[trimmed]} ∪ seen) rest
  end.

Definition uniqueNonEmpty (items : list string) : list string := uniqueNonEmptyFrom ∅ items.

Definition minInt (values : list Z) : Z :=
  match values with
  | [] => 0
  | first :: rest => fold_left (fun min v => if v <? min then v else min) rest first
  end.

(** The closure [index] of [levenshtein]. *)
Definition index (cols r c : nat) : nat := r * cols + c.

(** [levenshtein] fills the table [dp], stored row after row in one slice;
    the three loops are folds over the values of their counters. *)
Definition levenshtein (a b : list ascii) : Z :=
  let rows := (length a + 1)%nat in
  let cols := (length b + 1)%nat in
  let dp := replicate (rows * cols) 0 in
  let dp := fold_left (fun dp r => <[index cols r 0 := Z.of_nat r]> dp) (seq 0 rows) dp in
  let dp := fold_left (fun dp c => <[index cols 0 c := Z.of_nat c]> dp) (seq 0 cols) dp in
  let dp :=
    fold_left
      (fun dp r =>
         fold_left
           (fun dp c =>
              let cost := if decide (a !! (r - 1)%nat <> b !! (c - 1)%nat) then 1 else 0 in
              let deletion := dp !!! index cols (r - 1) c + 1 in
              let insertion := dp !!! index cols r (c - 1) + 1 in
              let substitution := dp !!! index cols (r - 1) (c - 1) + cost in
              <[index cols r c := minInt [deletion; insertion; substitution]]> dp)
           (seq 1 (cols - 1)) dp)
      (seq 1 (rows - 1)) dp in
  dp !!! index cols (rows - 1) (cols - 1).

Definition similarity (a b : string) : Q :=
  let aRunes := list_ascii_of_string a in
  let bRunes := list_ascii_of_string b in
  if (length aRunes =? 0)%nat && (length bRunes =? 0)%nat then 1
  else if (length aRunes =? 0)%nat || (length bRunes =? 0)%nat then 0
  else
    let dist := levenshtein aRunes bRunes in
    let maxLen :=
      Qmax (inject_Z (Z.of_nat (length aRunes))) (inject_Z (Z.of_nat (length bRunes))) in
    if Qeq_bool maxLen 0 then 1
    else
      let score := (1 - inject_Z dist / maxLen)%Q in
      if Scoring.Qltb score 0 then 0
      else if Scoring.Qltb 1 score then 1
      else score.

Record cacheEntry : Type := mkCacheEntry {
  entryMatch : Match;         (* field [match] *)
  entryFound : bool           (* field [found] *)
}.

Definition emptyMatch : Match := {| SLD := ""; Price := 0; Similarity := 0 |}.

(** The inner loop of [BestMatch] over the candidates of one query. *)
Definition scan (normalized : string) (candidates : list Store.CommercialSale)
    (acc : Match * bool) : Match * bool :=
  fold_left
    (fun acc candidate =>
       let sim := similarity normalized (Store.saleNormalized candidate) in
       if Scoring.Qltb (Similarity (fst acc)) sim
       then ({| SLD := Store.saleSLD candidate; Price := Store.salePrice candidate;
                Similarity := sim |}, true)
       else acc)
    candidates acc.

(** The outer loop of [BestMatch] over the prefix lists.
    [find prefixes minLen maxLen targetLen limit] is the answer of
    [FindCommercialCandidates], [None] for an error. *)
Fixpoint search (find : list string -> Z -> Z -> Z -> Z -> option (list Store.CommercialSale))
    (normalized : string) (minLen maxLen targetLen : Z)
    (searchPrefixes : list (list string)) (acc : Match * bool) : Match * bool :=
  match searchPrefixes with
  | [] => acc
  | prefixes :: rest =>
      match find prefixes minLen maxLen targetLen 75 with
      | None => search find normalized minLen maxLen targetLen rest acc
      | Some candidates =>
          let acc := scan normalized candidates acc in
          if snd acc && Qle_bool 0.95 (Similarity (fst acc)) then acc
          else search find normalized minLen maxLen targetLen rest acc
      end
  end.

(** [BestMatch]: the answer and the cache of the service after the call. *)
Definition BestMatch (find : list string -> Z -> Z -> Z -> Z -> option (list Store.CommercialSale))
    (cache : gmap string cacheEntry) (sld : string)
    : (Match * bool) * gmap string cacheEntry :=
  let normalized := normalize sld in
  if decide (normalized = "") then ((emptyMatch, false), cache)
  else
    match cache !! normalized with
    | Some cached => ((entryMatch cached, entryFound cached), cache)
    | None =>
        let targetLen := runeLen normalized in
        let minLen := if targetLen - 2 <? 1 then 1 else targetLen - 2 in
        let maxLen := targetLen + 2 in
        let searchPrefixes :=
          [uniqueNonEmpty [prefix normalized 3]; uniqueNonEmpty [prefix normalized 2];
           uniqueNonEmpty [prefix normalized 1]; []] in
        let acc :=
          search find normalized minLen maxLen targetLen searchPrefixes (emptyMatch, false) in
        let cache := <[normalized := {| entryMatch := fst acc; entryFound := snd acc |}]> cache in
        if negb (snd acc) then ((emptyMatch, false), cache)
        else ((fst acc, true), cache)
    end.

End Commercial.

(** ** Package [ai]: decisions, inputs and the explainer interface *)

Module Ai.

Import Scoring.

Record Decision : Type := mkDecision {
  Narrative : string;
  TrademarkScore : option Z;
  ViceScore : option Z;
  Recommendation : string;
  Confidence : option Q
}.

Definition emptyDecision : Decision :=
  {| Narrative := ""; TrademarkScore := None; ViceScore := None;
     Recommendation := ""; Confidence := None |}.

Record ExplanationInput : Type := mkExplanationInput {
  Domain : string;
  Trademark : TrademarkResult;
  Vice : ViceResult;
  Overall : OverallResult;
  MarksCount : Z;
  DomainsCount : Z;
  CloseMatches : list string;
  SecondLevel : string;
  TopLevel : string;
  DomainTokens : list string;
  ViceTerms : list string;
  InputRecommendation : string;     (* field [Recommendation] *)
  AllowOverride : bool;
  HasSubstringAlerts : bool;
  CommercialOverride : bool;
  CommercialSource : string;
  CommercialSimilarity : Q;
  CommercialPrice : Q
}.

(** Go errors, by origin; [Error] is the message of the [error] value. *)
Inductive error : Type :=
| ErrDisabled
| ErrCanceled
| ErrMessage (msg : string).

Definition Error (e : error) : string :=
  match e with
  | ErrDisabled => "ai explainer disabled"
  | ErrCanceled => "context canceled"
  | ErrMessage msg => msg
  end.

(** The [Explainer] interface.  [Explain input n] is the answer to the
    call number [n] (from 0) made for [input]: the remote service may
    answer differently each time. *)
Record Explainer : Type := mkExplainer {
  Enabled : bool;
  Explain : ExplanationInput -> nat -> Decision + error
}.

(** [clampInt], [clampFloat] (the client of the explainer).  A rational
    is never NaN, so the first test of [clampFloat] has no counterpart. *)
Definition clampInt (value min max : Z) : Z :=
  if value <? min then min else if max <? value then max else value.

Definition clampFloat (value min max : Q) : Q :=
  if Qltb value min then min else if Qltb max value then max else value.

(** [sanitizeDecision] normalises a parsed answer in place. *)
Definition sanitizeDecision (decision : Decision) : Decision :=
  let recommendation := ToUpper (TrimSpace (Recommendation decision)) in
  {| Narrative := TrimSpace (Narrative decision);
     TrademarkScore := (fun v => clampInt v 0 5) <$> TrademarkScore decision;
     ViceScore := (fun v => clampInt v 0 5) <$> ViceScore decision;
     Recommendation :=
       if decide (recommendation = "BLOCK" \/ recommendation = "REVIEW" \/
                  recommendation = "ALLOW_WITH_CAUTION" \/ recommendation = "ALLOW")
       then recommendation else "";
     Confidence := (fun v => clampFloat v 0 1) <$> Confidence decision |}.

(** The end of [Client.Explain], once the answer has been parsed. *)
Definition explainParsed (parsed : Decision) : Decision + error :=
  let decision := sanitizeDecision parsed in
  if decide (Narrative decision = "") then inr (ErrMessage "ai narrative missing")
  else if decide (Recommendation decision = "") then inr (ErrMessage "ai recommendation missing")
  else inl decision.

(** [Client] as an explainer.  [answer input n] is what the service gives
    to the call number [n]: the parsed decision, or the error of the
    request, of the status check or of the decoding. *)
Definition Client (apiKey : string) (answer : ExplanationInput -> nat -> Decision + error)
    : Explainer :=
  {| Enabled := negb (String.eqb apiKey "");
     Explain := fun input n =>
       if String.eqb apiKey "" then inr ErrDisabled
       else match answer input n with
            | inl parsed => explainParsed parsed
            | inr err => inr err
            end |}.

(** [explainerChain] (chain.go).  The answers of both explainers are
    indexed by the number of the call made on the chain. *)
Definition explainerChain (primary fallback : Explainer) : Explainer :=
  {| Enabled := Enabled primary || Enabled fallback;
     Explain := fun input n =>
       let viaFallback :=
         if Enabled fallback then Explain fallback input n else inr ErrDisabled in
       if Enabled primary then
         match Explain primary input n with
         | inl decision =>
             if decide (TrimSpace (Narrative decision) <> "" /\ Recommendation decision <> "")
             then inl decision
             else viaFallback
         | inr _ => viaFallback
         end
       else viaFallback |}.

(** [WithFallback]; a nil explainer is [None]. *)
Definition WithFallback (primary fallback : option Explainer) : option Explainer :=
  match primary, fallback with
  | None, _ => fallback
  | Some p, None => Some p
  | Some p, Some f => Some (explainerChain p f)
  end.

End Ai.

(** ** Package [api]: the evaluation engine *)

Module Api.

Import Match Scoring.

(** Durations are in nanoseconds, as [time.Duration]. *)
Definition Millisecond : Z := 1000000.
Definition Second : Z := 1000 * Millisecond.

Definition evaluationThrottle : Z := 500 * Millisecond.
Definition commercialSimilarityThreshold : Q := 0.8.
Definition aiMaxRetries : nat := 3.
Definition aiInitialBackoff : Z := 2 * Second.
Definition aiMaxBackoff : Z := 10 * Second.

(** What a call observes of its [context.Context]: whether it is already
    cancelled on entry, right after the failed attempt [n], and while
    waiting after attempt [n]. *)
Record Context : Type := mkContext {
  cancelledAtStart : bool;
  cancelledAfterAttempt : nat -> bool;
  cancelledDuringBackoff : nat -> bool
}.

Definition background : Context :=
  {| cancelledAtStart := false;
     cancelledAfterAttempt := fun _ => false;
     cancelledDuringBackoff := fun _ => false |}.

(** *** Trademark resolution *)

Definition cleanToken (value : string) : string :=
  sfilter
    (fun r => negb (Ascii.eqb r " " || Ascii.eqb r "-" || Ascii.eqb r "_"))
    (ToLower (TrimSpace value)).

Definition secondLevelLabel (profile : DomainProfile) : string :=
  let host := ToLower (TrimSpace (Host profile)) in
  if decide (host = "") then ""
  else
    let parts := Split host "." in
    if (length parts <? 2)%nat then host
    else at_index parts (length parts - 2).

Definition secondLevelToken (profile : DomainProfile) : string :=
  cleanToken (secondLevelLabel profile).

(** The loop of [uniqueStrings]; [seen] holds the lower-cased keys. *)
Fixpoint uniqueFrom (seen : gset string) (items : list string) : list string :=
  match items with
  | [] => []
  | item :: rest =>
      let trimmed := TrimSpace item in
      if decide (trimmed = "") then uniqueFrom seen rest
      else
        let key := ToLower trimmed in
        if decide (key ∈ seen) then uniqueFrom seen rest
        else trimmed :: uniqueFrom ({[key]} ∪ seen) rest
  end.

Definition uniqueStrings (items : list string) : list string := uniqueFrom ∅ items.

Section Resolve.

Variable popularTokens : gset string.
Variable fancifulDecider : option FancifulDecider.

(** The loop of [resolveTrademark] over the exact matches: the close
    matches collected so far and the result, if the loop returns one. *)
Fixpoint scanExact (sldToken : string) (closeMatches : list string)
    (exacts : list Usp.Mark) : list string * option TrademarkResult :=
  match exacts with
  | [] => (closeMatches, None)
  | exact :: rest =>
      if decide (Usp.MarkText exact = "") then scanExact sldToken closeMatches rest
      else
        let closeMatches := (closeMatches ++ [Usp.MarkText exact])%list in
        if decide (cleanToken (Usp.MarkText exact) <> sldToken)
        then scanExact sldToken closeMatches rest
        else
          let isFanciful :=
            match fancifulDecider with
            | Some d => Decide d (Usp.MarkText exact) (Usp.Classes exact) (Usp.Owner exact)
            | None => false
            end in
          if isFanciful then
            (closeMatches,
             Some {| tmScore := 5; tmType := "fanciful";
                     tmMatched := Usp.MarkText exact; tmConfidence := 0.98 |})
          else if IsPopularToken popularTokens (Usp.MarkText exact) then
            (closeMatches,
             Some {| tmScore := 2; tmType := "popular";
                     tmMatched := Usp.MarkText exact; tmConfidence := 0.75 |})
          else
            (closeMatches,
             Some {| tmScore := 0; tmType := "generic";
                     tmMatched := Usp.MarkText exact; tmConfidence := 0.4 |})
  end.

Definition resolveTrademark (profile : DomainProfile) (hasLookup : bool)
    (lookup : Usp.LookupResult) (fallback : TrademarkResult)
    : TrademarkResult * list string :=
  let sldToken := secondLevelToken profile in
  if (0 <? tmScore fallback) && negb (String.eqb (tmMatched fallback) "") then
    (fallback, uniqueStrings [tmMatched fallback])
  else
    let unresolved := {| tmScore := 0; tmType := "none"; tmMatched := ""; tmConfidence := 0.4 |} in
    if hasLookup && Usp.Checked lookup then
      match scanExact sldToken [] (Usp.ExactMatches lookup) with
      | (closeMatches, Some result) => (result, uniqueStrings closeMatches)
      | (closeMatches, None) =>
          let similar :=
            filter (fun m => m <> "") (map Usp.MarkText (Usp.Similar lookup)) in
          (unresolved, uniqueStrings (closeMatches ++ similar)%list)
      end
    else (unresolved, uniqueStrings []).

End Resolve.

(** *** The AI step *)

Definition shouldRetryAI (err : option Ai.error) : bool :=
  match err with
  | None => false
  | Some e =>
      let msg := ToLower (Ai.Error e) in
      Contains msg "status 429" || Contains msg "status 500" || Contains msg "status 503"
  end.

Definition buildFallbackNarrative (recommendation : string) : string :=
  let rec := ToUpper (TrimSpace recommendation) in
  if decide (rec = "BLOCK") then
    "Heuristic risk scoring recommends BLOCK; AI explanation is temporarily unavailable."
  else if decide (rec = "REVIEW") then
    "Heuristic signals recommend REVIEW; AI narrative waiting for retry."
  else if decide (rec = "ALLOW_WITH_CAUTION") then
    "Heuristic evaluation suggests ALLOW WITH CAUTION; AI summary could not be retrieved."
  else
    "Heuristic evaluation completed; AI explanation unavailable at this time.".

(** What [callAIWithRetry] did besides returning: the number of calls of
    [Explain] and the backoff delays it waited for, in order. *)
Record AITrace : Type := mkAITrace {
  attempts : nat;
  backoffs : list Z
}.

Definition noTrace : AITrace := {| attempts := 0; backoffs := [] |}.

Definition callMade (t : AITrace) : AITrace :=
  {| attempts := S (attempts t); backoffs := backoffs t |}.

Definition waited (delay : Z) (t : AITrace) : AITrace :=
  {| attempts := attempts t; backoffs := delay :: backoffs t |}.

Section AICall.

Variable explainer : option Ai.Explainer.
Variable ctx : Context.

(** The loop of [callAIWithRetry]: [remaining] iterations are left,
    [attempt] is the loop counter, [delay] the next backoff and [lastErr]
    the last error seen. *)
Fixpoint retryLoop (e : Ai.Explainer) (input : Ai.ExplanationInput)
    (remaining attempt : nat) (delay : Z) (lastErr : option Ai.error)
    : (Ai.Decision * option Ai.error) * AITrace :=
  match remaining with
  | O => ((Ai.emptyDecision, lastErr), noTrace)
  | S remaining' =>
      match Ai.Explain e input attempt with
      | inl decision => ((decision, None), callMade noTrace)
      | inr err =>
          if cancelledAfterAttempt ctx attempt then
            ((Ai.emptyDecision, Some Ai.ErrCanceled), callMade noTrace)
          else if negb (shouldRetryAI (Some err)) then
            ((Ai.emptyDecision, Some err), callMade noTrace)
          else if cancelledDuringBackoff ctx attempt then
            ((Ai.emptyDecision, Some Ai.ErrCanceled), callMade noTrace)
          else
            let delay' := if aiMaxBackoff <? delay * 2 then aiMaxBackoff else delay * 2 in
            let '(r, t) := retryLoop e input remaining' (S attempt) delay' (Some err) in
            (r, callMade (waited delay t))
      end
  end.

(** [callAIWithRetry]: the Go pair [(decision, err)] and the trace. *)
Definition callAIWithRetry (input : Ai.ExplanationInput)
    : (Ai.Decision * option Ai.error) * AITrace :=
  match explainer with
  | None => ((Ai.emptyDecision, Some Ai.ErrDisabled), noTrace)
  | Some e =>
      if negb (Ai.Enabled e) then ((Ai.emptyDecision, Some Ai.ErrDisabled), noTrace)
      else retryLoop e input aiMaxRetries 0 aiInitialBackoff None
  end.

End AICall.

(** *** Per-domain pipeline *)

Definition splitDomainParts (domain : string) : string * string :=
  let host := ToLower (TrimSpace domain) in
  let parts := Split host "." in
  match parts with
  | [] => (host, "")
  | _ =>
      let tld := at_index parts (length parts - 1) in
      if (length parts =? 1)%nat then (at_index parts 0, tld)
      else (at_index parts (length parts - 2), tld)
  end.

(** The tokens are collected in a set and returned sorted. *)
Definition collectDomainTokens (profile : DomainProfile) : list string :=
  let values := ([BrandToken profile; Core profile] ++ Tokens profile ++ AltSplits profile)%list in
  let trimmed := filter (fun t => t <> "") (map (fun v => TrimSpace (ToLower v)) values) in
  sortStrings (remove_dups trimmed).

Definition hasSubstringAlerts (terms : list string) (core : string) (tokens : list string) : bool :=
  match terms with
  | [] => false
  | _ =>
      let lowerCore := ToLower (TrimSpace core) in
      existsb
        (fun term =>
           let termLower := ToLower (TrimSpace term) in
           if decide (termLower = "") then false
           else if decide (termLower ∈ tokens) then false
           else Contains lowerCore termLower)
        terms
  end.

Definition clampScore (value : Z) : Z :=
  if value <? 0 then 0 else if 5 <? value then 5 else value.

Definition clampConfidence (value : Q) : Q :=
  if Qltb value 0 then 0%Q else if Qltb 1 value then 1%Q else value.

(** The [switch] that downgrades a recommendation by one step. *)
Definition commercialDowngrade (recommendation : string) : string :=
  if decide (recommendation = "BLOCK") then "REVIEW"
  else if decide (recommendation = "REVIEW") then "ALLOW_WITH_CAUTION"
  else recommendation.

Definition withRecommendation (overall : OverallResult) (rec : string) : OverallResult :=
  {| Recommendation := rec; Confidence := Confidence overall |}.

(** [%d] of a non-negative integer. *)
Definition formatInt (n : Z) : string := NilZero.string_of_uint (N.to_uint (Z.to_N n)).

(** [%.0f]: the nearest integer, ties to even, sign first. *)
Definition roundHalfEven (q : Q) : Z :=
  let f := Qfloor q in
  match Qcompare (q - inject_Z f) (1 # 2) with
  | Lt => f
  | Gt => f + 1
  | Eq => if Z.even f then f else f + 1
  end.

Definition formatFloat0 (q : Q) : string :=
  let digits := formatInt (roundHalfEven (Qabs q)) in
  if Qltb q 0 then "-" ++ digits else digits.

(** The server, as far as the evaluation of one domain reads it. *)
Record Server : Type := mkServer {
  viceScorer : option ViceScorer;
  fancifulDecider : option FancifulDecider;
  explainer : option Ai.Explainer;
  (** [usptoClient.LookupExact], [None] for an error *)
  usptoClient : option (string -> option Usp.LookupResult);
  (** [commercial.BestMatch] *)
  commercial : option (string -> option Commercial.Match);
  (** the process-wide popular token set *)
  popularTokens : gset string
}.

Definition lookupUSPTO (s : Server) (brandToken : string)
    (cache : gmap string Usp.LookupResult)
    : (Usp.LookupResult * bool) * gmap string Usp.LookupResult :=
  match usptoClient s with
  | None => ((Usp.emptyLookup, false), cache)
  | Some lookupExact =>
      let key := ToLower (TrimSpace brandToken) in
      if decide (key = "") then ((Usp.emptyLookup, false), cache)
      else
        match cache !! key with
        | Some cached => ((cached, Usp.Checked cached), cache)
        | None =>
            match lookupExact key with
            | None =>
                ((Usp.emptyLookup, false),
                 <[key := {| Usp.Term := key; Usp.ExactMatches := [];
                             Usp.Similar := []; Usp.Checked := false |}]> cache)
            | Some result => ((result, Usp.Checked result), <[key := result]> cache)
            end
        end
  end.

Record domainResult : Type := mkDomainResult {
  Evaluation : Store.Evaluation;
  Err : option Ai.error
}.

Definition emptyEvaluation : Store.Evaluation :=
  {| Store.ID := 0; Store.Domain := ""; Store.DomainNormalized := "";
     Store.TrademarkScore := 0; Store.TrademarkType := "";
     Store.MatchedTrademark := ""; Store.TrademarkConfidence := 0;
     Store.ViceScore := 0; Store.ViceCategories := []; Store.ViceConfidence := 0;
     Store.OverallRecommendation := ""; Store.Explanation := "";
     Store.CommercialOverride := false; Store.CommercialSource := "";
     Store.CommercialSimilarity := 0 |}.

(** The state of [evaluateDomain] when it calls [generateDecision]. *)
Record Heuristics : Type := mkHeuristics {
  hTrademark : TrademarkResult;
  hCloseMatches : list string;
  hVice : ViceResult;
  hOverall : OverallResult;
  hCommercialOverride : bool;
  hCommercialSource : string;
  hCommercialSimilarity : Q;
  hCommercialPrice : Q;
  hSecondLevel : string;
  hTopLevel : string
}.

Section Engine.

(** See [Scoring.Score]. *)
Variable isCommonWord : string -> bool.

Variable s : Server.

(** [evaluateDomain] from the resolution of the trademark to the
    commercial override. *)
Definition heuristics (profile : DomainProfile) (domainValue : string)
    (trademarkScorer : option trademarkIndex)
    (lookupResult : Usp.LookupResult) (lookupValid : bool) : Heuristics :=
  let fallbackResult := Score (popularTokens s) isCommonWord trademarkScorer profile in
  let '(trademarkResult, closeMatches) :=
    resolveTrademark (popularTokens s) (fancifulDecider s) profile lookupValid
      lookupResult fallbackResult in
  let viceResult := ViceScore (viceScorer s) profile in
  let overall := CombineRecommendation trademarkResult viceResult in
  let '(secondLevel, topLevel) := splitDomainParts domainValue in
  let plain :=
    {| hTrademark := trademarkResult; hCloseMatches := closeMatches;
       hVice := viceResult; hOverall := overall;
       hCommercialOverride := false; hCommercialSource := "";
       hCommercialSimilarity := 0; hCommercialPrice := 0;
       hSecondLevel := secondLevel; hTopLevel := topLevel |} in
  match commercial s with
  | None => plain
  | Some bestMatch =>
      match bestMatch secondLevel with
      | Some m =>
          if Qle_bool commercialSimilarityThreshold (Commercial.Similarity m) then
            let granted := (viceScore viceResult <=? 2) && (tmScore trademarkResult <=? 3) in
            {| hTrademark := trademarkResult; hCloseMatches := closeMatches;
               hVice := viceResult;
               hOverall :=
                 if granted
                 then withRecommendation overall (commercialDowngrade (Recommendation overall))
                 else overall;
               hCommercialOverride := granted;
               hCommercialSource := "sale $" ++ formatFloat0 (Commercial.Price m);
               hCommercialSimilarity := Commercial.Similarity m;
               hCommercialPrice := Commercial.Price m;
               hSecondLevel := secondLevel; hTopLevel := topLevel |}
          else plain
      | None => plain
      end
  end.

Definition generateDecision (ctx : Context) (profile : DomainProfile)
    (domain : string) (marksCount totalDomains : Z) (h : Heuristics)
    : (Ai.Decision * option Ai.error) * AITrace :=
  let overall := hOverall h in
  let decision :=
    {| Ai.Narrative := ""; Ai.TrademarkScore := None; Ai.ViceScore := None;
       Ai.Recommendation := ToUpper (TrimSpace (Recommendation overall));
       Ai.Confidence := None |} in
  let fallback :=
    {| Ai.Narrative := buildFallbackNarrative (Recommendation overall);
       Ai.TrademarkScore := None; Ai.ViceScore := None;
       Ai.Recommendation := Ai.Recommendation decision;
       Ai.Confidence := None |} in
  let enabled :=
    match explainer s with
    | Some e => Ai.Enabled e
    | None => false
    end in
  if negb enabled then ((fallback, None), noTrace)
  else
    let tokens := collectDomainTokens profile in
    let viceTerms := Categories (hVice h) in
    let input :=
      {| Ai.Domain := domain;
         Ai.Trademark := hTrademark h;
         Ai.Vice := hVice h;
         Ai.Overall := overall;
         Ai.MarksCount := marksCount;
         Ai.DomainsCount := totalDomains;
         Ai.CloseMatches := hCloseMatches h;
         Ai.SecondLevel := hSecondLevel h;
         Ai.TopLevel := hTopLevel h;
         Ai.DomainTokens := tokens;
         Ai.ViceTerms := viceTerms;
         Ai.InputRecommendation := Ai.Recommendation decision;
         Ai.AllowOverride := true;
         Ai.HasSubstringAlerts := hasSubstringAlerts viceTerms (Core profile) tokens;
         Ai.CommercialOverride := hCommercialOverride h;
         Ai.CommercialSource := hCommercialSource h;
         Ai.CommercialSimilarity := hCommercialSimilarity h;
         Ai.CommercialPrice := hCommercialPrice h |} in
    match callAIWithRetry (explainer s) ctx input with
    | ((_, Some _), t) => ((fallback, None), t)
    | ((result, None), t) =>
        let rec := ToUpper (TrimSpace (Ai.Recommendation result)) in
        (({| Ai.Narrative :=
               if decide (TrimSpace (Ai.Narrative result) <> "")
               then TrimSpace (Ai.Narrative result) else "";
             Ai.TrademarkScore := Ai.TrademarkScore result;
             Ai.ViceScore := Ai.ViceScore result;
             Ai.Recommendation :=
               if decide (rec <> "") then rec else Ai.Recommendation decision;
             Ai.Confidence := Ai.Confidence result |}, None), t)
    end.

Definition withTrademarkScore (tr : TrademarkResult) (score : Z) : TrademarkResult :=
  {| tmScore := score; tmType := tmType tr; tmMatched := tmMatched tr;
     tmConfidence := tmConfidence tr |}.

Definition withViceScore (v : ViceResult) (score : Z) : ViceResult :=
  {| viceScore := score; Categories := Categories v;
     viceConfidence := viceConfidence v |}.

(** The trademark and vice results once the scores of the decision, if
    any, have replaced the heuristic ones. *)
Definition overriddenTrademark (h : Heuristics) (decision : Ai.Decision) : TrademarkResult :=
  match Ai.TrademarkScore decision with
  | Some v => withTrademarkScore (hTrademark h) (clampScore v)
  | None => hTrademark h
  end.

Definition overriddenVice (h : Heuristics) (decision : Ai.Decision) : ViceResult :=
  match Ai.ViceScore decision with
  | Some v => withViceScore (hVice h) (clampScore v)
  | None => hVice h
  end.

(** The overall result recomputed from the overridden scores, with the
    commercial downgrade applied again. *)
Definition recomputedOverall (h : Heuristics) (decision : Ai.Decision) : OverallResult :=
  let overall := CombineRecommendation (overriddenTrademark h decision) (overriddenVice h decision) in
  if hCommercialOverride h
  then withRecommendation overall (commercialDowngrade (Recommendation overall))
  else overall.

(** [evaluateDomain] after [generateDecision] has returned. *)
Definition assemble (h : Heuristics) (decision : Ai.Decision)
    (domainValue normalizedKey : string) : Store.Evaluation :=
  let trademarkResult := overriddenTrademark h decision in
  let viceResult := overriddenVice h decision in
  let overall := recomputedOverall h decision in
  let rec := ToUpper (TrimSpace (Ai.Recommendation decision)) in
  let overall := if decide (rec <> "") then withRecommendation overall rec else overall in
  let conf := clampConfidence <$> Ai.Confidence decision in
  {| Store.ID := 0;
     Store.Domain := domainValue;
     Store.DomainNormalized := normalizedKey;
     Store.TrademarkScore := tmScore trademarkResult;
     Store.TrademarkType := tmType trademarkResult;
     Store.MatchedTrademark := tmMatched trademarkResult;
     Store.TrademarkConfidence := default (tmConfidence trademarkResult) conf;
     Store.ViceScore := viceScore viceResult;
     Store.ViceCategories := Categories viceResult;
     Store.ViceConfidence := default (viceConfidence viceResult) conf;
     Store.OverallRecommendation := Recommendation overall;
     Store.Explanation := TrimSpace (Ai.Narrative decision);
     Store.CommercialOverride := hCommercialOverride h;
     Store.CommercialSource := hCommercialSource h;
     Store.CommercialSimilarity := hCommercialSimilarity h |}.

(** [evaluateDomain]: the result, the USPTO cache of the job after the
    call, and what the AI step did. *)
Definition evaluateDomain (ctx : Context) (domain : Store.BatchDomain)
    (trademarkScorer : option trademarkIndex) (marks : list Store.Mark)
    (totalDomains : Z) (cache : gmap string Usp.LookupResult)
    : domainResult * gmap string Usp.LookupResult * AITrace :=
  if cancelledAtStart ctx then
    ({| Evaluation := emptyEvaluation; Err := Some Ai.ErrCanceled |}, cache, noTrace)
  else
    let domainValue := TrimSpace (Store.itemDomain domain) in
    if decide (domainValue = "") then
      ({| Evaluation := emptyEvaluation;
          Err := Some (Ai.ErrMessage "empty domain value") |}, cache, noTrace)
    else
      let normalizedKey :=
        let key := TrimSpace (Store.itemDomainNormalized domain) in
        if decide (key = "") then ToLower domainValue else key in
      let profile := NormalizeDomain domainValue in
      let '((lookupResult, lookupValid), cache') :=
        lookupUSPTO s (BrandToken profile) cache in
      let h := heuristics profile domainValue trademarkScorer lookupResult lookupValid in
      match generateDecision ctx profile domainValue (Z.of_nat (length marks)) totalDomains h with
      | ((_, Some err), t) =>
          ({| Evaluation := emptyEvaluation; Err := Some err |}, cache', t)
      | ((decision, None), t) =>
          ({| Evaluation := assemble h decision domainValue normalizedKey;
              Err := None |}, cache', t)
      end.

End Engine.

(** *** Wire representation of an evaluation *)

Module Dto.

Record EvaluationDTO : Type := mkEvaluationDTO {
  ID : Z;
  Domain : string;
  TrademarkScore : Z;
  TrademarkType : string;
  MatchedTrademark : string;
  TrademarkConfidence : Q;
  ViceScore : Z;
  ViceCategories : list string;
  ViceConfidence : Q;
  OverallRecommendation : string;
  Confidence : Q;
  Explanation : string;
  CommercialOverride : bool;
  CommercialSource : string;
  CommercialSimilarity : Q
}.

End Dto.

(** [int(v)]: truncation towards zero. *)
Definition truncate (v : Q) : Z := if Qltb v 0 then Qceiling v else Qfloor v.

Definition round2 (v : Q) : Q := (inject_Z (truncate (v * 100 + 0.5)) / 100)%Q.

Definition minFloat (a b : Q) : Q :=
  if Qeq_bool a 0 then b
  else if Qeq_bool b 0 then a
  else if Qltb a b then a
  else b.

(** [FromModel] converts a stored evaluation into its wire form. *)
Definition FromModel (e : Store.Evaluation) : Dto.EvaluationDTO :=
  {| Dto.ID := Store.ID e;
     Dto.Domain := Store.Domain e;
     Dto.TrademarkScore := Store.TrademarkScore e;
     Dto.TrademarkType := Store.TrademarkType e;
     Dto.MatchedTrademark := Store.MatchedTrademark e;
     Dto.TrademarkConfidence := round2 (Store.TrademarkConfidence e);
     Dto.ViceScore := Store.ViceScore e;
     Dto.ViceCategories := Store.ViceCategories e;
     Dto.ViceConfidence := round2 (Store.ViceConfidence e);
     Dto.OverallRecommendation := Store.OverallRecommendation e;
     Dto.Confidence := round2 (minFloat (Store.TrademarkConfidence e) (Store.ViceConfidence e));
     Dto.Explanation := TrimSpace (Store.Explanation e);
     Dto.CommercialOverride := Store.CommercialOverride e;
     Dto.CommercialSource := Store.CommercialSource e;
     Dto.CommercialSimilarity := round2 (Store.CommercialSimilarity e) |}.

(** *** Events and the notifier *)

Record EvaluationEvent : Type := mkEvaluationEvent {
  evType : string;                            (* field [Type] *)
  evJobID : string;                           (* field [JobID] *)
  evBatchID : Z;                              (* field [BatchID] *)
  Total : Z;
  Processed : Z;
  evEvaluation : option Dto.EvaluationDTO;    (* field [Evaluation], nil is [None] *)
  Batch : list Dto.EvaluationDTO;
  Message : string;
  Reused : bool;
  Timestamp : Z
}.

Definition withTimestamp (event : EvaluationEvent) (now : Z) : EvaluationEvent :=
  {| evType := evType event; evJobID := evJobID event; evBatchID := evBatchID event;
     Total := Total event; Processed := Processed event;
     evEvaluation := evEvaluation event; Batch := Batch event;
     Message := Message event; Reused := Reused event; Timestamp := now |}.

Definition withoutEvaluation (event : EvaluationEvent) : EvaluationEvent :=
  {| evType := evType event; evJobID := evJobID event; evBatchID := evBatchID event;
     Total := Total event; Processed := Processed event;
     evEvaluation := None; Batch := Batch event;
     Message := Message event; Reused := Reused event; Timestamp := Timestamp event |}.

(** The notifier.  A client handle ([*wsClient]) is a number, allocated by
    [Register]; [sent] records what has been written to the connection of
    each client, oldest first, and [closed] the connections that have been
    closed. *)
Record EvaluationNotifier : Type := mkEvaluationNotifier {
  clients : gset nat;
  lastStatus : option EvaluationEvent;
  nextClient : nat;
  sent : gmap nat (list EvaluationEvent);
  closed : gset nat
}.

Definition NewEvaluationNotifier : EvaluationNotifier :=
  {| clients := ∅; lastStatus := None; nextClient := 0; sent := ∅; closed := ∅ |}.

(** [Register]; [writeOk] tells whether the write of the retained status
    succeeds (its error is ignored). *)
Definition Register (n : EvaluationNotifier) (writeOk : bool) : nat * EvaluationNotifier :=
  let client := nextClient n in
  let replay :=
    match lastStatus n with
    | Some status => if writeOk then [status] else []
    | None => []
    end in
  (client,
   {| clients := {[client]} ∪ clients n;
      lastStatus := lastStatus n;
      nextClient := S client;
      sent := <[client := replay]> (sent n);
      closed := closed n |}).

Definition Unregister (n : EvaluationNotifier) (client : option nat) : EvaluationNotifier :=
  match client with
  | None => n
  | Some c =>
      {| clients := clients n ∖ {[c]};
         lastStatus := lastStatus n;
         nextClient := nextClient n;
         sent := sent n;
         closed := {[c]} ∪ closed n |}
  end.

Definition isStatusType (t : string) : bool :=
  String.eqb t "progress" || String.eqb t "evaluation" || String.eqb t "started".

(** [Broadcast]; [now] is the clock and [writeOk c] tells whether the
    write to client [c] succeeds. *)
Definition Broadcast (n : EvaluationNotifier) (event0 : EvaluationEvent)
    (now : Z) (writeOk : nat -> bool) : EvaluationNotifier :=
  let event := withTimestamp event0 now in
  {| clients := filter (fun c => writeOk c) (clients n);
     lastStatus :=
       if isStatusType (evType event) then Some (withoutEvaluation event)
       else lastStatus n;
     nextClient := nextClient n;
     sent :=
       map_imap
         (fun c log =>
            if decide (c ∈ clients n) then
              if writeOk c then Some (log ++ [event])%list else Some log
            else Some log)
         (sent n);
     closed := filter (fun c => negb (writeOk c)) (clients n) ∪ closed n |}.

Definition LastStatus (n : EvaluationNotifier) : option EvaluationEvent := lastStatus n.

(** *** Job lifecycle *)

Record EvaluateRequest : Type := mkEvaluateRequest {
  BatchID : Z;
  Limit : Z;
  Offset : Z;
  Resume : bool;
  Force : bool
}.

Record StartEvaluationResponse : Type := mkStartEvaluationResponse {
  respJobID : string;        (* field [JobID] *)
  respBatchID : Z;           (* field [BatchID] *)
  respRequestID : Z;         (* field [RequestID] *)
  respTotal : Z;             (* field [Total] *)
  respStartedAt : Z          (* field [StartedAt] *)
}.

(** A running evaluation; [jobCtx] is the handle of its cancellable
    context (the [cancel] function cancels that context). *)
Record evaluationJob : Type := mkEvaluationJob {
  jobID : string;            (* field [id] *)
  jobCtx : nat;              (* field [cancel] *)
  startedAt : Z;
  total : Z;
  jobBatchID : Z;            (* field [batchID] *)
  batchName : string;
  jobRequestID : Z           (* field [requestID] *)
}.

(** The tables of the database the lifecycle touches. *)
Record Database : Type := mkDatabase {
  csv_batches : list Store.CSVBatch;
  domain_batches : list Store.DomainBatch;
  batch_requests : list Store.BatchRequest
}.

(** Failures of the database on one request. *)
Record Faults : Type := mkFaults {
  countFails : bool;
  createFails : bool
}.

Definition noFaults : Faults := {| countFails := false; createFails := false |}.

Definition GetCSVBatch (d : Database) (batchId : Z) : option Store.CSVBatch :=
  find (fun b => Store.batchID b =? batchId) (csv_batches d).

(** The number of distinct normalised domains of the batch. *)
Definition CountBatchDomains (d : Database) (batchId : Z) : Z :=
  Z.of_nat
    (length
       (remove_dups
          (map Store.rowDomainNormalized
             (filter (fun r => Store.rowBatchID r = batchId) (domain_batches d))))).

Definition CreateBatchRequest (d : Database) (batchId : Z)
    (requestType status jobId : string) (now : Z) : Store.BatchRequest * Database :=
  let request :=
    {| Store.requestID := Z.of_nat (length (batch_requests d)) + 1;
       Store.requestBatchID := batchId;
       Store.requestType := requestType;
       Store.Status := status;
       Store.JobID := jobId;
       Store.StartedAt := now;
       Store.FinishedAt := None |} in
  (request,
   {| csv_batches := csv_batches d;
      domain_batches := domain_batches d;
      batch_requests := (batch_requests d ++ [request])%list |}).

(** A goroutine started with [go s.runEvaluation(ctx, job, req, batch)]. *)
Record spawnedRun : Type := mkSpawnedRun {
  runCtx : nat;
  runJob : evaluationJob;
  runReq : EvaluateRequest;
  runBatch : Store.CSVBatch
}.

(** The mutable state of the server: the database, the active-job slot,
    the notifier, the contexts created and cancelled so far, and the runs
    that have been spawned. *)
Record State : Type := mkState {
  db : Database;
  activeJob : option evaluationJob;
  evalNotifier : EvaluationNotifier;
  nextContext : nat;
  cancelled : gset nat;
  spawned : list spawnedRun
}.

(** What the environment supplies to a request: a fresh UUID, the clock,
    the faults of the database, the outcome of web-socket writes. *)
Record Env : Type := mkEnv {
  newUUID : string;
  now : Z;
  faults : Faults;
  writeOk : nat -> bool
}.

(** An HTTP answer: status code with either the start payload, a status
    word, or an error message. *)
Inductive Response : Type :=
| Started (status : Z) (payload : StartEvaluationResponse)
| StatusOnly (status : Z) (word : string)
| Failure (status : Z) (message : string).

Definition StatusBadRequest : Z := 400.
Definition StatusNotFound : Z := 404.
Definition StatusConflict : Z := 409.
Definition StatusInternalServerError : Z := 500.
Definition StatusAccepted : Z := 202.

(** [startEvaluation]; the caller holds [jobMu]. *)
Definition startEvaluation (st : State) (env : Env) (req : EvaluateRequest)
    (batch : Store.CSVBatch) (totalDomains : Z) : (evaluationJob + string) * State :=
  match activeJob st with
  | Some _ => (inr "evaluation already running", st)
  | None =>
      let ctx := nextContext st in
      let job :=
        {| jobID := newUUID env; jobCtx := ctx; startedAt := now env;
           total := totalDomains; jobBatchID := Store.batchID batch;
           batchName := Store.Name batch; jobRequestID := 0 |} in
      if createFails (faults env) then
        (inr "create batch request: database error",
         {| db := db st; activeJob := None; evalNotifier := evalNotifier st;
            nextContext := S ctx; cancelled := {[ctx]} ∪ cancelled st;
            spawned := spawned st |})
      else
        let '(request, db') :=
          CreateBatchRequest (db st) (Store.batchID batch) "evaluate" "running" (jobID job) (now env) in
        let job :=
          {| jobID := jobID job; jobCtx := ctx; startedAt := startedAt job;
             total := total job; jobBatchID := jobBatchID job;
             batchName := batchName job; jobRequestID := Store.requestID request |} in
        (inl job,
         {| db := db'; activeJob := Some job; evalNotifier := evalNotifier st;
            nextContext := S ctx; cancelled := cancelled st;
            spawned := (spawned st ++
                        [{| runCtx := ctx; runJob := job; runReq := req; runBatch := batch |}])%list |})
  end.

(** [handleEvaluate]; [body] is the decoded request, [None] when the body
    cannot be decoded. *)
Definition handleEvaluate (st : State) (env : Env) (body : option EvaluateRequest)
    : Response * State :=
  match body with
  | None => (Failure StatusBadRequest "invalid request body", st)
  | Some req =>
      if BatchID req =? 0 then (Failure StatusBadRequest "batch_id is required", st)
      else
        match GetCSVBatch (db st) (BatchID req) with
        | None =>
            (Failure StatusNotFound
               ("batch " ++ formatInt (BatchID req) ++ " not found"), st)
        | Some batch =>
            if countFails (faults env) then
              (Failure StatusInternalServerError "database error", st)
            else
              let totalDomains := CountBatchDomains (db st) (Store.batchID batch) in
              if totalDomains =? 0 then
                (Failure StatusBadRequest "batch has no domains to evaluate", st)
              else
                match activeJob st with
                | Some _ => (Failure StatusConflict "evaluation already running", st)
                | None =>
                    match startEvaluation st env req batch totalDomains with
                    | (inr err, st') => (Failure StatusInternalServerError err, st')
                    | (inl job, st') =>
                        (Started StatusAccepted
                           {| respJobID := jobID job;
                              respBatchID := Store.batchID batch;
                              respRequestID := jobRequestID job;
                              respTotal := total job;
                              respStartedAt := startedAt job |}, st')
                    end
                end
        end
  end.

(** [cancelEvaluation] aborts the active job if present. *)
Definition cancelEvaluation (st : State) : State :=
  match activeJob st with
  | None => st
  | Some job =>
      {| db := db st; activeJob := activeJob st; evalNotifier := evalNotifier st;
         nextContext := nextContext st; cancelled := {[jobCtx job]} ∪ cancelled st;
         spawned := spawned st |}
  end.

(** The event [handleCancelEvaluate] broadcasts for the active job. *)
Definition cancellationRequested (job : evaluationJob) : EvaluationEvent :=
  {| evType := "progress"; evJobID := jobID job; evBatchID := jobBatchID job;
     Total := total job; Processed := 0; evEvaluation := None; Batch := [];
     Message := "cancellation requested"; Reused := false; Timestamp := 0 |}.

(** [handleCancelEvaluate]; [jobIDParam] is the path parameter. *)
Definition handleCancelEvaluate (st : State) (env : Env) (jobIDParam : string)
    : Response * State :=
  let jobId := TrimSpace jobIDParam in
  if decide (jobId = "") then (Failure StatusBadRequest "job id required", st)
  else
    match activeJob st with
    | None => (Failure StatusNotFound "no evaluation running", st)
    | Some job =>
        if decide (jobID job <> jobId) then (Failure StatusNotFound "job not found", st)
        else
          (StatusOnly StatusAccepted "cancelling",
           {| db := db st; activeJob := activeJob st;
              evalNotifier :=
                Broadcast (evalNotifier st) (cancellationRequested job) (now env) (writeOk env);
              nextContext := nextContext st;
              cancelled := {[jobCtx job]} ∪ cancelled st;
              spawned := spawned st |})
    end.

(** *** The evaluation run: the collector loop of [runEvaluation]

    The producer and the workers only feed channels; every event of the
    run is broadcast by the collector, which is modelled as a transition
    system over what its [select] receives. *)

Inductive collectorInput : Type :=
| CtxDone                                    (* [<-ctx.Done()] *)
| ErrClosed                                  (* [errCh] closed *)
| ErrValue (err : option string)             (* a value from [errCh] *)
| ResultClosed                               (* [resultCh] closed *)
| ResultValue (res : domainResult)           (* a value from [resultCh] *)
    (saveErr : option string)                (* the outcome of [SaveEvaluation] *)
    (elapsed : bool).                        (* the throttle window has elapsed *)

Record runState : Type := mkRunState {
  totalProcessed : Z;
  existing : gset string;
  hasPending : bool;
  pendingEvent : option EvaluationEvent;
  lastEmitIsZero : bool;
  done : bool;
  activeResultCh : bool;      (* [activeResultCh != nil] *)
  activeErrCh : bool;         (* [activeErrCh != nil] *)
  finishStatus : string;
  returned : bool;
  emitted : list EvaluationEvent   (* the events broadcast so far, oldest first *)
}.

Definition jobEvent (type : string) (job : evaluationJob) (tot processed : Z)
    (evaluation : option Dto.EvaluationDTO) (message : string) : EvaluationEvent :=
  {| evType := type; evJobID := jobID job; evBatchID := jobBatchID job;
     Total := tot; Processed := processed; evEvaluation := evaluation;
     Batch := []; Message := message; Reused := false; Timestamp := 0 |}.

Definition errorEvent (job : evaluationJob) (message : string) : EvaluationEvent :=
  jobEvent "error" job 0 0 None message.

Section Run.

Variable job : evaluationJob.
Variable req : EvaluateRequest.
(** The text of the duration in the message of the final event. *)
Variable duration : string.

Definition skipExisting : bool := Resume req && negb (Force req).

Definition broadcast (st : runState) (event : EvaluationEvent) : runState :=
  {| totalProcessed := totalProcessed st; existing := existing st;
     hasPending := hasPending st; pendingEvent := pendingEvent st;
     lastEmitIsZero := lastEmitIsZero st; done := done st;
     activeResultCh := activeResultCh st; activeErrCh := activeErrCh st;
     finishStatus := finishStatus st; returned := returned st;
     emitted := (emitted st ++ [event])%list |}.

(** The closure [flush]. *)
Definition flush (force elapsed : bool) (st : runState) : runState :=
  if negb (hasPending st) then st
  else if negb force && negb (lastEmitIsZero st) && negb elapsed then st
  else
    match pendingEvent st with
    | None => st
    | Some ev =>
        let st := broadcast st ev in
        {| totalProcessed := totalProcessed st; existing := existing st;
           hasPending := false; pendingEvent := pendingEvent st;
           lastEmitIsZero := false; done := done st;
           activeResultCh := activeResultCh st; activeErrCh := activeErrCh st;
           finishStatus := finishStatus st; returned := returned st;
           emitted := emitted st |}
    end.

(** Leave [runEvaluation] with [status], after broadcasting [event]. *)
Definition finish (status : string) (event : EvaluationEvent) (st : runState) : runState :=
  let st := broadcast st event in
  {| totalProcessed := totalProcessed st; existing := existing st;
     hasPending := hasPending st; pendingEvent := pendingEvent st;
     lastEmitIsZero := lastEmitIsZero st; done := done st;
     activeResultCh := activeResultCh st; activeErrCh := activeErrCh st;
     finishStatus := status; returned := true; emitted := emitted st |}.

Definition initial (processed : Z) (seen : gset string) : runState :=
  {| totalProcessed := processed; existing := seen; hasPending := false;
     pendingEvent := None; lastEmitIsZero := true; done := false;
     activeResultCh := true; activeErrCh := true;
     finishStatus := "completed"; returned := false; emitted := [] |}.

(** [runEvaluation] up to the [started] event.  [marksErr] and
    [scorerErr] are the errors of loading the marks and of building the
    scorer, [evaluated] the answer of [EvaluatedDomainsForBatch]. *)
Definition runStart (marksErr scorerErr : option string)
    (evaluated : string + list string) : runState :=
  if total job <=? 0 then
    finish "failed" (errorEvent job "no domains available for evaluation") (initial 0 ∅)
  else
    match marksErr, scorerErr with
    | Some err, _ => finish "failed" (errorEvent job ("load marks: " ++ err)) (initial 0 ∅)
    | None, Some err =>
        finish "failed" (errorEvent job ("trademark scorer: " ++ err)) (initial 0 ∅)
    | None, None =>
        let started processed :=
          jobEvent "started" job (total job) processed None "evaluation started" in
        if skipExisting then
          match evaluated with
          | inl err =>
              finish "failed" (errorEvent job ("load existing evaluations: " ++ err))
                (initial 0 ∅)
          | inr domains =>
              let seen : gset string :=
                list_to_set (filter (fun key => key <> "") (map TrimSpace domains)) in
              let processed := Z.of_nat (size seen) in
              broadcast (initial processed seen) (started processed)
          end
        else broadcast (initial 0 ∅) (started 0)
    end.

Definition closeResultCh (st : runState) : runState :=
  {| totalProcessed := totalProcessed st; existing := existing st;
     hasPending := hasPending st; pendingEvent := pendingEvent st;
     lastEmitIsZero := lastEmitIsZero st; done := done st;
     activeResultCh := false; activeErrCh := activeErrCh st;
     finishStatus := finishStatus st; returned := returned st;
     emitted := emitted st |}.

Definition closeErrCh (st : runState) : runState :=
  {| totalProcessed := totalProcessed st; existing := existing st;
     hasPending := hasPending st; pendingEvent := pendingEvent st;
     lastEmitIsZero := lastEmitIsZero st; done := done st;
     activeResultCh := activeResultCh st; activeErrCh := false;
     finishStatus := finishStatus st; returned := returned st;
     emitted := emitted st |}.

Definition markDone (st : runState) : runState :=
  {| totalProcessed := totalProcessed st; existing := existing st;
     hasPending := hasPending st; pendingEvent := pendingEvent st;
     lastEmitIsZero := lastEmitIsZero st; done := true;
     activeResultCh := activeResultCh st; activeErrCh := activeErrCh st;
     finishStatus := finishStatus st; returned := returned st;
     emitted := emitted st |}.

(** A saved evaluation is counted and becomes the pending event. *)
Definition record (eval : Store.Evaluation) (st : runState) : runState :=
  let processed := totalProcessed st + 1 in
  {| totalProcessed := processed;
     existing :=
       if skipExisting then {[Store.DomainNormalized eval]} ∪ existing st
       else existing st;
     hasPending := true;
     pendingEvent :=
       Some (jobEvent "evaluation" job (total job) processed (Some (FromModel eval)) "");
     lastEmitIsZero := lastEmitIsZero st; done := done st;
     activeResultCh := activeResultCh st; activeErrCh := activeErrCh st;
     finishStatus := finishStatus st; returned := returned st;
     emitted := emitted st |}.

(** The body of the [select] for one received value. *)
Definition receive (st : runState) (input : collectorInput) : runState :=
  match input with
  | CtxDone =>
      let st := flush true false st in
      finish "cancelled"
        (jobEvent "cancelled" job (total job) (totalProcessed st) None "evaluation cancelled")
        st
  | ErrClosed => if activeErrCh st then closeErrCh st else st
  | ErrValue err =>
      if negb (activeErrCh st) then st
      else
        match err with
        | None => st
        | Some msg => finish "failed" (errorEvent job msg) (flush true false st)
        end
  | ResultClosed => if activeResultCh st then closeResultCh st else st
  | ResultValue res saveErr elapsed =>
      if negb (activeResultCh st) then st
      else if done st then st
      else
        match Err res, saveErr with
        | Some e, _ =>
            finish "failed" (errorEvent job ("evaluate domain: " ++ Ai.Error e))
              (flush true false st)
        | None, Some msg =>
            finish "failed" (errorEvent job ("save evaluation: " ++ msg))
              (flush true false st)
        | None, None =>
            let st := flush false elapsed (record (Evaluation res) st) in
            if total job <=? totalProcessed st then markDone st else st
        end
  end.

(** One turn of the loop: nothing once [runEvaluation] has returned;
    when both channels are closed the loop ends and the run completes. *)
Definition collect (st : runState) (input : collectorInput) : runState :=
  if returned st then st
  else
    let st := receive st input in
    if returned st then st
    else if negb (activeResultCh st) && negb (activeErrCh st) then
      let st := flush true false st in
      finish (finishStatus st)
        (jobEvent "complete" job (total job) (totalProcessed st) None
           ("evaluation finished in " ++ duration))
        st
    else st.

(** What happens to a job, in order: the collector receives a value, or
    a cancellation of the job is requested over HTTP. *)
Inductive jobStep : Type :=
| Collector (input : collectorInput)
| CancelRequest.

Definition jobTurn (st : runState) (step : jobStep) : runState :=
  match step with
  | Collector input => collect st input
  | CancelRequest =>
      (* the job is active until [runEvaluation] returns *)
      if returned st then st else broadcast st (cancellationRequested job)
  end.

(** The events broadcast for the job, oldest first. *)
Definition jobEvents (marksErr scorerErr : option string)
    (evaluated : string + list string) (steps : list jobStep) : list EvaluationEvent :=
  emitted (fold_left jobTurn steps (runStart marksErr scorerErr evaluated)).

End Run.

(** *** Workers, status and the end of a request *)

(** [determineWorkerCount]; [numCPU] is [runtime.NumCPU()]. *)
Definition determineWorkerCount (numCPU : Z) : Z :=
  let workers := numCPU in
  let workers := if workers <? 2 then 2 else workers in
  if 12 <? workers then 12 else workers.

Record EvaluateStatusResponse : Type := mkEvaluateStatusResponse {
  statusRunning : bool;                               (* field [Running] *)
  statusJobID : string;                               (* field [JobID] *)
  statusBatchID : Z;                                  (* field [BatchID] *)
  statusRequestID : Z;                                (* field [RequestID] *)
  statusState : string;                               (* field [State] *)
  statusMessage : string;                             (* field [Message] *)
  statusProcessed : Z;                                (* field [Processed] *)
  statusTotal : Z;                                    (* field [Total] *)
  statusLastEvaluation : option Dto.EvaluationDTO     (* field [LastEvaluation] *)
}.

(** [handleEvaluateStatus]: the body of the answer, which is always sent
    with status 200. *)
Definition handleEvaluateStatus (st : State) : EvaluateStatusResponse :=
  let job := activeJob st in
  let status := LastStatus (evalNotifier st) in
  let resp :=
    match job with
    | Some job =>
        {| statusRunning := true; statusJobID := jobID job; statusBatchID := jobBatchID job;
           statusRequestID := jobRequestID job; statusState := ""; statusMessage := "";
           statusProcessed := 0; statusTotal := total job; statusLastEvaluation := None |}
    | None =>
        {| statusRunning := false; statusJobID := ""; statusBatchID := 0;
           statusRequestID := 0; statusState := ""; statusMessage := "";
           statusProcessed := 0; statusTotal := 0; statusLastEvaluation := None |}
    end in
  match status with
  | None => resp
  | Some status =>
      {| statusRunning := statusRunning resp; statusJobID := statusJobID resp;
         statusBatchID :=
           if evBatchID status =? 0 then statusBatchID resp else evBatchID status;
         statusRequestID := statusRequestID resp;
         statusState := evType status; statusMessage := Message status;
         statusProcessed :=
           if Processed status =? 0 then statusProcessed resp else Processed status;
         statusTotal := if Total status =? 0 then statusTotal resp else Total status;
         statusLastEvaluation := evEvaluation status |}
  end.

(** [UpdateBatchRequest] (db.go): the status of the request, and its end
    time for the statuses completed and failed. *)
Definition UpdateBatchRequest (d : Database) (requestId : Z) (status : string) (now : Z)
    : Database :=
  {| csv_batches := csv_batches d;
     domain_batches := domain_batches d;
     batch_requests :=
       map (fun request =>
              if Store.requestID request =? requestId then
                {| Store.requestID := Store.requestID request;
                   Store.requestBatchID := Store.requestBatchID request;
                   Store.requestType := Store.requestType request;
                   Store.Status := status;
                   Store.JobID := Store.JobID request;
                   Store.StartedAt := Store.StartedAt request;
                   Store.FinishedAt :=
                     if String.eqb status "completed" || String.eqb status "failed"
                     then Some now else Store.FinishedAt request |}
              else request)
         (batch_requests d) |}.

(** [UpdateBatchProcessingInfo] (db.go); [processed] is the count that
    [CountBatchResults] gives for the batch. *)
Definition UpdateBatchProcessingInfo (d : Database) (batchId : Z) (processed : Z) : Database :=
  {| csv_batches :=
       map (fun batch =>
              if Store.batchID batch =? batchId then
                {| Store.batchID := Store.batchID batch; Store.Name := Store.Name batch;
                   Store.UniqueDomains := Store.UniqueDomains batch;
                   Store.ProcessedDomains := processed |}
              else batch)
         (csv_batches d);
     domain_batches := domain_batches d;
     batch_requests := batch_requests d |}.

(** The deferred function of [runEvaluation]: the request is given the
    status the run leaves with ([finishErr] tells whether an error was
    recorded), the processed count of the batch is refreshed and the job
    slot is released.  [updateOk] tells whether the update of the request
    succeeds, and [processed] is the count of the evaluated domains of the
    batch, [None] when it cannot be refreshed; both failures are logged
    only. *)
Definition finishRequest (st : State) (job : evaluationJob) (finishStatus : string)
    (finishErr : bool) (updateOk : bool) (processed : option Z) (now : Z) : State :=
  let status :=
    if finishErr && String.eqb finishStatus "completed" then "failed" else finishStatus in
  let db1 :=
    if negb (jobRequestID job =? 0) && updateOk
    then UpdateBatchRequest (db st) (jobRequestID job) status now
    else db st in
  let db2 :=
    match processed with
    | Some count => UpdateBatchProcessingInfo db1 (jobBatchID job) count
    | None => db1
    end in
  {| db := db2; activeJob := None; evalNotifier := evalNotifier st;
     nextContext := nextContext st; cancelled := cancelled st; spawned := spawned st |}.

End Api.

(** * Reference definitions

    Definitions that follow the words of the specification, and the data of
    the scenarios the properties are tried on. *)

Import Match Store Scoring Api.

(** The matrix as the specification words it, on the trademark score [T]
    and the vice score [V]: the first row that applies gives the result. *)
Inductive matrixRow (T V : Z) : string -> Prop :=
| RowBlock : 4 <= T \/ 4 <= V -> matrixRow T V "BLOCK"
| RowReview : ~ (4 <= T \/ 4 <= V) -> V = 3 \/ T = 3 -> matrixRow T V "REVIEW"
| RowCaution :
    ~ (4 <= T \/ 4 <= V) -> ~ (V = 3 \/ T = 3) -> T = 2 \/ T = 1 ->
    matrixRow T V "ALLOW_WITH_CAUTION"
| RowAllow :
    ~ (4 <= T \/ 4 <= V) -> ~ (V = 3 \/ T = 3) -> ~ (T = 2 \/ T = 1) ->
    matrixRow T V "ALLOW".

(** The minimum of two confidences in which a zero operand stands for
    "absent" and yields the other operand. *)
Definition minOrOther (a b : Q) : Q :=
  if Qeq_bool a 0 then b else if Qeq_bool b 0 then a else Qmin a b.

(** The index and seeds of the repository's trademark test. *)
Definition testMark (serial display normalized : string) (fanciful : bool) : Mark :=
  {| Serial := serial; Registration := ""; MarkText := display;
     MarkNormalized := ""; MarkNoSpaces := normalized; Owner := "";
     ClassesJSON := ""; IsFanciful := fanciful |}.

Definition testMarks : list Mark :=
  [testMark "1" "GOOGLE" "google" true;
   testMark "2" "Amazon" "amazon" false;
   testMark "3" "Master" "master" false].

Definition testIndex : trademarkIndex :=
  buildTrademarkIndex testMarks (seedSet ["google"]).

Definition noDictionary : string -> bool := fun _ => false.

(** The test index extended with a mark for [example]. *)
Definition exampleIndex : trademarkIndex :=
  buildTrademarkIndex (testMark "4" "Example" "example" false :: testMarks) (seedSet ["google"]).

(** The confidence of a vice result as the specification tabulates it. *)
Definition tierConfidence (severity : Z) : Q :=
  match severity with
  | 5 | 4 => 0.95
  | 3 => 0.80
  | 2 => 0.70
  | 1 => 0.60
  | _ => 0.99
  end.

(** A term list in the shape of the repository's vice test. *)
Definition testVice : ViceScorer :=
  {| terms := <[5 := ["terror"]]> (<[3 := ["casino"; "bet"; "casino"]]> (<[1 := ["dating"]]> ∅)) |}.

(** [term] of tier [severity] matches the domain text: it is a non-empty
    term of that tier contained in the host text or in the brand text. *)
Definition matchesAt (v : ViceScorer) (domain brand : string) (severity : Z)
    (term : string) : Prop :=
  term ∈ default [] (terms v !! severity) /\ term <> "" /\
  (Contains domain term = true \/ Contains brand term = true).

(** The calls made on a notifier, and their effect in order. *)
Inductive notifierOp : Type :=
| OpRegister (writeOk : bool)
| OpUnregister (client : option nat)
| OpBroadcast (event : EvaluationEvent) (now : Z) (writeOk : nat -> bool).

Definition applyOp (n : EvaluationNotifier) (op : notifierOp) : EvaluationNotifier :=
  match op with
  | OpRegister ok => snd (Register n ok)
  | OpUnregister client => Unregister n client
  | OpBroadcast event now ok => Broadcast n event now ok
  end.

Definition runOps (ops : list notifierOp) (n : EvaluationNotifier) : EvaluationNotifier :=
  fold_left applyOp ops n.

(** The events handed to [Broadcast] by a sequence of calls, as stamped. *)
Definition broadcastsOf (ops : list notifierOp) : list EvaluationEvent :=
  omap (fun op =>
          match op with
          | OpBroadcast event now _ => Some (withTimestamp event now)
          | _ => None
          end) ops.

(** [op] does not broadcast a status event. *)
Definition notStatus (op : notifierOp) : Prop :=
  match op with
  | OpBroadcast event _ _ => isStatusType (evType event) = false
  | _ => True
  end.

(** What [Register] writes to the new connection. *)
Definition replayOf (n : EvaluationNotifier) (writeOk : bool) : list EvaluationEvent :=
  match lastStatus n with
  | Some status => if writeOk then [status] else []
  | None => []
  end.

(** A job and two of its events, for the scenarios. *)
Definition testJob : evaluationJob :=
  {| jobID := "job-1"; jobCtx := 0; startedAt := 0; total := 2; jobBatchID := 7;
     batchName := "batch"; jobRequestID := 1 |}.

Definition testEvaluationEvent : EvaluationEvent :=
  jobEvent "evaluation" testJob 2 1 (Some (FromModel emptyEvaluation)) "".

Definition testCompleteEvent : EvaluationEvent :=
  jobEvent "complete" testJob 2 2 None "evaluation finished in 1s".

Definition allWritesOk : nat -> bool := fun _ => true.

(** The failures of [StartEvaluation] the specification names, and the
    HTTP answers that stand for them. *)
Inductive startError : Type := AlreadyRunning | BatchNotFound | BatchEmpty.

Definition startErrorOf (response : Response) : option startError :=
  match response with
  | Failure status message =>
      if status =? StatusConflict then Some AlreadyRunning
      else if status =? StatusNotFound then Some BatchNotFound
      else if (status =? StatusBadRequest) && String.eqb message "batch has no domains to evaluate"
      then Some BatchEmpty
      else None
  | _ => None
  end.

(** A database with batch 7 holding two distinct domains, one of them on
    two rows, and an idle server over it. *)
Definition testDatabase : Database :=
  {| csv_batches := [{| batchID := 7; Name := "batch"; UniqueDomains := 2; ProcessedDomains := 0 |}];
     domain_batches :=
       [{| rowBatchID := 7; rowDomain := "Google.store"; rowDomainNormalized := "google.store"; RowIndex := 0 |};
        {| rowBatchID := 7; rowDomain := "cars.ai"; rowDomainNormalized := "cars.ai"; RowIndex := 1 |};
        {| rowBatchID := 7; rowDomain := "google.store"; rowDomainNormalized := "google.store"; RowIndex := 2 |}];
     batch_requests := [] |}.

Definition idleState : State :=
  {| db := testDatabase; activeJob := None; evalNotifier := NewEvaluationNotifier;
     nextContext := 0; cancelled := ∅; spawned := [] |}.

Definition testEnv : Env :=
  {| newUUID := "job-1"; now := 100; faults := noFaults; writeOk := allWritesOk |}.

Definition testRequest : EvaluateRequest :=
  {| BatchID := 7; Limit := 0; Offset := 0; Resume := false; Force := false |}.

(** The backoff before the retry number [k] (from 0), as the specification
    words it: 2 s at first, doubling, capped at 10 s. *)
Definition backoffSchedule (k : nat) : Z :=
  Z.min (2 ^ Z.of_nat k * (2 * Second)) (10 * Second).

(** The transient errors: the message, in lower case, holds one of the
    three status texts. *)
Definition transientText (msg : string) : bool :=
  Contains msg "status 429" || Contains msg "status 500" || Contains msg "status 503".

(** An explainer whose first answer is an error naming the status with a
    capital letter and whose later answers succeed. *)
Definition capitalisedStatusExplainer : Ai.Explainer :=
  {| Ai.Enabled := true;
     Ai.Explain := fun _ n =>
       match n with
       | O => inr (Ai.ErrMessage "upstream said: Status 429 Too Many Requests")
       | _ => inl {| Ai.Narrative := "Looks fine."; Ai.TrademarkScore := None;
                     Ai.ViceScore := None; Ai.Recommendation := "ALLOW";
                     Ai.Confidence := None |}
       end |}.

(** An explainer that always answers with a transient error. *)
Definition overloadedExplainer : Ai.Explainer :=
  {| Ai.Enabled := true;
     Ai.Explain := fun _ _ => inr (Ai.ErrMessage "openai status 503: map[]") |}.

Definition someInput : Ai.ExplanationInput :=
  {| Ai.Domain := "cars.ai";
     Ai.Trademark := noTrademark;
     Ai.Vice := {| viceScore := 0; Categories := []; viceConfidence := 0.99 |};
     Ai.Overall := {| Recommendation := "ALLOW"; Confidence := 0.2 |};
     Ai.MarksCount := 0; Ai.DomainsCount := 1; Ai.CloseMatches := [];
     Ai.SecondLevel := "cars"; Ai.TopLevel := "ai"; Ai.DomainTokens := ["cars"];
     Ai.ViceTerms := []; Ai.InputRecommendation := "ALLOW"; Ai.AllowOverride := true;
     Ai.HasSubstringAlerts := false; Ai.CommercialOverride := false;
     Ai.CommercialSource := ""; Ai.CommercialSimilarity := 0; Ai.CommercialPrice := 0 |}.

(** Every call of the explainer of [s], if it has one that is enabled,
    fails. *)
Definition aiAlwaysFails (s : Server) : Prop :=
  forall e, explainer s = Some e -> Ai.Enabled e = true ->
            forall input n, exists err, Ai.Explain e input n = inr err.

(** The four recommendations. *)
Definition recommendations : list string :=
  ["BLOCK"; "REVIEW"; "ALLOW_WITH_CAUTION"; "ALLOW"].

(** A server without collaborators whose explainer is always overloaded,
    and a work item. *)
Definition overloadedServer : Server :=
  {| viceScorer := Some testVice; fancifulDecider := None;
     explainer := Some overloadedExplainer; usptoClient := None;
     commercial := None; popularTokens := defaultPopularTokens |}.

Definition casinoItem : BatchDomain :=
  {| itemDomain := "play-casino.io"; itemDomainNormalized := "play-casino.io"; itemRowIndex := 0 |}.

(** The commercial scenario: [cars] sold for $120000, the mark Cars indexed
    and popular, no explainer. *)
Definition carsIndex : trademarkIndex :=
  buildTrademarkIndex (testMark "5" "Cars" "cars" false :: testMarks) (seedSet ["google"]).

Definition carsServer : Server :=
  {| viceScorer := Some testVice; fancifulDecider := None; explainer := None;
     usptoClient := None;
     commercial :=
       Some (fun sld =>
               if String.eqb sld "cars"
               then Some {| Commercial.SLD := "cars"; Commercial.Price := 120000;
                            Commercial.Similarity := 1 |}
               else None);
     popularTokens := SetPopularTokens {["cars"]} |}.

Definition carsHeuristics : Heuristics :=
  heuristics noDictionary carsServer (NormalizeDomain "cars.ai") "cars.ai" (Some carsIndex)
    Usp.emptyLookup false.

(** The recommendation with the commercial downgrade applied when granted. *)
Definition downgradedIf (granted : bool) (overall : OverallResult) : string :=
  if granted then commercialDowngrade (Recommendation overall) else Recommendation overall.

(** The events of a run that report its progress: they are built with the
    current count of processed domains. *)
Definition countsProgress (event : EvaluationEvent) : bool :=
  String.eqb (evType event) "started" || String.eqb (evType event) "evaluation" ||
  String.eqb (evType event) "cancelled" || String.eqb (evType event) "complete".

Definition progressOf (events : list EvaluationEvent) : list Z :=
  map Processed (List.filter countsProgress events).

(** The count a resumed run starts from. *)
Definition resumedCount (evaluated : string + list string) : Z :=
  match evaluated with
  | inl _ => 0
  | inr domains =>
      Z.of_nat (size (list_to_set (C := gset string)
                        (filter (fun key => key <> "") (map TrimSpace domains))))
  end.

(** One evaluated domain, saved without error inside the throttle window
    or after it. *)
Definition savedResult (elapsed : bool) : collectorInput :=
  ResultValue {| Evaluation := emptyEvaluation; Err := None |} None elapsed.

(** An event of the job either reports the progress of the run or has
    its processed count left at zero. *)
Definition eventOk (job : evaluationJob) (event : EvaluationEvent) : Prop :=
  evJobID event = jobID job /\ (countsProgress event = true \/ Processed event = 0).

(** The invariant of a run: the progress reported so far is non-decreasing
    and bounded by the current count, every event carries the id of the job,
    and a pending event is an evaluation event built with the current
    count. *)
Definition progressInv (job : evaluationJob) (st : runState) : Prop :=
  Sorted Z.le (progressOf (emitted st)) /\
  Forall (fun p => p <= totalProcessed st) (progressOf (emitted st)) /\
  Forall (eventOk job) (emitted st) /\
  (hasPending st = true ->
   exists ev, pendingEvent st = Some ev /\ Processed ev = totalProcessed st /\
              countsProgress ev = true /\ evJobID ev = jobID job).

(** The count stays within the total as long as it starts below it. *)
Definition countInv (job : evaluationJob) (st : runState) : Prop :=
  totalProcessed st <= total job /\ (done st = false -> totalProcessed st < total job).

(** The step hands a result of a worker to the collector. *)
Definition deliversResult (step : jobStep) : bool :=
  match step with
  | Collector (ResultValue _ _ _) => true
  | _ => false
  end.

(** A run of [testJob] in which one domain is evaluated, the cancellation
    of the job is requested, and the collector then sees its context
    cancelled. *)
Definition cancelledRun : list (jobStep) :=
  [Collector (savedResult true); CancelRequest; Collector CtxDone].

(** ** Further reference definitions *)

(** The recommendations, by severity. *)
Definition recommendationRank (r : string) : Z :=
  if decide (r = "BLOCK") then 3
  else if decide (r = "REVIEW") then 2
  else if decide (r = "ALLOW_WITH_CAUTION") then 1
  else 0.

(** A server whose only collaborator is the USPTO client [lookupExact]. *)
Definition lookupServer (lookupExact : string -> option Usp.LookupResult) : Server :=
  {| viceScorer := None; fancifulDecider := None; explainer := None;
     usptoClient := Some lookupExact; commercial := None;
     popularTokens := defaultPopularTokens |}.

(** A client that knows one live mark, and a client that is down. *)
Definition acmeLookup (term : string) : option Usp.LookupResult :=
  Some {| Usp.Term := term;
          Usp.ExactMatches :=
            [{| Usp.SerialNumber := "97000001"; Usp.RegistrationNumber := "";
                Usp.MarkText := "ACME"; Usp.Owner := "Acme Corp"; Usp.Status := "LIVE";
                Usp.Classes := ["009"]; Usp.IsLive := true |}];
          Usp.Similar := []; Usp.Checked := true |}.

Definition downLookup (term : string) : option Usp.LookupResult := None.

(** The types of the events that end a run, and the status the run leaves
    with for each of them. *)
Definition isTerminalType (t : string) : bool :=
  String.eqb t "complete" || String.eqb t "cancelled" || String.eqb t "error".

Definition finishStatusOf (t : string) : string :=
  if String.eqb t "complete" then "completed"
  else if String.eqb t "cancelled" then "cancelled"
  else "failed".

(** The invariant of a run on its terminal event: a run that has returned
    has broadcast exactly one terminal event, as its last event, and its
    status is the one of that event; a run that has not returned has
    broadcast none. *)
Definition terminalInv (st : runState) : Prop :=
  (forall ev, pendingEvent st = Some ev -> evType ev = "evaluation") /\
  if returned st then
    exists before final,
      emitted st = (before ++ [final])%list /\
      Forall (fun ev => isTerminalType (evType ev) = false) before /\
      isTerminalType (evType final) = true /\
      finishStatus st = finishStatusOf (evType final)
  else
    finishStatus st = "completed" /\
    Forall (fun ev => isTerminalType (evType ev) = false) (emitted st).

(** A notifier with one subscriber. *)
Definition oneSubscriber : EvaluationNotifier := snd (Register NewEvaluationNotifier true).

(** The server [s] with another explainer. *)
Definition withExplainer (s : Server) (e : option Ai.Explainer) : Server :=
  {| viceScorer := viceScorer s; fancifulDecider := fancifulDecider s;
     explainer := e; usptoClient := usptoClient s; commercial := commercial s;
     popularTokens := popularTokens s |}.

(** An explainer that always gives the same answer. *)
Definition cannedExplainer (decision : Ai.Decision) : Ai.Explainer :=
  {| Ai.Enabled := true; Ai.Explain := fun _ _ => inl decision |}.

Definition cannedDecision : Ai.Decision :=
  {| Ai.Narrative := "No conflicting mark; the name is generic.";
     Ai.TrademarkScore := None; Ai.ViceScore := None;
     Ai.Recommendation := "ALLOW"; Ai.Confidence := None |}.

(** The decoded content of a vice term file. *)
Definition viceFile : list (string * list string) :=
  [("5", ["Child Abuse"]); ("3", ["Casino"; "Poker "]); ("1", ["loan"])].

(** The edit distance of two sequences: the least number of deletions,
    insertions and substitutions of one element that turn the first into
    the second. *)
Fixpoint editDistance (x y : list ascii) : Z :=
  match x with
  | [] => Z.of_nat (length y)
  | a :: x' =>
      (fix inner (y : list ascii) : Z :=
         match y with
         | [] => Z.of_nat (length x)
         | b :: y' =>
             Z.min (Z.min (editDistance x' y + 1) (inner y' + 1))
               (editDistance x' y' + (if decide (a = b) then 0 else 1))
         end) y
  end.

(** The state of the table of [levenshtein] when the cell of row [r] and
    column [c] is about to be filled: the first row, the first column, the
    rows above [r] and the cells of row [r] before column [c] hold the
    distances of the prefixes. *)
Definition tableInv (a b : list ascii) (r c : nat) (dp : list Z) : Prop :=
  length dp = ((length a + 1) * (length b + 1))%nat /\
  forall r' c' : nat,
    (r' <= length a)%nat -> (c' <= length b)%nat ->
    (r' = 0 \/ c' = 0 \/ r' < r \/ (r' = r /\ c' < c))%nat ->
    dp !! Commercial.index (length b + 1) r' c' = Some (editDistance (take r' a) (take c' b)).

(** The match [m] was taken from the sale [candidate] for the label
    [normalized]. *)
Definition takenFrom (normalized : string) (m : Commercial.Match)
    (candidate : CommercialSale) : Prop :=
  m = {| Commercial.SLD := saleSLD candidate; Commercial.Price := salePrice candidate;
         Commercial.Similarity := Commercial.similarity normalized (saleNormalized candidate) |}.

(** An inventory with one sale, and the service over it. *)
Definition carsSale : CommercialSale :=
  {| saleSLD := "Cars"; saleNormalized := "cars"; salePrefix := "car"; saleLength := 4;
     salePrice := 250000 |}.

Definition carsInventory (prefixes : list string) (minLen maxLen targetLen limit : Z)
    : option (list CommercialSale) :=
  if (minLen <=? 4) && (4 <=? maxLen) &&
     (bool_decide (prefixes = []) || bool_decide ("car" ∈ prefixes))
  then Some [carsSale] else Some [].

(** The matcher the server holds: [BestMatch] of a service over the
    inventory [find] whose cache is [cache]. *)
Definition inventoryMatcher
    (find : list string -> Z -> Z -> Z -> Z -> option (list CommercialSale))
    (cache : gmap string Commercial.cacheEntry) (sld : string) : option Commercial.Match :=
  let r := fst (Commercial.BestMatch find cache sld) in
  if snd r then Some (fst r) else None.

(** The server [s] with another commercial matcher. *)
Definition withCommercial (s : Server) (m : option (string -> option Commercial.Match))
    : Server :=
  {| viceScorer := viceScorer s; fancifulDecider := fancifulDecider s;
     explainer := explainer s; usptoClient := usptoClient s; commercial := m;
     popularTokens := popularTokens s |}.

(** * Properties *)

(** ** Recommendation matrix and overall confidence *)

Lemma Qltb_true (a b : Q) : Qltb a b = true <-> (a < b)%Q.
Proof.
  unfold Qltb. rewrite negb_true_iff.
  destruct (Qle_bool b a) eqn:E.
  - apply Qle_bool_iff in E. split; [discriminate|].
    intros H. exfalso. exact (Qlt_not_le _ _ H E).
  - split; [intros _|reflexivity].
    apply Qnot_le_lt. intros H. apply Qle_bool_iff in H. congruence.
Qed.

Lemma Qltb_false (a b : Q) : Qltb a b = false <-> (b <= a)%Q.
Proof.
  unfold Qltb. rewrite negb_false_iff. apply Qle_bool_iff.
Qed.

Lemma minFloat_minOrOther (a b : Q) : (minFloat a b == minOrOther a b)%Q.
Proof.
  unfold minFloat, minOrOther.
  destruct (Qeq_bool a 0); [reflexivity|].
  destruct (Qeq_bool b 0); [reflexivity|].
  destruct (Qltb a b) eqn:E.
  - apply Qltb_true in E. symmetry. apply Q.min_l. apply Qlt_le_weak, E.
  - apply Qltb_false in E. symmetry. apply Q.min_r, E.
Qed.

(** The confidence handed to the AI step is the plain minimum. *)
Lemma CombineRecommendation_confidence (tr : TrademarkResult) (vice : ViceResult) :
  (Confidence (CombineRecommendation tr vice) == Qmin (tmConfidence tr) (viceConfidence vice))%Q.
Proof.
  unfold CombineRecommendation; cbn [Confidence].
  destruct (Qltb (tmConfidence tr) (viceConfidence vice)) eqn:E.
  - apply Qltb_true in E. symmetry. apply Q.min_l, Qlt_le_weak, E.
  - apply Qltb_false in E. symmetry. apply Q.min_r, E.
Qed.

Lemma CombineRecommendation_matrix (tr : TrademarkResult) (vice : ViceResult) :
  matrixRow (tmScore tr) (viceScore vice) (Recommendation (CombineRecommendation tr vice)).
Proof.
  unfold CombineRecommendation; cbn [Recommendation].
  destruct (4 <=? tmScore tr) eqn:T4; cbn [orb].
  { apply RowBlock. left. lia. }
  destruct (4 <=? viceScore vice) eqn:V4.
  { apply RowBlock. right. lia. }
  destruct (viceScore vice =? 3) eqn:V3; cbn [orb].
  { apply RowReview; lia. }
  destruct (tmScore tr =? 3) eqn:T3.
  { apply RowReview; lia. }
  destruct (tmScore tr =? 2) eqn:T2.
  { apply RowCaution; lia. }
  destruct (tmScore tr =? 1) eqn:T1.
  { apply RowCaution; lia. }
  apply RowAllow; lia.
Qed.

Lemma matrixRow_functional (T V : Z) (r1 r2 : string) :
  matrixRow T V r1 -> matrixRow T V r2 -> r1 = r2.
Proof. intros H1 H2; inversion H1; inversion H2; subst; try reflexivity; tauto. Qed.

(** C4. The recommendation of [CombineRecommendation] is the row of the
    matrix selected by the two scores (BLOCK when T >= 4 or V >= 4; else
    REVIEW when V = 3 or T = 3; else ALLOW_WITH_CAUTION when T = 2 or T = 1;
    else ALLOW), and no other row; the overall confidence put on the wire by
    [FromModel] is, before its rendering to two decimals, the minimum of the
    trademark and vice confidences in which a zero operand yields the other
    operand. *)
Theorem C4_recommendation_matrix_and_confidence :
  (forall (tr : TrademarkResult) (vice : ViceResult) (r : string),
     Recommendation (CombineRecommendation tr vice) = r <->
     matrixRow (tmScore tr) (viceScore vice) r) /\
  (forall a b : Q, (minFloat a b == minOrOther a b)%Q) /\
  (forall e : Store.Evaluation,
     Dto.Confidence (FromModel e) =
     round2 (minFloat (Store.TrademarkConfidence e) (Store.ViceConfidence e))).
Proof.
  split; [|split].
  - intros tr vice r. split.
    + intros <-. apply CombineRecommendation_matrix.
    + intros H. eapply matrixRow_functional; [apply CombineRecommendation_matrix|exact H].
  - apply minFloat_minOrOther.
  - reflexivity.
Qed.

(** ** Trademark scoring: exact matches only *)

Section TrademarkExactOnly.

Variable popular : gset string.
Variable isCommonWord : string -> bool.

Lemma sfilter_sfilter_weaker (p q : ascii -> bool) (s : string) :
  (forall c, p c = true -> q c = true) ->
  sfilter p (sfilter q s) = sfilter p s.
Proof.
  intros Hpq. induction s as [|c s IH]; [reflexivity|].
  cbn [sfilter]. destruct (q c) eqn:Hq.
  - cbn [sfilter]. rewrite IH. reflexivity.
  - destruct (p c) eqn:Hp; [|exact IH].
    apply Hpq in Hp. congruence.
Qed.

Lemma sanitizeLabel_filter (label : string) :
  sanitizeLabel label = sfilter (fun r => is_lower r || is_digit r) (ToLower (TrimSpace label)).
Proof.
  unfold sanitizeLabel. case_decide as E; [|reflexivity]. rewrite E. reflexivity.
Qed.

Lemma alnum_not_separator (c : ascii) :
  is_lower c || is_digit c = true ->
  negb (Ascii.eqb c " " || Ascii.eqb c "-" || Ascii.eqb c "_") = true.
Proof.
  destruct (Ascii.eqb c " ") eqn:E1; [apply Ascii.eqb_eq in E1; subst; discriminate|].
  destruct (Ascii.eqb c "-") eqn:E2; [apply Ascii.eqb_eq in E2; subst; discriminate|].
  destruct (Ascii.eqb c "_") eqn:E3; [apply Ascii.eqb_eq in E3; subst; discriminate|].
  reflexivity.
Qed.

(** The sanitised form of a label only depends on its cleaned token. *)
Lemma sanitizeLabel_cleanToken (label : string) :
  sanitizeLabel label = sfilter (fun r => is_lower r || is_digit r) (cleanToken label).
Proof.
  rewrite sanitizeLabel_filter. unfold cleanToken.
  symmetry. apply sfilter_sfilter_weaker. exact alnum_not_separator.
Qed.

Lemma cleanToken_eq_sanitizeLabel_eq (a b : string) :
  cleanToken a = cleanToken b -> sanitizeLabel a = sanitizeLabel b.
Proof. intros E. rewrite !sanitizeLabel_cleanToken, E. reflexivity. Qed.

Lemma secondLevelLabel_extractSLD (profile : DomainProfile) :
  secondLevelLabel profile = extractSLD profile.
Proof. reflexivity. Qed.

(** A key that no mark sanitises to is absent from the exact map. *)
Lemma buildExactMap_absent (marks : list Mark) (k : string) :
  (forall m, m ∈ marks -> sanitizeLabel (MarkNoSpaces m) <> k) ->
  buildExactMap marks !! k = None.
Proof.
  unfold buildExactMap.
  assert (G : forall acc : gmap string Mark,
             acc !! k = None ->
             (forall m, m ∈ marks -> sanitizeLabel (MarkNoSpaces m) <> k) ->
             fold_left
               (fun result mark =>
                  let key := sanitizeLabel (MarkNoSpaces mark) in
                  if decide (key = "") then result
                  else match result !! key with
                       | Some _ => result
                       | None => <[key := mark]> result
                       end) marks acc !! k = None).
  { induction marks as [|m marks IH]; intros acc Hacc Hk; [exact Hacc|].
    cbn [fold_left]. apply IH.
    - cbn zeta. case_decide; [exact Hacc|].
      destruct (acc !! sanitizeLabel (MarkNoSpaces m)); [exact Hacc|].
      rewrite lookup_insert_ne; [exact Hacc|]. apply Hk. left.
    - intros m' Hm'. apply Hk. right. exact Hm'. }
  intros Hk. apply G; [apply lookup_empty|exact Hk].
Qed.

Lemma Score_absent (idx : trademarkIndex) (profile : DomainProfile) :
  exact idx !! sanitizeLabel (extractSLD profile) = None ->
  Score popular isCommonWord (Some idx) profile = noTrademark.
Proof.
  intros H. unfold Score, lookupExact. case_decide; [reflexivity|].
  rewrite H. reflexivity.
Qed.

Variable fancifulDecider : option FancifulDecider.

(** Whenever the loop over the exact matches returns a result, it is for
    a mark whose cleaned token is the cleaned second-level label. *)
Lemma scanExact_Some (sldToken : string) (exacts : list Usp.Mark) :
  forall (closeMatches closeMatches' : list string) (r : TrademarkResult),
    scanExact popular fancifulDecider sldToken closeMatches exacts = (closeMatches', Some r) ->
    exists e, e ∈ exacts /\ cleanToken (Usp.MarkText e) = sldToken /\
              tmMatched r = Usp.MarkText e.
Proof.
  induction exacts as [|e exacts IH]; intros cm cm' r H; [discriminate|].
  cbn [scanExact] in H.
  case_decide as E0.
  { destruct (IH _ _ _ H) as (e' & He' & Hc). exists e'. split; [by right|exact Hc]. }
  cbn zeta in H. case_decide as E1.
  { destruct (IH _ _ _ H) as (e' & He' & Hc). exists e'. split; [by right|exact Hc]. }
  exists e. split; [by left|]. split.
  { destruct (decide (cleanToken (Usp.MarkText e) = sldToken)); [done|contradiction]. }
  repeat match type of H with
         | context [if ?b then _ else _] => destruct b
         end; inversion H; reflexivity.
Qed.

End TrademarkExactOnly.

(** A non-zero resolved score is either the heuristic result itself or
    comes from an exact match of a checked lookup whose cleaned mark is the
    cleaned second-level label. *)
Lemma resolveTrademark_nonzero (popular : gset string) (decider : option FancifulDecider)
    (profile : DomainProfile) (hasLookup : bool) (lookup : Usp.LookupResult)
    (fallback : TrademarkResult) :
  let resolved := fst (resolveTrademark popular decider profile hasLookup lookup fallback) in
  tmScore resolved <> 0 ->
  (resolved = fallback /\ 0 < tmScore fallback) \/
  (hasLookup = true /\ Usp.Checked lookup = true /\
   exists e, e ∈ Usp.ExactMatches lookup /\
             tmMatched resolved = Usp.MarkText e /\
             cleanToken (Usp.MarkText e) = secondLevelToken profile /\
             sanitizeLabel (Usp.MarkText e) = sanitizeLabel (extractSLD profile)).
Proof.
  intros resolved Hnz. subst resolved. unfold resolveTrademark in Hnz |- *.
  destruct ((0 <? tmScore fallback) && negb (String.eqb (tmMatched fallback) "")) eqn:Efb.
  { left. apply andb_true_iff in Efb as [Hpos _]. apply Z.ltb_lt in Hpos.
    split; [reflexivity|exact Hpos]. }
  right.
  destruct hasLookup; cbn [andb] in Hnz |- *; [|contradiction Hnz; reflexivity].
  destruct (Usp.Checked lookup); [|contradiction Hnz; reflexivity].
  destruct (scanExact popular decider (secondLevelToken profile) [] (Usp.ExactMatches lookup))
    as [cm [r|]] eqn:Hscan; [|contradiction Hnz; reflexivity].
  destruct (scanExact_Some popular decider _ _ _ _ _ Hscan) as (e & He & Hclean & Hm).
  split; [reflexivity|]. split; [reflexivity|].
  exists e. cbn [fst]. split; [exact He|]. split; [exact Hm|]. split; [exact Hclean|].
  rewrite <- (secondLevelLabel_extractSLD profile).
  apply cleanToken_eq_sanitizeLabel_eq. exact Hclean.
Qed.

(** C1. When the sanitised second-level label of a profile is not a key of
    the trademark index, the heuristic scorer returns score 0 with type
    "none" and no matched mark: labels that only resemble or contain an
    indexed mark score 0.  The resolution against a USPTO lookup yields a
    non-zero score only by keeping a non-zero heuristic result, or for a
    checked lookup holding an exact match whose cleaned mark equals the
    cleaned second-level label, hence whose sanitised mark equals the
    sanitised label. *)
Theorem C1_trademark_exact_only
    (popular : gset string) (isCommonWord : string -> bool)
    (idx : trademarkIndex) (profile : DomainProfile) :
  let heuristic := Score popular isCommonWord (Some idx) profile in
  (sanitizeLabel (extractSLD profile) ∉ dom (exact idx) ->
   tmScore heuristic = 0 /\ tmType heuristic = "none" /\ tmMatched heuristic = "") /\
  (forall (decider : option FancifulDecider) (hasLookup : bool) (lookup : Usp.LookupResult),
     let resolved := fst (resolveTrademark popular decider profile hasLookup lookup heuristic) in
     tmScore resolved <> 0 ->
     (resolved = heuristic /\ sanitizeLabel (extractSLD profile) ∈ dom (exact idx)) \/
     (hasLookup = true /\ Usp.Checked lookup = true /\
      exists e, e ∈ Usp.ExactMatches lookup /\
                tmMatched resolved = Usp.MarkText e /\
                cleanToken (Usp.MarkText e) = secondLevelToken profile /\
                sanitizeLabel (Usp.MarkText e) = sanitizeLabel (extractSLD profile))).
Proof.
  intros heuristic. split.
  - intros Habsent. apply not_elem_of_dom in Habsent. subst heuristic.
    rewrite (Score_absent popular isCommonWord idx profile Habsent).
    split; [reflexivity|]. split; reflexivity.
  - intros decider hasLookup lookup resolved Hnz.
    destruct (resolveTrademark_nonzero popular decider profile hasLookup lookup heuristic Hnz)
      as [[Heq Hpos]|Hexact]; [left|right; exact Hexact].
    split; [exact Heq|].
    destruct (decide (sanitizeLabel (extractSLD profile) ∈ dom (exact idx))) as [Hin|Hout];
      [exact Hin|].
    apply not_elem_of_dom in Hout. subst heuristic.
    rewrite (Score_absent popular isCommonWord idx profile Hout) in Hpos.
    cbn in Hpos. lia.
Qed.

Lemma C1_witness :
  tmScore (Score defaultPopularTokens noDictionary (Some testIndex)
             (NormalizeDomain "googl.store")) = 0.
Proof.
  destruct (C1_trademark_exact_only defaultPopularTokens noDictionary testIndex
              (NormalizeDomain "googl.store")) as [Habsent _].
  destruct Habsent as [Hscore _]; [|exact Hscore].
  apply not_elem_of_dom. vm_compute. reflexivity.
Defined.

(** In terms of the marks the index is built from: when no mark sanitises
    to the sanitised second-level label, the score is 0. *)
Lemma Score_no_such_mark (popular : gset string) (isCommonWord : string -> bool)
    (marks : list Mark) (seedEntries : list string) (profile : DomainProfile) :
  (forall m, m ∈ marks ->
             sanitizeLabel (MarkNoSpaces m) <> sanitizeLabel (extractSLD profile)) ->
  Score popular isCommonWord (NewTrademarkScorer marks seedEntries) profile = noTrademark.
Proof.
  intros Hmarks. unfold NewTrademarkScorer. apply Score_absent.
  cbn [buildTrademarkIndex exact]. apply buildExactMap_absent. exact Hmarks.
Qed.

(** Variants, compounds and country-code hosts of indexed marks score 0. *)
Example Score_variants_ignored :
  map (fun d => Score defaultPopularTokens noDictionary (Some testIndex) (NormalizeDomain d))
    ["googl.store"; "amazonmarket.shop"; "amazon.co.uk"; "my-google.store"]
  = [noTrademark; noTrademark; noTrademark; noTrademark].
Proof. vm_compute. reflexivity. Qed.

(** ** The label the trademark scorer looks up *)

Lemma Split_no_separator (p : string) (sep : ascii) :
  IndexByte p sep = None -> Split p sep = [p].
Proof.
  induction p as [|c p IH]; [reflexivity|].
  cbn [IndexByte Split]. destruct (Ascii.eqb c sep); [discriminate|].
  destruct (IndexByte p sep); [discriminate|].
  intros _. rewrite IH; reflexivity.
Qed.

Lemma Split_append_separator (p s : string) (sep : ascii) :
  IndexByte p sep = None ->
  Split (p ++ String sep s) sep = p :: Split s sep.
Proof.
  induction p as [|c p IH].
  - intros _. change ("" ++ String sep s) with (String sep s).
    cbn [Split]. rewrite Ascii.eqb_refl. reflexivity.
  - cbn [IndexByte]. destruct (Ascii.eqb c sep) eqn:E; [discriminate|].
    destruct (IndexByte p sep) eqn:Ep; [discriminate|]. intros _.
    change (String c p ++ String sep s) with (String c (p ++ String sep s)).
    cbn [Split]. rewrite E, IH; reflexivity.
Qed.

(** Splitting the dotted form of a list of labels gives the labels back. *)
Lemma Split_Join (labels : list string) (sep : ascii) :
  labels <> [] ->
  Forall (fun l => IndexByte l sep = None) labels ->
  Split (Join labels sep) sep = labels.
Proof.
  induction labels as [|p rest IH]; [congruence|].
  intros _ Hall. apply Forall_cons in Hall as [Hp Hrest].
  destruct rest as [|q rest].
  - cbn [Join]. apply Split_no_separator, Hp.
  - change (Join (p :: q :: rest) sep) with (p ++ String sep (Join (q :: rest) sep)).
    rewrite Split_append_separator by exact Hp.
    rewrite IH; [reflexivity|discriminate|exact Hrest].
Qed.

(** The scorer's label of a host with at least two labels is the
    second-from-last one, whatever the last label is. *)
Lemma extractSLD_second_from_last (labels : list string) (profile : DomainProfile) :
  Forall (fun l => IndexByte l "." = None) labels ->
  (2 <= length labels)%nat ->
  ToLower (TrimSpace (Host profile)) = Join labels "." ->
  extractSLD profile = at_index labels (length labels - 2).
Proof.
  intros Hall Hlen Hhost. unfold extractSLD. rewrite Hhost.
  assert (Hne : labels <> []) by (destruct labels; [cbn in Hlen; lia|discriminate]).
  rewrite (Split_Join labels "." Hne Hall).
  case_decide as E.
  - exfalso. destruct labels as [|p [|q rest]]; cbn in Hlen; try lia.
    change (Join (p :: q :: rest) ".") with (p ++ String "." (Join (q :: rest) ".")) in E.
    destruct p; discriminate E.
  - destruct (length labels <? 2)%nat eqn:L; [apply Nat.ltb_lt in L; lia|reflexivity].
Qed.

(** C3 (as amended). The label the trademark scorer looks up is the
    second-from-last label of the host, also when the last label is a
    two-letter country code and three labels are present: for a host made
    of at least two dot-free labels, [extractSLD] is the second-from-last
    label, and the scorer reports no match when the sanitised form of that
    label is not a key of the index. *)
Theorem C3_scorer_label_is_second_from_last
    (popular : gset string) (isCommonWord : string -> bool) (idx : trademarkIndex)
    (labels : list string) (profile : DomainProfile)
    (Hlabels : Forall (fun l => IndexByte l "." = None) labels)
    (Hlen : (2 <= length labels)%nat)
    (Hhost : ToLower (TrimSpace (Host profile)) = Join labels ".") :
  extractSLD profile = at_index labels (length labels - 2) /\
  (sanitizeLabel (at_index labels (length labels - 2)) ∉ dom (exact idx) ->
   Score popular isCommonWord (Some idx) profile = noTrademark).
Proof.
  pose proof (extractSLD_second_from_last labels profile Hlabels Hlen Hhost) as E.
  split; [exact E|].
  intros Habsent. apply Score_absent. rewrite E. apply not_elem_of_dom, Habsent.
Qed.

Lemma C3_witness :
  extractSLD (NormalizeDomain "example.co.uk") = "co" /\
  Score defaultPopularTokens noDictionary (Some exampleIndex)
    (NormalizeDomain "example.co.uk") = noTrademark.
Proof.
  destruct (C3_scorer_label_is_second_from_last defaultPopularTokens noDictionary
              exampleIndex ["example"; "co"; "uk"] (NormalizeDomain "example.co.uk"))
    as [E S].
  - repeat constructor.
  - cbn. lia.
  - vm_compute. reflexivity.
  - split; [exact E|]. apply S. apply not_elem_of_dom. vm_compute. reflexivity.
Defined.

(** The claim fails on its own example: the mark [example] is indexed and
    the normaliser's core label of [example.co.uk] is [example], yet the
    scorer looks up [co] and finds nothing. *)
Lemma C3_counterexample :
  let profile := NormalizeDomain "example.co.uk" in
  is_Some (exact exampleIndex !! "example") /\
  Core profile = "example" /\
  extractSLD profile = "co" /\
  Score defaultPopularTokens noDictionary (Some exampleIndex) profile = noTrademark.
Proof. vm_compute. repeat split. eexists. reflexivity. Qed.

(** ** Fanciful marks that are also popular tokens *)

(** The baseline survives every replacement of the popular token set. *)
Lemma SetPopularTokens_keeps_baseline (tokens : gset string) (t : string) :
  t ∈ defaultPopularTokens -> t ∈ SetPopularTokens tokens.
Proof.
  intros Ht. unfold SetPopularTokens.
  apply (set_fold_ind_L (fun acc _ => t ∈ acc)); [exact Ht|].
  intros x X acc _ Hacc. cbn zeta. case_decide; [exact Hacc|].
  apply elem_of_union. right. exact Hacc.
Qed.

(** What [Score] returns on an exact match with a mark classified
    fanciful: the dictionary and the popular token set are consulted
    before score 5 is given. *)
Lemma Score_fanciful (popular : gset string) (isCommonWord : string -> bool)
    (idx : trademarkIndex) (profile : DomainProfile) (entry : Mark) :
  let sld := sanitizeLabel (extractSLD profile) in
  sld <> "" ->
  exact idx !! sld = Some entry ->
  classify popular idx entry = "fanciful" ->
  Score popular isCommonWord (Some idx) profile =
    if isCommonWord sld then
      {| tmScore := 2; tmType := "generic"; tmMatched := MarkText entry; tmConfidence := 0.6 |}
    else if IsPopularToken popular sld then
      {| tmScore := 3; tmType := "popular"; tmMatched := MarkText entry; tmConfidence := 0.9 |}
    else
      {| tmScore := 5; tmType := "fanciful"; tmMatched := MarkText entry; tmConfidence := 1.0 |}.
Proof.
  intros sld Hne Hentry Hclass. unfold Score, lookupExact. fold sld.
  case_decide; [contradiction|]. rewrite Hentry, Hclass.
  destruct (decide ("fanciful" = "fanciful")); [|contradiction].
  reflexivity.
Qed.

(** C2 (the code at the failing input). With GOOGLE indexed with its
    fanciful flag set and google seed-listed, the mark is classified
    fanciful, yet for every popular token set that can be installed and
    every dictionary predicate the scorer gives https://google.store score 3
    with type "popular" (score 2 with type "generic" when google is a
    dictionary word), never score 5 with type "fanciful"; without a vice hit
    the overall recommendation is then REVIEW (ALLOW_WITH_CAUTION), not
    BLOCK. *)
Theorem C2_google_store_scored_as_popular
    (tokens : gset string) (isCommonWord : string -> bool) :
  let popular := SetPopularTokens tokens in
  let profile := NormalizeDomain "https://google.store" in
  let r := Score popular isCommonWord (Some testIndex) profile in
  exact testIndex !! "google" = Some (testMark "1" "GOOGLE" "google" true) /\
  classify popular testIndex (testMark "1" "GOOGLE" "google" true) = "fanciful" /\
  tmScore r = (if isCommonWord "google" then 2 else 3) /\
  tmType r = (if isCommonWord "google" then "generic" else "popular") /\
  tmMatched r = "GOOGLE" /\
  Recommendation (CombineRecommendation r (ViceScore None profile)) =
    (if isCommonWord "google" then "ALLOW_WITH_CAUTION" else "REVIEW").
Proof.
  intros popular profile r.
  assert (Hentry : exact testIndex !! "google" = Some (testMark "1" "GOOGLE" "google" true))
    by (vm_compute; reflexivity).
  assert (Hclass : classify popular testIndex (testMark "1" "GOOGLE" "google" true) = "fanciful").
  { unfold classify.
    replace (bool_decide (sanitizeLabel (MarkNoSpaces (testMark "1" "GOOGLE" "google" true))
                            ∈ seeds testIndex)) with true by (vm_compute; reflexivity).
    reflexivity. }
  assert (Hpop : IsPopularToken popular "google" = true).
  { unfold IsPopularToken.
    replace (sanitizeLabel "google") with "google" by (vm_compute; reflexivity).
    destruct (decide ("google" = "")); [discriminate|].
    apply bool_decide_eq_true. apply SetPopularTokens_keeps_baseline.
    vm_compute. reflexivity. }
  assert (Hsld : sanitizeLabel (extractSLD profile) = "google") by (vm_compute; reflexivity).
  assert (Hr : r = if isCommonWord "google" then
                     {| tmScore := 2; tmType := "generic"; tmMatched := "GOOGLE"; tmConfidence := 0.6 |}
                   else
                     {| tmScore := 3; tmType := "popular"; tmMatched := "GOOGLE"; tmConfidence := 0.9 |}).
  { subst r. rewrite (Score_fanciful popular isCommonWord testIndex profile
                        (testMark "1" "GOOGLE" "google" true)).
    - rewrite Hsld, Hpop. reflexivity.
    - rewrite Hsld. discriminate.
    - rewrite Hsld. exact Hentry.
    - exact Hclass. }
  split; [exact Hentry|]. split; [exact Hclass|].
  rewrite Hr. destruct (isCommonWord "google"); repeat split; reflexivity.
Qed.

(** ** Vice scoring *)

Lemma sforall_sfilter (p q : ascii -> bool) (s : string) :
  (forall c, p c = true -> q c = true) -> sforall q (sfilter p s) = true.
Proof.
  intros Hpq. induction s as [|c s IH]; [reflexivity|].
  cbn [sfilter]. destruct (p c) eqn:E; [|exact IH].
  cbn [sforall]. rewrite (Hpq c E), IH. reflexivity.
Qed.

(** The text the terms are matched against is made of [a-z0-9] only. *)
Lemma normalizeTerm_alnum (term : string) : sforall is_alnum (normalizeTerm term) = true.
Proof.
  unfold normalizeTerm, stripDiacritics. apply sforall_sfilter.
  intros c. unfold is_alnum.
  destruct (Ascii.eqb c " " || Ascii.eqb c "-" || Ascii.eqb c "_"); [discriminate|].
  destruct (is_lower c); [reflexivity|]. intros ->. reflexivity.
Qed.

Lemma prefix_true_iff (t s : string) :
  String.prefix t s = true <-> exists post, s = t ++ post.
Proof.
  revert s. induction t as [|c t IH]; intros s.
  - split; [intros _; exists s; reflexivity|intros _; destruct s; reflexivity].
  - destruct s as [|d s].
    + cbn. split; [discriminate|]. intros [post H]. discriminate H.
    + cbn [String.prefix]. destruct (ascii_dec c d) as [->|Hne].
      * rewrite IH. split; intros [post H]; exists post.
        -- rewrite H. reflexivity.
        -- change (String d t ++ post) with (String d (t ++ post)) in H.
           inversion H. reflexivity.
      * split; [discriminate|]. intros [post H].
        change (String c t ++ post) with (String c (t ++ post)) in H.
        inversion H. congruence.
Qed.

(** [Contains] is the substring relation. *)
Lemma Contains_true_iff (s t : string) :
  Contains s t = true <-> exists pre post, s = pre ++ t ++ post.
Proof.
  induction s as [|c s IH].
  - cbn [Contains]. rewrite orb_false_r, prefix_true_iff. split.
    + intros [post H]. exists "", post. exact H.
    + intros (pre & post & H). destruct pre; [exists post; exact H|discriminate H].
  - cbn [Contains]. rewrite orb_true_iff, prefix_true_iff, IH. split.
    + intros [[post H]|(pre & post & H)].
      * exists "", post. exact H.
      * exists (String c pre), post. rewrite H. reflexivity.
    + intros (pre & post & H). destruct pre as [|d pre].
      * left. exists post. exact H.
      * right. change (String d pre ++ t ++ post) with (String d (pre ++ t ++ post)) in H.
        inversion H. exists pre, post. reflexivity.
Qed.

Lemma String_le_empty (x : string) : String.le "" x.
Proof. destruct x; exact I. Qed.

(** The loop of [dedupe] on a sorted slice whose items are not below
    [prev]: the result is strictly increasing, above [prev], and holds the
    items other than [prev]. *)
Lemma dedupeFrom_sorted (items : list string) :
  forall prev : string,
    StronglySorted String.le items ->
    Forall (String.le prev) items ->
    StronglySorted (strict String.le) (dedupeFrom prev items) /\
    Forall (strict String.le prev) (dedupeFrom prev items) /\
    (forall t, t ∈ dedupeFrom prev items <-> t ∈ items /\ t <> prev).
Proof.
  induction items as [|x rest IH]; intros prev Hsorted Hprev.
  { cbn [dedupeFrom]. split; [constructor|]. split; [constructor|].
    intros t. split; [intros Ht; inversion Ht|intros [Ht _]; inversion Ht]. }
  apply StronglySorted_inv in Hsorted as [Hrest Hx].
  apply Forall_cons in Hprev as [Hpx Hprest].
  cbn [dedupeFrom]. case_decide as E.
  - subst x. destruct (IH prev Hrest Hprest) as (S1 & S2 & S3).
    split; [exact S1|]. split; [exact S2|].
    intros t. rewrite S3, elem_of_cons. split; [intros [? ?]; tauto|].
    intros [[->|?] ?]; [contradiction|tauto].
  - destruct (IH x Hrest Hx) as (S1 & S2 & S3).
    assert (Hlt : strict String.le prev x).
    { split; [exact Hpx|]. intros Hxp. apply E. apply (anti_symm String.le); assumption. }
    split; [apply SSorted_cons; assumption|]. split.
    + apply Forall_cons. split; [exact Hlt|].
      eapply Forall_impl; [exact S2|]. intros t Ht.
      eapply strict_trans_l; [exact Hlt|]. apply strict_include. exact Ht.
    + intros t. rewrite !elem_of_cons, S3. split.
      * intros [->|[Ht Hne]]; [split; [by left|exact E]|].
        split; [by right|]. intros ->.
        rewrite Forall_forall in Hx. apply E.
        apply (anti_symm String.le); [apply Hx, Ht|exact Hpx].
      * intros [[->|Ht] Hne]; [by left|].
        destruct (decide (t = x)) as [->|Hd]; [by left|right; split; assumption].
Qed.

Section ViceScoring.

Variable v : ViceScorer.
Variables domain brand : string.

Lemma hitsAt_matches (severity : Z) (term : string) :
  term ∈ hitsAt v domain brand severity <-> matchesAt v domain brand severity term.
Proof.
  unfold hitsAt, matchesAt. rewrite list_elem_of_filter.
  rewrite Is_true_true, orb_true_iff. tauto.
Qed.

Lemma hitsAt_none (severity : Z) :
  (forall term, ~ matchesAt v domain brand severity term) -> hitsAt v domain brand severity = [].
Proof.
  intros H. destruct (hitsAt v domain brand severity) as [|t l] eqn:E; [reflexivity|].
  exfalso. apply (H t), hitsAt_matches. rewrite E. left.
Qed.

(** The categories of a tier: strictly increasing, hence sorted and free
    of duplicates, and exactly the terms that match. *)
Lemma dedupe_hits (severity : Z) :
  StronglySorted (strict String.le) (dedupe (hitsAt v domain brand severity)) /\
  (forall t, t ∈ dedupe (hitsAt v domain brand severity) <-> matchesAt v domain brand severity t).
Proof.
  unfold dedupe.
  destruct (hitsAt v domain brand severity) as [|h hits] eqn:E.
  { split; [constructor|]. intros t. rewrite <- hitsAt_matches, E. reflexivity. }
  rewrite <- E. clear h hits E. unfold sortStrings.
  destruct (dedupeFrom_sorted (merge_sort String.le (hitsAt v domain brand severity)) "")
    as (S1 & _ & S3).
  - apply StronglySorted_merge_sort; apply _.
  - apply Forall_forall. intros x _. apply String_le_empty.
  - split; [exact S1|]. intros t. rewrite S3, merge_sort_Permutation, hitsAt_matches.
    unfold matchesAt. tauto.
Qed.

(** The outer loop returns the highest tier not above [n] with a hit. *)
Lemma scoreFrom_hit (n : nat) (severity : Z) :
  1 <= severity <= Z.of_nat n ->
  (exists t, matchesAt v domain brand severity t) ->
  (forall s, severity < s <= Z.of_nat n -> forall t, ~ matchesAt v domain brand s t) ->
  scoreFrom v domain brand n =
    {| viceScore := severity;
       Categories := dedupe (hitsAt v domain brand severity);
       viceConfidence := confidenceForSeverity severity |}.
Proof.
  induction n as [|n IH]; intros Hrange [t Ht] Habove; [lia|].
  cbn [scoreFrom].
  destruct (decide (severity = Z.of_nat (S n))) as [->|Hne].
  - apply hitsAt_matches in Ht.
    destruct (hitsAt v domain brand (Z.of_nat (S n))); [inversion Ht|reflexivity].
  - rewrite (hitsAt_none (Z.of_nat (S n))) by (apply Habove; lia).
    cbn [length Nat.ltb Nat.leb]. apply IH; [lia|by exists t|].
    intros s Hs. apply Habove. lia.
Qed.

Lemma scoreFrom_clean (n : nat) :
  (forall s, 1 <= s <= Z.of_nat n -> forall t, ~ matchesAt v domain brand s t) ->
  scoreFrom v domain brand n =
    {| viceScore := 0; Categories := []; viceConfidence := confidenceForSeverity 0 |}.
Proof.
  induction n as [|n IH]; intros Hnone; [reflexivity|].
  cbn [scoreFrom]. rewrite (hitsAt_none (Z.of_nat (S n))) by (apply Hnone; lia).
  cbn [length Nat.ltb Nat.leb]. apply IH. intros s Hs. apply Hnone. lia.
Qed.

End ViceScoring.

Lemma confidenceForSeverity_table (severity : Z) :
  0 <= severity <= 5 -> confidenceForSeverity severity = tierConfidence severity.
Proof.
  intros H.
  assert (C : severity = 0 \/ severity = 1 \/ severity = 2 \/ severity = 3 \/
              severity = 4 \/ severity = 5) by lia.
  destruct C as [->|[->|[->|[->|[->| ->]]]]]; reflexivity.
Qed.

(** C6. The vice scorer reduces the host and the brand token to [a-z0-9]
    and matches terms as substrings of either text.  When some tier of 1..5
    has a matching term, the score is the highest such tier, the categories
    are the matching terms of that tier in increasing order without
    duplicates, and the confidence is the tabulated one (0.95 for 5 and 4,
    0.80 for 3, 0.70 for 2, 0.60 for 1); when no tier has one, the score is
    0, there is no category and the confidence is 0.99. *)
Theorem C6_vice_highest_tier (v : ViceScorer) (profile : DomainProfile) :
  let domain := normalizeTerm (Host profile) in
  let brand := normalizeTerm (BrandToken profile) in
  let r := ViceScore (Some v) profile in
  (sforall is_alnum domain = true /\ sforall is_alnum brand = true) /\
  (forall severity term,
     matchesAt v domain brand severity term <->
     term ∈ default [] (terms v !! severity) /\ term <> "" /\
     ((exists pre post, domain = pre ++ term ++ post) \/
      (exists pre post, brand = pre ++ term ++ post))) /\
  (forall severity,
     1 <= severity <= 5 ->
     (exists t, matchesAt v domain brand severity t) ->
     (forall s, severity < s <= 5 -> forall t, ~ matchesAt v domain brand s t) ->
     viceScore r = severity /\
     StronglySorted (strict String.le) (Categories r) /\
     (forall t, t ∈ Categories r <-> matchesAt v domain brand severity t) /\
     viceConfidence r = tierConfidence severity) /\
  ((forall s, 1 <= s <= 5 -> forall t, ~ matchesAt v domain brand s t) ->
   viceScore r = 0 /\ Categories r = [] /\ viceConfidence r = tierConfidence 0).
Proof.
  intros domain brand r. split; [|split; [|split]].
  - split; apply normalizeTerm_alnum.
  - intros severity term. unfold matchesAt. rewrite !Contains_true_iff. reflexivity.
  - intros severity Hrange Hhit Habove. subst r. unfold ViceScore. fold domain brand.
    rewrite (scoreFrom_hit v domain brand 5 severity); [|lia|exact Hhit|exact Habove].
    cbn [viceScore Categories viceConfidence].
    destruct (dedupe_hits v domain brand severity) as [S1 S2].
    split; [reflexivity|]. split; [exact S1|]. split; [exact S2|].
    apply confidenceForSeverity_table. lia.
  - intros Hnone. subst r. unfold ViceScore. fold domain brand.
    rewrite (scoreFrom_clean v domain brand 5) by exact Hnone.
    split; [reflexivity|]. split; reflexivity.
Qed.

Lemma C6_witness :
  viceScore (ViceScore (Some testVice) (NormalizeDomain "play-casino.io")) = 3 /\
  Categories (ViceScore (Some testVice) (NormalizeDomain "play-casino.io")) = ["casino"].
Proof.
  destruct (C6_vice_highest_tier testVice (NormalizeDomain "play-casino.io"))
    as (_ & _ & Hhit & _).
  destruct (Hhit 3) as (Hscore & _ & _ & _).
  - lia.
  - exists "casino". split; [|split].
    + replace (default [] (terms testVice !! 3)) with ["casino"; "bet"; "casino"]
        by (vm_compute; reflexivity).
      left.
    + discriminate.
    + left. vm_compute. reflexivity.
  - intros s Hs t (Hin & _ & Hc).
    assert (C : s = 4 \/ s = 5) by lia. destruct C as [-> | ->].
    + replace (default [] (terms testVice !! 4)) with (@nil string) in Hin
        by (vm_compute; reflexivity).
      inversion Hin.
    + replace (default [] (terms testVice !! 5)) with ["terror"] in Hin
        by (vm_compute; reflexivity).
      apply list_elem_of_singleton in Hin. subst t.
      vm_compute in Hc. destruct Hc; discriminate.
  - split; [exact Hscore|]. vm_compute. reflexivity.
Defined.

(** The scenario of the repository's vice test. *)
Example ViceScore_scenarios :
  map (fun d => viceScore (ViceScore (Some testVice) (NormalizeDomain d)))
    ["terror-camp.com"; "play-casino.io"; "speed-dating.net"; "flowers.store"]
  = [5; 3; 1; 0].
Proof. vm_compute. reflexivity. Qed.

(** ** Replay on subscribe *)

Local Open Scope list_scope.

Lemma runOps_app (ops1 ops2 : list notifierOp) (n : EvaluationNotifier) :
  runOps (ops1 ++ ops2) n = runOps ops2 (runOps ops1 n).
Proof. apply fold_left_app. Qed.

Lemma withTimestamp_type (event : EvaluationEvent) (now : Z) :
  evType (withTimestamp event now) = evType event.
Proof. reflexivity. Qed.

(** The retained status is always a started, progress or evaluation event
    that was broadcast, without its evaluation payload. *)
Lemma lastStatus_retained (ops : list notifierOp) :
  forall n : EvaluationNotifier,
    (forall st, lastStatus n = Some st ->
                isStatusType (evType st) = true /\ evEvaluation st = None) ->
    forall st, lastStatus (runOps ops n) = Some st ->
               isStatusType (evType st) = true /\ evEvaluation st = None.
Proof.
  induction ops as [|op ops IH]; intros n Hn; [exact Hn|].
  cbn [runOps fold_left]. apply IH.
  destruct op as [ok|client|event now ok]; cbn [applyOp].
  - exact Hn.
  - destruct client; exact Hn.
  - cbn [Broadcast lastStatus]. rewrite withTimestamp_type.
    destruct (isStatusType (evType event)) eqn:E; [|exact Hn].
    intros st [= <-]. split; [exact E|reflexivity].
Qed.

Lemma lastStatus_unchanged (ops : list notifierOp) :
  forall n : EvaluationNotifier,
    Forall notStatus ops -> lastStatus (runOps ops n) = lastStatus n.
Proof.
  induction ops as [|op ops IH]; intros n Hops; [reflexivity|].
  apply Forall_cons in Hops as [Hop Hops].
  cbn [runOps fold_left]. fold (runOps ops (applyOp n op)). rewrite (IH _ Hops).
  destruct op as [ok|client|event now ok]; cbn [applyOp notStatus] in *.
  - reflexivity.
  - destruct client; reflexivity.
  - cbn [Broadcast lastStatus]. rewrite withTimestamp_type, Hop. reflexivity.
Qed.

(** After a client has been registered, what has been written to its
    connection is the replay followed by events of later broadcasts, in the
    order of the broadcasts. *)
Lemma sent_after_register (c : nat) (replay : list EvaluationEvent) (ops : list notifierOp) :
  forall (n : EvaluationNotifier) (earlier : list EvaluationEvent),
    (c < nextClient n)%nat ->
    sent n !! c = Some (replay ++ earlier) ->
    exists later,
      sent (runOps ops n) !! c = Some (replay ++ earlier ++ later) /\
      sublist later (broadcastsOf ops).
Proof.
  induction ops as [|op ops IH]; intros n earlier Hlt Hsent.
  { exists []. rewrite app_nil_r. split; [exact Hsent|constructor]. }
  cbn [runOps fold_left]. fold (runOps ops (applyOp n op)).
  destruct op as [ok|client|event now ok]; cbn [applyOp].
  - destruct (IH (snd (Register n ok)) earlier) as (later & H1 & H2).
    + cbn. lia.
    + cbn [Register snd sent]. rewrite lookup_insert_ne by lia. exact Hsent.
    + exists later. split; [exact H1|exact H2].
  - destruct (IH (Unregister n client) earlier) as (later & H1 & H2).
    + destruct client; exact Hlt.
    + destruct client; exact Hsent.
    + exists later. split; [exact H1|exact H2].
  - cbn [broadcastsOf omap]. fold (broadcastsOf ops).
    destruct (decide (c ∈ clients n ∧ ok c = true)) as [[Hin Hok]|Hno].
    + destruct (IH (Broadcast n event now ok) (earlier ++ [withTimestamp event now]))
        as (later & H1 & H2).
      * exact Hlt.
      * cbn [Broadcast sent]. rewrite map_lookup_imap, Hsent. cbn.
        rewrite decide_True by exact Hin. rewrite Hok, <- app_assoc. reflexivity.
      * exists (withTimestamp event now :: later). split.
        -- rewrite H1, <- !app_assoc. reflexivity.
        -- apply sublist_skip, H2.
    + destruct (IH (Broadcast n event now ok) earlier) as (later & H1 & H2).
      * exact Hlt.
      * cbn [Broadcast sent]. rewrite map_lookup_imap, Hsent. cbn.
        destruct (decide (c ∈ clients n)) as [Hin|]; [|reflexivity].
        destruct (ok c) eqn:Hok; [|reflexivity]. exfalso. apply Hno. split; [exact Hin|reflexivity].
      * exists later. split; [exact H1|]. apply sublist_cons, H2.
Qed.

(** C10. A subscriber registering after the calls [before] is sent, on
    connect, at most one event: the retained status, which is the last
    started, progress or evaluation event broadcast so far with its
    evaluation payload removed (nothing when no such event was broadcast);
    whatever the later calls [after] are, everything else written to its
    connection is an event broadcast after the registration, in broadcast
    order. *)
Theorem C10_replay_on_subscribe (before after : list notifierOp) (writeOk : bool) :
  let n := runOps before NewEvaluationNotifier in
  let client := fst (Register n writeOk) in
  let registered := snd (Register n writeOk) in
  let replay := replayOf n writeOk in
  sent registered !! client = Some replay /\
  (length replay <= 1)%nat /\
  (forall st, st ∈ replay ->
     lastStatus n = Some st /\ isStatusType (evType st) = true /\ evEvaluation st = None) /\
  (forall pre event now ok post,
     before = pre ++ OpBroadcast event now ok :: post ->
     isStatusType (evType event) = true ->
     Forall notStatus post ->
     lastStatus n = Some (withoutEvaluation (withTimestamp event now))) /\
  (Forall notStatus before -> replay = []) /\
  exists later,
    sent (runOps after registered) !! client = Some (replay ++ later) /\
    sublist later (broadcastsOf after).
Proof.
  intros n client registered replay.
  assert (Hretained : forall st, lastStatus n = Some st ->
                                 isStatusType (evType st) = true /\ evEvaluation st = None).
  { apply (lastStatus_retained before NewEvaluationNotifier). intros st H. discriminate H. }
  split; [|split; [|split; [|split; [|split]]]].
  - subst client registered replay. cbn [Register fst snd sent].
    apply lookup_insert_eq.
  - subst replay. unfold replayOf. destruct (lastStatus n); [destruct writeOk|]; cbn; lia.
  - intros st Hst. subst replay. unfold replayOf in Hst.
    destruct (lastStatus n) as [status|] eqn:E; [|inversion Hst].
    destruct writeOk; [|inversion Hst].
    apply list_elem_of_singleton in Hst. subst st.
    split; [reflexivity|]. apply Hretained. reflexivity.
  - intros pre event now ok post -> Hstatus Hpost. subst n.
    rewrite runOps_app. cbn [runOps fold_left].
    fold (runOps post (applyOp (fold_left applyOp pre NewEvaluationNotifier)
                         (OpBroadcast event now ok))).
    rewrite (lastStatus_unchanged post _ Hpost).
    cbn [applyOp Broadcast lastStatus]. rewrite withTimestamp_type, Hstatus. reflexivity.
  - intros Hbefore. subst replay n. unfold replayOf.
    rewrite (lastStatus_unchanged before _ Hbefore). reflexivity.
  - destruct (sent_after_register client replay after registered [])
      as (later & H1 & H2).
    + subst client registered. cbn. lia.
    + subst client registered replay. cbn [Register fst snd sent].
      rewrite app_nil_r. apply lookup_insert_eq.
    + exists later. split; [exact H1|exact H2].
Qed.

Lemma C10_witness :
  lastStatus (runOps [OpBroadcast testEvaluationEvent 5 allWritesOk;
                      OpBroadcast testCompleteEvent 9 allWritesOk]
                NewEvaluationNotifier)
  = Some (withoutEvaluation (withTimestamp testEvaluationEvent 5)).
Proof.
  destruct (C10_replay_on_subscribe
              [OpBroadcast testEvaluationEvent 5 allWritesOk;
               OpBroadcast testCompleteEvent 9 allWritesOk] [] true)
    as (_ & _ & _ & Hlast & _).
  apply (Hlast [] testEvaluationEvent 5 allWritesOk
           [OpBroadcast testCompleteEvent 9 allWritesOk]).
  - reflexivity.
  - reflexivity.
  - repeat constructor.
Defined.

(** A subscriber joining after an evaluation event and the final event of
    a job is sent the evaluation event without its payload, and then the
    events of the next broadcasts only. *)
Example late_subscriber :
  let n := runOps [OpBroadcast testEvaluationEvent 5 allWritesOk;
                   OpBroadcast testCompleteEvent 9 allWritesOk] NewEvaluationNotifier in
  let '(client, registered) := Register n true in
  sent (Broadcast registered testCompleteEvent 12 allWritesOk) !! client
  = Some [withoutEvaluation (withTimestamp testEvaluationEvent 5);
          withTimestamp testCompleteEvent 12].
Proof. vm_compute. reflexivity. Qed.

(** ** Start contract *)

Lemma GetCSVBatch_id (d : Database) (batchId : Z) (batch : CSVBatch) :
  GetCSVBatch d batchId = Some batch -> batchID batch = batchId.
Proof.
  unfold GetCSVBatch. intros H. apply find_some in H as [_ H]. lia.
Qed.

(** C8. For a request naming a batch (with the database answering): a
    missing batch fails with BatchNotFound, a batch without domains with
    BatchEmpty, an active job with AlreadyRunning, and each of these leaves
    the whole server state as it was; otherwise the start succeeds: a batch
    request in status running is created for the new job, a new context is
    created for the job and no context is cancelled, the job occupies the
    active-job slot, its run is spawned with that context, and the answer
    carries the job id, batch id, request id, total and start time. *)
Theorem C8_start_contract (st : State) (env : Env) (req : EvaluateRequest)
    (Hbatch : BatchID req <> 0) (Hdb : faults env = noFaults) :
  let response := fst (handleEvaluate st env (Some req)) in
  let st' := snd (handleEvaluate st env (Some req)) in
  let count := CountBatchDomains (db st) (BatchID req) in
  (GetCSVBatch (db st) (BatchID req) = None ->
   startErrorOf response = Some BatchNotFound /\ st' = st) /\
  (forall batch, GetCSVBatch (db st) (BatchID req) = Some batch -> count = 0 ->
   startErrorOf response = Some BatchEmpty /\ st' = st) /\
  (forall batch, GetCSVBatch (db st) (BatchID req) = Some batch -> count <> 0 ->
   activeJob st <> None ->
   startErrorOf response = Some AlreadyRunning /\ st' = st) /\
  (forall batch, GetCSVBatch (db st) (BatchID req) = Some batch -> count <> 0 ->
   activeJob st = None ->
   let request :=
     {| requestID := Z.of_nat (length (batch_requests (db st))) + 1;
        requestBatchID := BatchID req; requestType := "evaluate";
        Status := "running"; JobID := newUUID env; StartedAt := now env;
        FinishedAt := None |} in
   let job :=
     {| jobID := newUUID env; jobCtx := nextContext st; startedAt := now env;
        total := count; jobBatchID := BatchID req; batchName := Name batch;
        jobRequestID := requestID request |} in
   response =
     Started StatusAccepted
       {| respJobID := newUUID env; respBatchID := BatchID req;
          respRequestID := requestID request; respTotal := count;
          respStartedAt := now env |} /\
   activeJob st' = Some job /\
   batch_requests (db st') = batch_requests (db st) ++ [request] /\
   csv_batches (db st') = csv_batches (db st) /\
   domain_batches (db st') = domain_batches (db st) /\
   cancelled st' = cancelled st /\
   spawned st' =
     spawned st ++ [{| runCtx := nextContext st; runJob := job; runReq := req; runBatch := batch |}] /\
   evalNotifier st' = evalNotifier st).
Proof.
  intros response st' count. subst response st' count.
  unfold handleEvaluate. rewrite Hdb. cbn [countFails noFaults].
  destruct (BatchID req =? 0) eqn:E0; [lia|].
  destruct (GetCSVBatch (db st) (BatchID req)) as [batch|] eqn:Eb.
  2:{ split; [intros _; split; reflexivity|].
      split; [intros b H; discriminate H|].
      split; intros b H; discriminate H. }
  pose proof (GetCSVBatch_id _ _ _ Eb) as Hid. rewrite Hid.
  split; [intros H; discriminate H|].
  destruct (CountBatchDomains (db st) (BatchID req) =? 0) eqn:Ec.
  { split; [intros b _ _; split; reflexivity|].
    split; intros b _ Hc; lia. }
  split; [intros b _ Hc; lia|].
  destruct (activeJob st) as [active|] eqn:Ea.
  { split; [intros b _ _ _; split; reflexivity|]. intros b _ _ H; discriminate H. }
  split; [intros b _ _ H; contradiction H; reflexivity|].
  intros b [= <-] _ _. unfold startEvaluation. rewrite Ea, Hdb. cbn [createFails noFaults].
  cbn. rewrite Hid. repeat split.
Qed.

Lemma C8_witness :
  fst (handleEvaluate idleState testEnv (Some testRequest)) =
    Started StatusAccepted
      {| respJobID := "job-1"; respBatchID := 7; respRequestID := 1; respTotal := 2;
         respStartedAt := 100 |}.
Proof.
  destruct (C8_start_contract idleState testEnv testRequest) as (_ & _ & _ & Hok).
  - discriminate.
  - reflexivity.
  - destruct (Hok {| batchID := 7; Name := "batch"; UniqueDomains := 2; ProcessedDomains := 0 |})
      as (Hresp & _).
    + reflexivity.
    + vm_compute. discriminate.
    + reflexivity.
    + rewrite Hresp. vm_compute. reflexivity.
Defined.

(** A second start while the first job is active is refused and changes
    nothing. *)
Example second_start_refused :
  let busy := snd (handleEvaluate idleState testEnv (Some testRequest)) in
  handleEvaluate busy testEnv (Some testRequest)
  = (Failure StatusConflict "evaluation already running", busy).
Proof. vm_compute. reflexivity. Qed.

(** ** The AI step: retries and fallback *)

Lemma backoffSchedule_zero : backoffSchedule 0 = aiInitialBackoff.
Proof. reflexivity. Qed.

Lemma backoffSchedule_succ (k : nat) :
  (if aiMaxBackoff <? backoffSchedule k * 2 then aiMaxBackoff else backoffSchedule k * 2)
  = backoffSchedule (S k).
Proof.
  unfold backoffSchedule, aiMaxBackoff.
  rewrite Nat2Z.inj_succ, Z.pow_succ_r by lia.
  assert (0 < 2 ^ Z.of_nat k) by (apply Z.pow_pos_nonneg; lia).
  assert (0 < Second) by reflexivity.
  destruct (10 * Second <? Z.min (2 ^ Z.of_nat k * (2 * Second)) (10 * Second) * 2) eqn:E;
    [apply Z.ltb_lt in E|apply Z.ltb_ge in E]; lia.
Qed.

Section Retry.

Variable ctx : Context.
Variable e : Ai.Explainer.
Variable input : Ai.ExplanationInput.

(** The loop makes at most [remaining] calls, waits according to the
    schedule, never waits more often than it calls, and makes a further
    call only after an error that [shouldRetryAI] accepts. *)
Lemma retryLoop_trace (remaining : nat) :
  forall (attempt : nat) (lastErr : option Ai.error),
    let t := snd (retryLoop ctx e input remaining attempt (backoffSchedule attempt) lastErr) in
    (attempts t <= remaining)%nat /\
    backoffs t = map backoffSchedule (seq attempt (length (backoffs t))) /\
    (length (backoffs t) <= attempts t)%nat /\
    (forall i, (S i < attempts t)%nat ->
       exists err, Ai.Explain e input (attempt + i) = inr err /\
                   shouldRetryAI (Some err) = true).
Proof.
  induction remaining as [|remaining IH]; intros attempt lastErr.
  { cbn. repeat split; lia. }
  cbn [retryLoop].
  destruct (Ai.Explain e input attempt) as [decision|err] eqn:Ecall.
  { cbn. repeat split; lia. }
  destruct (cancelledAfterAttempt ctx attempt).
  { cbn. repeat split; lia. }
  destruct (shouldRetryAI (Some err)) eqn:Eretry; cbn [negb].
  2:{ cbn. repeat split; lia. }
  destruct (cancelledDuringBackoff ctx attempt).
  { cbn. repeat split; lia. }
  rewrite backoffSchedule_succ.
  specialize (IH (S attempt) (Some err)). cbn zeta in IH.
  destruct (retryLoop ctx e input remaining (S attempt) (backoffSchedule (S attempt)) (Some err))
    as [r t]. cbn [snd] in IH |- *. cbn [callMade waited attempts backoffs].
  destruct IH as (H1 & H2 & H3 & H4).
  split; [lia|]. split; [|split; [cbn [length]; lia|]].
  - cbn [length seq map]. rewrite <- H2. reflexivity.
  - intros [|i] Hi.
    + exists err. rewrite Nat.add_0_r. split; [exact Ecall|exact Eretry].
    + destruct (H4 i) as (err' & H5 & H6); [lia|].
      exists err'. rewrite <- Nat.add_succ_comm. split; [exact H5|exact H6].
Qed.

(** When every call fails, the loop ends with an error. *)
Lemma retryLoop_fails (remaining : nat) :
  (forall n, exists err, Ai.Explain e input n = inr err) ->
  forall (attempt : nat) (delay : Z) (lastErr : option Ai.error),
    (0 < remaining)%nat \/ lastErr <> None ->
    snd (fst (retryLoop ctx e input remaining attempt delay lastErr)) <> None.
Proof.
  intros Hfail. induction remaining as [|remaining IH]; intros attempt delay lastErr Hpos.
  { cbn. destruct Hpos as [Hpos|Hpos]; [lia|exact Hpos]. }
  cbn [retryLoop]. destruct (Hfail attempt) as [err ->].
  destruct (cancelledAfterAttempt ctx attempt); [cbn; discriminate|].
  destruct (negb (shouldRetryAI (Some err))); [cbn; discriminate|].
  destruct (cancelledDuringBackoff ctx attempt); [cbn; discriminate|].
  specialize (IH (S attempt)
                (if aiMaxBackoff <? delay * 2 then aiMaxBackoff else delay * 2) (Some err)).
  destruct (retryLoop ctx e input remaining (S attempt) _ (Some err)) as [r t].
  cbn [fst snd] in IH |- *. apply IH. right. discriminate.
Qed.

End Retry.

Lemma callAIWithRetry_trace (explainer : option Ai.Explainer) (ctx : Context)
    (input : Ai.ExplanationInput) :
  let t := snd (callAIWithRetry explainer ctx input) in
  (attempts t <= aiMaxRetries)%nat /\
  backoffs t = map backoffSchedule (seq 0 (length (backoffs t))) /\
  (length (backoffs t) <= attempts t)%nat /\
  (forall e i, explainer = Some e -> (S i < attempts t)%nat ->
     exists err, Ai.Explain e input i = inr err /\
                 transientText (ToLower (Ai.Error err)) = true).
Proof.
  unfold callAIWithRetry. destruct explainer as [e|].
  2:{ cbn. repeat split; try lia; discriminate. }
  destruct (Ai.Enabled e); cbn [negb].
  2:{ cbn. repeat split; lia. }
  rewrite <- backoffSchedule_zero.
  destruct (retryLoop_trace ctx e input aiMaxRetries 0 None) as (H1 & H2 & H3 & H4).
  split; [exact H1|]. split; [exact H2|]. split; [exact H3|].
  intros e' i [= <-] Hi. destruct (H4 i Hi) as (err & H5 & H6).
  exists err. split; [exact H5|exact H6].
Qed.

Lemma callAIWithRetry_fails (explainer : option Ai.Explainer) (ctx : Context)
    (input : Ai.ExplanationInput) :
  (forall e, explainer = Some e -> Ai.Enabled e = true ->
             forall n, exists err, Ai.Explain e input n = inr err) ->
  snd (fst (callAIWithRetry explainer ctx input)) <> None.
Proof.
  intros Hfail. unfold callAIWithRetry. destruct explainer as [e|]; [|cbn; discriminate].
  destruct (Ai.Enabled e) eqn:E; cbn [negb]; [|cbn; discriminate].
  apply retryLoop_fails; [exact (Hfail e eq_refl E)|left; unfold aiMaxRetries; lia].
Qed.

Lemma buildFallbackNarrative_trimmed (recommendation : string) :
  TrimSpace (buildFallbackNarrative recommendation) = buildFallbackNarrative recommendation.
Proof.
  unfold buildFallbackNarrative. repeat case_decide; vm_compute; reflexivity.
Qed.

Section Degradation.

Variable isCommonWord : string -> bool.
Variable s : Server.

(** [generateDecision] never returns an error, and when the AI call fails
    its decision is the heuristic recommendation with the fallback
    narrative. *)
Lemma generateDecision_degrades (ctx : Context) (profile : DomainProfile)
    (domain : string) (marksCount totalDomains : Z) (h : Heuristics) :
  let r := fst (generateDecision s ctx profile domain marksCount totalDomains h) in
  snd r = None /\
  (aiAlwaysFails s ->
   Ai.Narrative (fst r) = buildFallbackNarrative (Recommendation (hOverall h)) /\
   Ai.Recommendation (fst r) = ToUpper (TrimSpace (Recommendation (hOverall h))) /\
   Ai.TrademarkScore (fst r) = None /\ Ai.ViceScore (fst r) = None /\
   Ai.Confidence (fst r) = None).
Proof.
  unfold generateDecision.
  destruct (explainer s) as [e|] eqn:Ee.
  2:{ cbn. split; [reflexivity|]. intros _. repeat split. }
  destruct (Ai.Enabled e) eqn:Een; cbn [negb].
  2:{ cbn. split; [reflexivity|]. intros _. repeat split. }
  match goal with
  | |- context [callAIWithRetry (Some e) ctx ?i] =>
      pose proof (callAIWithRetry_fails (Some e) ctx i) as Hf;
      destruct (callAIWithRetry (Some e) ctx i) as [[result [err|]] t]
  end.
  - cbn. split; [reflexivity|]. intros _. repeat split.
  - cbn. split; [reflexivity|]. intros Hfail. exfalso. apply Hf; [|reflexivity].
    intros e' [= <-] _ n. apply (Hfail e Ee Een).
Qed.

End Degradation.

Lemma recommendations_cases (r : string) :
  r ∈ recommendations ->
  r = "BLOCK" \/ r = "REVIEW" \/ r = "ALLOW_WITH_CAUTION" \/ r = "ALLOW".
Proof.
  unfold recommendations. rewrite !elem_of_cons, elem_of_nil. tauto.
Qed.

Lemma CombineRecommendation_values (tr : TrademarkResult) (vice : ViceResult) :
  Recommendation (CombineRecommendation tr vice) ∈ recommendations.
Proof.
  pose proof (CombineRecommendation_matrix tr vice) as H.
  remember (Recommendation (CombineRecommendation tr vice)) as r eqn:E. clear E.
  unfold recommendations. destruct H; rewrite !elem_of_cons; tauto.
Qed.

Lemma commercialDowngrade_steps :
  commercialDowngrade "BLOCK" = "REVIEW" /\
  commercialDowngrade "REVIEW" = "ALLOW_WITH_CAUTION" /\
  commercialDowngrade "ALLOW_WITH_CAUTION" = "ALLOW_WITH_CAUTION" /\
  commercialDowngrade "ALLOW" = "ALLOW".
Proof. vm_compute. repeat split. Qed.

Lemma commercialDowngrade_values (r : string) :
  r ∈ recommendations -> commercialDowngrade r ∈ recommendations.
Proof.
  intros H. apply recommendations_cases in H.
  destruct commercialDowngrade_steps as (E1 & E2 & E3 & E4).
  destruct H as [->|[->|[->| ->]]]; rewrite ?E1, ?E2, ?E3, ?E4;
    unfold recommendations; rewrite !elem_of_cons; tauto.
Qed.

Section DegradedEvaluation.

Variable isCommonWord : string -> bool.
Variable s : Server.

Lemma heuristics_recommendation (profile : DomainProfile) (domainValue : string)
    (scorer : option trademarkIndex) (lookupResult : Usp.LookupResult) (lookupValid : bool) :
  Recommendation
    (hOverall (heuristics isCommonWord s profile domainValue scorer lookupResult lookupValid))
  ∈ recommendations.
Proof.
  unfold heuristics.
  destruct (resolveTrademark _ _ _ _ _ _) as [tr cm].
  destruct (splitDomainParts domainValue) as [sl tl].
  destruct (commercial s) as [best|]; [|apply CombineRecommendation_values].
  destruct (best sl) as [m|]; [|apply CombineRecommendation_values].
  destruct (Qle_bool _ _); [|apply CombineRecommendation_values].
  cbn [hOverall].
  destruct ((viceScore (ViceScore (viceScorer s) profile) <=? 2) && (tmScore tr <=? 3)).
  - apply commercialDowngrade_values, CombineRecommendation_values.
  - apply CombineRecommendation_values.
Qed.

(** An evaluation that is neither cancelled on entry nor given an empty
    domain never fails; when the AI call fails, it carries the heuristic
    scores and recommendation with the fallback narrative. *)
Lemma evaluateDomain_degrades (ctx : Context) (domain : BatchDomain)
    (scorer : option trademarkIndex) (marks : list Mark) (totalDomains : Z)
    (cache : gmap string Usp.LookupResult) :
  cancelledAtStart ctx = false ->
  TrimSpace (itemDomain domain) <> "" ->
  let r := fst (fst (evaluateDomain isCommonWord s ctx domain scorer marks totalDomains cache)) in
  let domainValue := TrimSpace (itemDomain domain) in
  let profile := NormalizeDomain domainValue in
  let lookup := fst (lookupUSPTO s (BrandToken profile) cache) in
  let h := heuristics isCommonWord s profile domainValue scorer (fst lookup) (snd lookup) in
  Err r = None /\
  (aiAlwaysFails s ->
   Store.Explanation (Evaluation r) = buildFallbackNarrative (Recommendation (hOverall h)) /\
   Store.OverallRecommendation (Evaluation r) = Recommendation (hOverall h) /\
   Store.TrademarkScore (Evaluation r) = tmScore (hTrademark h) /\
   Store.ViceScore (Evaluation r) = viceScore (hVice h)).
Proof.
  intros Hctx Hdomain r domainValue profile lookup h.
  subst r. unfold evaluateDomain. rewrite Hctx.
  destruct (decide (TrimSpace (itemDomain domain) = "")) as [E|_]; [contradiction|].
  fold domainValue. fold profile.
  subst lookup. destruct (lookupUSPTO s (BrandToken profile) cache) as [[lookupResult lookupValid] cache'].
  cbn [fst snd] in h. fold h.
  pose proof (generateDecision_degrades s ctx profile domainValue
                (Z.of_nat (length marks)) totalDomains h) as [Hnone Hfb].
  destruct (generateDecision s ctx profile domainValue (Z.of_nat (length marks)) totalDomains h)
    as [[decision err] t].
  cbn [fst snd] in Hnone, Hfb. subst err. cbn [fst Err Evaluation].
  split; [reflexivity|]. intros Hfail.
  destruct (Hfb Hfail) as (Hn & Hr & Ht & Hv & Hc).
  unfold assemble, recomputedOverall, overriddenTrademark, overriddenVice.
  rewrite Hn, Hr, Ht, Hv, Hc.
  cbn [Store.Explanation Store.OverallRecommendation Store.TrademarkScore Store.ViceScore].
  split; [apply buildFallbackNarrative_trimmed|]. split; [|split; reflexivity].
  pose proof (heuristics_recommendation profile domainValue scorer lookupResult lookupValid) as Hrec.
  fold h in Hrec. apply recommendations_cases in Hrec.
  destruct Hrec as [-> |[-> |[-> | ->]]]; vm_compute; reflexivity.
Qed.

End DegradedEvaluation.

Lemma backoffs_prefix (l : list Z) :
  (length l <= 3)%nat ->
  l = map backoffSchedule (seq 0 (length l)) ->
  l `prefix_of` [2 * Second; 4 * Second; 8 * Second].
Proof.
  intros Hlen ->.
  destruct (length l) as [|[|[|[|n]]]]; try lia.
  - apply prefix_nil.
  - exists [4 * Second; 8 * Second]. reflexivity.
  - exists [8 * Second]. reflexivity.
  - exists []. reflexivity.
Qed.

(** C7 (as amended). The explainer is called at most 3 times per domain;
    the waits between calls are 2 s, 4 s, 8 s in this order (the schedule
    that starts at 2 s, doubles and is capped at 10 s); a further call is
    made only after an error whose message, once put in lower case,
    contains "status 429", "status 500" or "status 503".  An evaluation that
    is not cancelled on entry and has a domain never fails, and when the AI
    call fails it carries the heuristic scores and recommendation with the
    fallback narrative of that recommendation; the narratives for BLOCK,
    REVIEW, ALLOW_WITH_CAUTION and any other value are pairwise distinct. *)
Theorem C7_ai_retry_and_fallback :
  (forall (explainer : option Ai.Explainer) (ctx : Context) (input : Ai.ExplanationInput),
     let t := snd (callAIWithRetry explainer ctx input) in
     (attempts t <= 3)%nat /\
     backoffs t = map backoffSchedule (seq 0 (length (backoffs t))) /\
     backoffs t `prefix_of` [2 * Second; 4 * Second; 8 * Second] /\
     (forall e i, explainer = Some e -> (S i < attempts t)%nat ->
        exists err, Ai.Explain e input i = inr err /\
                    transientText (ToLower (Ai.Error err)) = true)) /\
  (forall (isCommonWord : string -> bool) (s : Server) (ctx : Context)
          (domain : BatchDomain) (scorer : option trademarkIndex) (marks : list Mark)
          (totalDomains : Z) (cache : gmap string Usp.LookupResult),
     cancelledAtStart ctx = false ->
     TrimSpace (itemDomain domain) <> "" ->
     let r := fst (fst (evaluateDomain isCommonWord s ctx domain scorer marks totalDomains cache)) in
     let domainValue := TrimSpace (itemDomain domain) in
     let profile := NormalizeDomain domainValue in
     let lookup := fst (lookupUSPTO s (BrandToken profile) cache) in
     let h := heuristics isCommonWord s profile domainValue scorer (fst lookup) (snd lookup) in
     Err r = None /\
     (aiAlwaysFails s ->
      Store.Explanation (Evaluation r) = buildFallbackNarrative (Recommendation (hOverall h)) /\
      Store.OverallRecommendation (Evaluation r) = Recommendation (hOverall h) /\
      Store.TrademarkScore (Evaluation r) = tmScore (hTrademark h) /\
      Store.ViceScore (Evaluation r) = viceScore (hVice h))) /\
  NoDup [buildFallbackNarrative "BLOCK"; buildFallbackNarrative "REVIEW";
         buildFallbackNarrative "ALLOW_WITH_CAUTION"; buildFallbackNarrative "ALLOW"] /\
  (forall r, ToUpper (TrimSpace r) ∉ ["BLOCK"; "REVIEW"; "ALLOW_WITH_CAUTION"] ->
             buildFallbackNarrative r = buildFallbackNarrative "ALLOW").
Proof.
  split; [|split; [|split]].
  - intros explainer ctx input t.
    destruct (callAIWithRetry_trace explainer ctx input) as (H1 & H2 & H3 & H4).
    fold t in H1, H2, H3, H4. unfold aiMaxRetries in H1.
    split; [exact H1|]. split; [exact H2|]. split; [|exact H4].
    apply backoffs_prefix; [lia|exact H2].
  - intros isCommonWord s ctx domain scorer marks totalDomains cache Hctx Hdomain.
    exact (evaluateDomain_degrades isCommonWord s ctx domain scorer marks totalDomains cache
             Hctx Hdomain).
  - vm_compute. repeat constructor; rewrite ?elem_of_cons, ?elem_of_nil;
      intros H; repeat (destruct H as [H|H]; [discriminate H|]); exact H.
  - intros r Hr.
    replace (buildFallbackNarrative "ALLOW")
      with "Heuristic evaluation completed; AI explanation unavailable at this time."
      by (vm_compute; reflexivity).
    unfold buildFallbackNarrative.
    rewrite !not_elem_of_cons in Hr. destruct Hr as (H1 & H2 & H3 & _).
    repeat case_decide; try contradiction. reflexivity.
Qed.

Lemma overloaded_always_fails : aiAlwaysFails overloadedServer.
Proof.
  intros e [= <-] _ input n.
  exists (Ai.ErrMessage "openai status 503: map[]"). reflexivity.
Defined.

Lemma C7_witness :
  Store.Explanation
    (Evaluation (fst (fst (evaluateDomain noDictionary overloadedServer background casinoItem
                             (Some testIndex) testMarks 1 ∅))))
  = "Heuristic signals recommend REVIEW; AI narrative waiting for retry.".
Proof.
  destruct C7_ai_retry_and_fallback as (_ & Hdegrade & _).
  destruct (Hdegrade noDictionary overloadedServer background casinoItem
              (Some testIndex) testMarks 1 ∅) as [_ Hfallback].
  - reflexivity.
  - vm_compute. discriminate.
  - destruct (Hfallback overloaded_always_fails) as [Hexplanation _].
    rewrite Hexplanation. vm_compute. reflexivity.
Defined.

(** The claim fails where it says the message must contain one of the
    three texts: an error naming the status with a capital letter is
    retried (two calls, one wait of 2 s), although its message contains none
    of them. *)
Lemma C7_counterexample :
  let t := snd (callAIWithRetry (Some capitalisedStatusExplainer) background someInput) in
  attempts t = 2%nat /\ backoffs t = [2 * Second] /\
  Ai.Explain capitalisedStatusExplainer someInput 0
    = inr (Ai.ErrMessage "upstream said: Status 429 Too Many Requests") /\
  transientText "upstream said: Status 429 Too Many Requests" = false.
Proof. vm_compute. repeat split. Qed.

(** ** Commercial override *)

Section CommercialOverride.

Variable isCommonWord : string -> bool.
Variable s : Server.

(** The override flag and the recommendation handed to the AI step, in
    terms of the results before the override. *)
Lemma heuristics_commercial (profile : DomainProfile) (domainValue : string)
    (scorer : option trademarkIndex) (lookupResult : Usp.LookupResult) (lookupValid : bool) :
  let h := heuristics isCommonWord s profile domainValue scorer lookupResult lookupValid in
  let before := CombineRecommendation (hTrademark h) (hVice h) in
  (hCommercialOverride h = true ->
   exists bestMatch m,
     commercial s = Some bestMatch /\
     bestMatch (fst (splitDomainParts domainValue)) = Some m /\
     (0.8 <= Commercial.Similarity m)%Q /\
     hCommercialSimilarity h = Commercial.Similarity m /\
     viceScore (hVice h) <= 2 /\ tmScore (hTrademark h) <= 3) /\
  Recommendation (hOverall h) = downgradedIf (hCommercialOverride h) before /\
  Confidence (hOverall h) = Confidence before.
Proof.
  unfold heuristics.
  destruct (resolveTrademark _ _ _ _ _ _) as [tr cm].
  destruct (splitDomainParts domainValue) as [sl tl]. cbn [fst].
  destruct (commercial s) as [best|]; [|cbn; split; [discriminate|split; reflexivity]].
  destruct (best sl) as [m|] eqn:Em; [|cbn; split; [discriminate|split; reflexivity]].
  destruct (Qle_bool commercialSimilarityThreshold (Commercial.Similarity m)) eqn:Es;
    [|cbn; split; [discriminate|split; reflexivity]].
  cbn [hCommercialOverride hOverall hTrademark hVice hCommercialSimilarity].
  split.
  - intros Hgranted. apply andb_true_iff in Hgranted as [Hv Ht].
    exists best, m. split; [reflexivity|]. split; [exact Em|].
    split; [apply Qle_bool_iff, Es|]. split; [reflexivity|]. lia.
  - unfold downgradedIf.
    destruct ((viceScore (ViceScore (viceScorer s) profile) <=? 2) && (tmScore tr <=? 3));
      split; reflexivity.
Qed.

End CommercialOverride.

(** C5. The override flag of an evaluation is set only when the best
    commercial match has similarity at least 0.80 and, before the override,
    the vice score is at most 2 and the trademark score at most 3.  The
    recommendation handed to the AI step is the combined recommendation,
    moved one step down when the override is granted (BLOCK to REVIEW,
    REVIEW to ALLOW_WITH_CAUTION, the two lower values unchanged), with the
    confidence untouched; after the scores of the decision have replaced
    the heuristic ones the recommendation is combined again and the same
    downgrade is applied again, which is the stored recommendation unless
    the decision names one; the stored flag is the flag of the first
    pass. *)
Theorem C5_commercial_override
    (isCommonWord : string -> bool) (s : Server) (profile : DomainProfile)
    (domainValue normalizedKey : string) (scorer : option trademarkIndex)
    (lookupResult : Usp.LookupResult) (lookupValid : bool) :
  let h := heuristics isCommonWord s profile domainValue scorer lookupResult lookupValid in
  let before := CombineRecommendation (hTrademark h) (hVice h) in
  (hCommercialOverride h = true ->
   exists bestMatch m,
     commercial s = Some bestMatch /\
     bestMatch (fst (splitDomainParts domainValue)) = Some m /\
     (0.8 <= Commercial.Similarity m)%Q /\
     hCommercialSimilarity h = Commercial.Similarity m /\
     viceScore (hVice h) <= 2 /\ tmScore (hTrademark h) <= 3) /\
  Recommendation (hOverall h) = downgradedIf (hCommercialOverride h) before /\
  Confidence (hOverall h) = Confidence before /\
  (commercialDowngrade "BLOCK" = "REVIEW" /\
   commercialDowngrade "REVIEW" = "ALLOW_WITH_CAUTION" /\
   commercialDowngrade "ALLOW_WITH_CAUTION" = "ALLOW_WITH_CAUTION" /\
   commercialDowngrade "ALLOW" = "ALLOW") /\
  (forall decision : Ai.Decision,
     let after :=
       CombineRecommendation (overriddenTrademark h decision) (overriddenVice h decision) in
     let stored := assemble h decision domainValue normalizedKey in
     Recommendation (recomputedOverall h decision) = downgradedIf (hCommercialOverride h) after /\
     Store.CommercialOverride stored = hCommercialOverride h /\
     Store.CommercialSimilarity stored = hCommercialSimilarity h /\
     (ToUpper (TrimSpace (Ai.Recommendation decision)) = "" ->
      Store.OverallRecommendation stored = downgradedIf (hCommercialOverride h) after) /\
     (ToUpper (TrimSpace (Ai.Recommendation decision)) <> "" ->
      Store.OverallRecommendation stored = ToUpper (TrimSpace (Ai.Recommendation decision)))).
Proof.
  intros h before.
  destruct (heuristics_commercial isCommonWord s profile domainValue scorer lookupResult lookupValid)
    as (H1 & H2 & H3).
  fold h in H1, H2, H3. fold before in H2, H3.
  split; [exact H1|]. split; [exact H2|]. split; [exact H3|].
  split; [exact commercialDowngrade_steps|].
  intros decision after stored.
  assert (Hre : Recommendation (recomputedOverall h decision)
                = downgradedIf (hCommercialOverride h) after).
  { unfold recomputedOverall, downgradedIf. fold after.
    destruct (hCommercialOverride h); reflexivity. }
  split; [exact Hre|]. split; [reflexivity|]. split; [reflexivity|].
  subst stored. unfold assemble. cbn [Store.OverallRecommendation].
  split; intros Hrec.
  - rewrite Hrec. destruct (decide ("" <> "")) as [Hne|_]; [contradiction Hne; reflexivity|].
    exact Hre.
  - destruct (decide (ToUpper (TrimSpace (Ai.Recommendation decision)) <> ""));
      [reflexivity|contradiction].
Qed.

Lemma C5_witness :
  (0.8 <= hCommercialSimilarity carsHeuristics)%Q /\
  viceScore (hVice carsHeuristics) <= 2 /\ tmScore (hTrademark carsHeuristics) <= 3.
Proof.
  destruct (C5_commercial_override noDictionary carsServer (NormalizeDomain "cars.ai")
              "cars.ai" "cars.ai" (Some carsIndex) Usp.emptyLookup false)
    as (Hgranted & _).
  destruct Hgranted as (bestMatch & m & _ & _ & Hsim & Heq & Hv & Ht).
  - vm_compute. reflexivity.
  - fold carsHeuristics in Heq, Hv, Ht. rewrite Heq. split; [exact Hsim|]. split; assumption.
Defined.

(** The commercial scenario: REVIEW becomes ALLOW_WITH_CAUTION. *)
Example commercial_downgrade_scenario :
  Recommendation (CombineRecommendation (hTrademark carsHeuristics) (hVice carsHeuristics))
    = "REVIEW" /\
  hCommercialOverride carsHeuristics = true /\
  Recommendation (hOverall carsHeuristics) = "ALLOW_WITH_CAUTION" /\
  hCommercialSource carsHeuristics = "sale $120000".
Proof. vm_compute. repeat split. Qed.

(** ** Progress of a job *)

Lemma progressOf_app (l1 l2 : list EvaluationEvent) :
  progressOf (l1 ++ l2) = progressOf l1 ++ progressOf l2.
Proof. unfold progressOf. rewrite List.filter_app, map_app. reflexivity. Qed.

Lemma Sorted_snoc_le (l : list Z) (x : Z) :
  Sorted Z.le l -> Forall (fun p => p <= x) l -> Sorted Z.le (l ++ [x]).
Proof.
  induction l as [|a l IH]; intros Hs Hall.
  - repeat constructor.
  - apply Forall_cons in Hall as [Ha Hl].
    apply Sorted_inv in Hs as [Hs Hhd].
    change ((a :: l) ++ [x]) with (a :: (l ++ [x])). constructor.
    + apply IH; assumption.
    + destruct l as [|b l]; cbn [app].
      * constructor. exact Ha.
      * constructor. inversion Hhd; assumption.
Qed.

Ltac eventOk_tac :=
  split; [reflexivity|first [left; reflexivity|right; reflexivity]].

Section Progress.

Variable job : evaluationJob.
Variable req : EvaluateRequest.
Variable duration : string.

Lemma progressInv_broadcast (st : runState) (event : EvaluationEvent) :
  eventOk job event ->
  countsProgress event = false \/ Processed event = totalProcessed st ->
  progressInv job st -> progressInv job (broadcast st event).
Proof.
  intros Hid Hev (H1 & H2 & H3 & H4). unfold progressInv.
  cbn [broadcast emitted totalProcessed hasPending pendingEvent].
  rewrite progressOf_app. unfold progressOf at 2 4. cbn [List.filter].
  split; [|split; [|split; [|exact H4]]].
  - destruct (countsProgress event) eqn:E; cbn [map].
    + destruct Hev as [Hev|Hev]; [discriminate|]. rewrite Hev.
      apply Sorted_snoc_le; assumption.
    + rewrite app_nil_r. exact H1.
  - destruct (countsProgress event) eqn:E; cbn [map].
    + destruct Hev as [Hev|Hev]; [discriminate|].
      apply Forall_app. split; [exact H2|]. apply Forall_singleton. lia.
    + rewrite app_nil_r. exact H2.
  - apply Forall_app. split; [exact H3|]. apply Forall_singleton. exact Hid.
Qed.

Lemma progressInv_flush (force elapsed : bool) (st : runState) :
  progressInv job st -> progressInv job (flush force elapsed st).
Proof.
  intros Hinv. unfold flush.
  destruct (hasPending st) eqn:Ep; cbn [negb]; [|exact Hinv].
  destruct (negb force && negb (lastEmitIsZero st) && negb elapsed); [exact Hinv|].
  destruct Hinv as (H1 & H2 & H3 & H4).
  destruct (H4 Ep) as (ev & Hpe & Hp & Hc & Hid). rewrite Hpe.
  destruct (progressInv_broadcast st ev (conj Hid (or_introl Hc)) (or_intror Hp))
    as (G1 & G2 & G3 & _).
  { split; [exact H1|]. split; [exact H2|]. split; [exact H3|exact H4]. }
  split; [exact G1|]. split; [exact G2|]. split; [exact G3|].
  cbn [hasPending]. discriminate.
Qed.

Lemma progressInv_finish (status : string) (event : EvaluationEvent) (st : runState) :
  eventOk job event ->
  countsProgress event = false \/ Processed event = totalProcessed st ->
  progressInv job st -> progressInv job (finish status event st).
Proof.
  intros Hid Hev Hinv.
  destruct (progressInv_broadcast st event Hid Hev Hinv) as (G1 & G2 & G3 & G4).
  split; [exact G1|]. split; [exact G2|]. split; [exact G3|exact G4].
Qed.

Lemma flush_totalProcessed (force elapsed : bool) (st : runState) :
  totalProcessed (flush force elapsed st) = totalProcessed st.
Proof.
  unfold flush. destruct (negb (hasPending st)); [reflexivity|].
  destruct (negb force && negb (lastEmitIsZero st) && negb elapsed); [reflexivity|].
  destruct (pendingEvent st); reflexivity.
Qed.

Lemma progressInv_record (eval : Store.Evaluation) (st : runState) :
  progressInv job st -> progressInv job (record job req eval st).
Proof.
  intros (H1 & H2 & H3 & _). unfold progressInv.
  cbn [record emitted totalProcessed hasPending pendingEvent].
  split; [exact H1|]. split; [|split; [exact H3|]].
  - eapply Forall_impl; [exact H2|]. cbn. intros p Hp. lia.
  - intros _. eexists. split; [reflexivity|]. repeat split.
Qed.

End Progress.

Section ProgressOfARun.

Variable job : evaluationJob.
Variable req : EvaluateRequest.
Variable duration : string.

Lemma progressInv_receive (st : runState) (input : collectorInput) :
  progressInv job st -> progressInv job (receive job req st input).
Proof.
  intros Hinv. destruct input as [| |err| |res saveErr elapsed]; cbn [receive].
  - apply progressInv_finish; [eventOk_tac|right; reflexivity|].
    apply progressInv_flush, Hinv.
  - destruct (activeErrCh st); exact Hinv.
  - destruct (activeErrCh st); cbn [negb]; [|exact Hinv].
    destruct err as [msg|]; [|exact Hinv].
    apply progressInv_finish; [eventOk_tac|left; reflexivity|].
    apply progressInv_flush, Hinv.
  - destruct (activeResultCh st); exact Hinv.
  - destruct (activeResultCh st); cbn [negb]; [|exact Hinv].
    destruct (done st); [exact Hinv|].
    destruct (Err res) as [e|].
    { apply progressInv_finish; [eventOk_tac|left; reflexivity|].
      apply progressInv_flush, Hinv. }
    destruct saveErr as [msg|].
    { apply progressInv_finish; [eventOk_tac|left; reflexivity|].
      apply progressInv_flush, Hinv. }
    assert (H : progressInv job (flush false elapsed (record job req (Evaluation res) st)))
      by (apply progressInv_flush, progressInv_record, Hinv).
    destruct (total job <=? _); exact H.
Qed.

Lemma progressInv_collect (st : runState) (input : collectorInput) :
  progressInv job st -> progressInv job (collect job req duration st input).
Proof.
  intros Hinv. unfold collect. destruct (returned st); [exact Hinv|].
  pose proof (progressInv_receive st input Hinv) as H.
  destruct (returned (receive job req st input)); [exact H|].
  destruct (negb (activeResultCh _) && negb (activeErrCh _)); [|exact H].
  apply progressInv_finish; [eventOk_tac|right; reflexivity|].
  apply progressInv_flush, H.
Qed.

Lemma progressInv_jobTurn (st : runState) (step : jobStep) :
  progressInv job st -> progressInv job (jobTurn job req duration st step).
Proof.
  intros Hinv. destruct step as [input|]; cbn [jobTurn].
  - apply progressInv_collect, Hinv.
  - destruct (returned st); [exact Hinv|].
    apply progressInv_broadcast; [eventOk_tac|left; reflexivity|exact Hinv].
Qed.

Lemma progressInv_initial (processed : Z) (seen : gset string) :
  progressInv job (initial processed seen).
Proof.
  split; [constructor|]. split; [constructor|]. split; [constructor|]. discriminate.
Qed.

Lemma progressInv_runStart (marksErr scorerErr : option string)
    (evaluated : string + list string) :
  progressInv job (runStart job req marksErr scorerErr evaluated).
Proof.
  unfold runStart.
  destruct (total job <=? 0).
  { apply progressInv_finish; [eventOk_tac|left; reflexivity|apply progressInv_initial]. }
  destruct marksErr as [err|].
  { apply progressInv_finish; [eventOk_tac|left; reflexivity|apply progressInv_initial]. }
  destruct scorerErr as [err|].
  { apply progressInv_finish; [eventOk_tac|left; reflexivity|apply progressInv_initial]. }
  destruct (skipExisting req).
  - destruct evaluated as [err|domains].
    + apply progressInv_finish; [eventOk_tac|left; reflexivity|apply progressInv_initial].
    + apply progressInv_broadcast; [eventOk_tac|right; reflexivity|apply progressInv_initial].
  - apply progressInv_broadcast; [eventOk_tac|right; reflexivity|apply progressInv_initial].
Qed.

Lemma progressInv_steps (steps : list jobStep) :
  forall st, progressInv job st ->
             progressInv job (fold_left (jobTurn job req duration) steps st).
Proof.
  induction steps as [|step steps IH]; intros st Hinv; [exact Hinv|].
  cbn [fold_left]. apply IH, progressInv_jobTurn, Hinv.
Qed.

Lemma countInv_flush (force elapsed : bool) (st : runState) :
  countInv job st -> countInv job (flush force elapsed st).
Proof.
  unfold flush. destruct (negb (hasPending st)); [tauto|].
  destruct (negb force && negb (lastEmitIsZero st) && negb elapsed); [tauto|].
  destruct (pendingEvent st); tauto.
Qed.

Lemma countInv_receive (st : runState) (input : collectorInput) :
  countInv job st -> countInv job (receive job req st input).
Proof.
  intros Hinv. destruct input as [| |err| |res saveErr elapsed]; cbn [receive].
  - apply (countInv_flush true false) in Hinv. exact Hinv.
  - destruct (activeErrCh st); exact Hinv.
  - destruct (activeErrCh st); cbn [negb]; [|exact Hinv].
    destruct err as [msg|]; [|exact Hinv].
    apply (countInv_flush true false) in Hinv. exact Hinv.
  - destruct (activeResultCh st); exact Hinv.
  - destruct (activeResultCh st); cbn [negb]; [|exact Hinv].
    destruct (done st) eqn:Ed; [exact Hinv|].
    destruct (Err res) as [e|].
    { apply (countInv_flush true false) in Hinv. exact Hinv. }
    destruct saveErr as [msg|].
    { apply (countInv_flush true false) in Hinv. exact Hinv. }
    destruct Hinv as [_ Hlt]. specialize (Hlt Ed).
    assert (Ht : totalProcessed (flush false elapsed (record job req (Evaluation res) st))
                 = totalProcessed st + 1) by (rewrite flush_totalProcessed; reflexivity).
    assert (Hd : done (flush false elapsed (record job req (Evaluation res) st)) = false).
    { unfold flush. destruct (negb _); [exact Ed|].
      destruct (_ && _); [exact Ed|]. cbn [record pendingEvent]. exact Ed. }
    destruct (total job <=? _) eqn:E.
    + split; cbn [markDone totalProcessed done]; [lia|discriminate].
    + apply Z.leb_gt in E. split; [lia|]. intros _. lia.
Qed.

Lemma countInv_jobTurn (st : runState) (step : jobStep) :
  countInv job st -> countInv job (jobTurn job req duration st step).
Proof.
  intros Hinv. destruct step as [input|]; cbn [jobTurn].
  - unfold collect. destruct (returned st); [exact Hinv|].
    pose proof (countInv_receive st input Hinv) as H.
    destruct (returned (receive job req st input)); [exact H|].
    destruct (negb (activeResultCh _) && negb (activeErrCh _)); [|exact H].
    apply (countInv_flush true false) in H. exact H.
  - destruct (returned st); exact Hinv.
Qed.

Lemma countInv_steps (steps : list jobStep) :
  forall st, countInv job st -> countInv job (fold_left (jobTurn job req duration) steps st).
Proof.
  induction steps as [|step steps IH]; intros st Hinv; [exact Hinv|].
  cbn [fold_left]. apply IH, countInv_jobTurn, Hinv.
Qed.

Lemma returned_steps (steps : list jobStep) :
  forall st, returned st = true -> fold_left (jobTurn job req duration) steps st = st.
Proof.
  induction steps as [|step steps IH]; intros st Hret; [reflexivity|].
  cbn [fold_left]. assert (E : jobTurn job req duration st step = st).
  { destruct step; cbn [jobTurn]; unfold collect; rewrite Hret; reflexivity. }
  rewrite E. apply IH, Hret.
Qed.

Lemma totalProcessed_no_result (steps : list jobStep) :
  Forall (fun step => deliversResult step = false) steps ->
  forall st, totalProcessed (fold_left (jobTurn job req duration) steps st) = totalProcessed st.
Proof.
  induction steps as [|step steps IH]; intros Hsteps st; [reflexivity|].
  apply Forall_cons in Hsteps as [Hstep Hsteps].
  cbn [fold_left]. rewrite (IH Hsteps).
  destruct step as [input|]; cbn [jobTurn].
  - unfold collect. destruct (returned st); [reflexivity|].
    assert (E : totalProcessed (receive job req st input) = totalProcessed st).
    { destruct input as [| |err| |res saveErr elapsed]; cbn [receive].
      - cbn. apply flush_totalProcessed.
      - destruct (activeErrCh st); reflexivity.
      - destruct (activeErrCh st); cbn [negb]; [|reflexivity].
        destruct err; [|reflexivity]. cbn. apply flush_totalProcessed.
      - destruct (activeResultCh st); reflexivity.
      - discriminate Hstep. }
    destruct (returned (receive job req st input)); [exact E|].
    destruct (negb (activeResultCh _) && negb (activeErrCh _)); [|exact E].
    cbn. rewrite flush_totalProcessed. exact E.
  - destruct (returned st); reflexivity.
Qed.

End ProgressOfARun.

(** C9 (as amended). Among the events broadcast for a job, also when
    cancellations are requested in between, those that report the progress
    of the run (started, evaluation, cancelled and complete) carry a
    processed count that never decreases from one to the next; every event
    carries the id of the job, and the other events (error events and the
    progress event of a cancellation request) have their processed count
    left at zero; the count of the events that report progress never
    exceeds the total of the job, provided that a resumed run starts with
    fewer already evaluated domains than the total, or with as many and
    then receives no result. *)
Theorem C9_progress_monotone
    (job : evaluationJob) (req : EvaluateRequest) (duration : string)
    (marksErr scorerErr : option string) (evaluated : string + list string)
    (steps : list jobStep) :
  let events := jobEvents job req duration marksErr scorerErr evaluated steps in
  Sorted Z.le (progressOf events) /\
  Forall (fun ev => evJobID ev = jobID job /\
                    (countsProgress ev = true \/ Processed ev = 0)) events /\
  ((skipExisting req = true ->
    resumedCount evaluated < total job \/
    (resumedCount evaluated = total job /\
     Forall (fun step => deliversResult step = false) steps)) ->
   Forall (fun p => p <= total job) (progressOf events)).
Proof.
  intros events. subst events. unfold jobEvents.
  pose proof (progressInv_steps job req duration steps _
                (progressInv_runStart job req marksErr scorerErr evaluated))
    as (H1 & H2 & H3 & _).
  split; [exact H1|]. split; [exact H3|]. intros Hresume.
  destruct (total job <=? 0) eqn:Etotal.
  { unfold runStart. rewrite Etotal. rewrite returned_steps by reflexivity.
    cbn. constructor. }
  apply Z.leb_gt in Etotal.
  eapply Forall_impl; [exact H2|]. cbn beta. intros p Hp.
  enough (Hle : totalProcessed
                  (fold_left (jobTurn job req duration) steps
                     (runStart job req marksErr scorerErr evaluated)) <= total job) by lia.
  clear p Hp H1 H2 H3.
  assert (Hcases :
            countInv job (runStart job req marksErr scorerErr evaluated) \/
            (totalProcessed (runStart job req marksErr scorerErr evaluated) = total job /\
             Forall (fun step => deliversResult step = false) steps)).
  { unfold runStart. apply Z.leb_gt in Etotal. rewrite Etotal. apply Z.leb_gt in Etotal.
    destruct marksErr as [err|]; [left; split; cbn; lia|].
    destruct scorerErr as [err|]; [left; split; cbn; lia|].
    destruct (skipExisting req) eqn:Eskip; [|left; split; cbn; lia].
    destruct evaluated as [err|domains]; [left; split; cbn; lia|].
    destruct (Hresume eq_refl) as [Hlt|[Heq Hnone]]; cbn [resumedCount] in *.
    - left. split; cbn [broadcast initial totalProcessed done]; [lia|intros _; exact Hlt].
    - right. split; [exact Heq|exact Hnone]. }
  destruct Hcases as [Hstart|[Heq Hnone]].
  - apply (countInv_steps job req duration steps _ Hstart).
  - rewrite (totalProcessed_no_result job req duration steps Hnone). lia.
Qed.

Lemma C9_witness :
  Forall (fun p => p <= 2)
    (progressOf (jobEvents testJob testRequest "1s" None None (inr []) cancelledRun)).
Proof.
  destruct (C9_progress_monotone testJob testRequest "1s" None None (inr []) cancelledRun)
    as (_ & _ & Hbound).
  apply Hbound. intros Hresume. discriminate Hresume.
Defined.

(** The claim fails on the progress event of a cancellation request: after
    the evaluation event with processed 1, the event broadcast by the
    cancellation handler for the same job has processed 0. *)
Lemma C9_counterexample :
  let events := jobEvents testJob testRequest "1s" None None (inr []) cancelledRun in
  map (fun ev => (evType ev, evJobID ev, Processed ev, Total ev)) events
  = [("started", "job-1", 0, 2); ("evaluation", "job-1", 1, 2);
     ("progress", "job-1", 0, 2); ("cancelled", "job-1", 1, 2)] /\
  ~ Sorted Z.le (map Processed events).
Proof.
  vm_compute. split; [reflexivity|]. intros H.
  apply Sorted_inv in H as [H _]. apply Sorted_inv in H as [_ H].
  inversion H as [|? ? Hle]. apply Hle. reflexivity.
Qed.

(** The event of a cancellation request is the one the handler broadcasts
    for the active job; it becomes the retained status, and the context of
    the job is cancelled. *)
Lemma handleCancelEvaluate_broadcasts (st : State) (env : Env) (job : evaluationJob)
    (jobIDParam : string) :
  activeJob st = Some job ->
  TrimSpace jobIDParam = jobID job ->
  jobID job <> "" ->
  let st' := snd (handleCancelEvaluate st env jobIDParam) in
  evalNotifier st' =
    Broadcast (evalNotifier st) (cancellationRequested job) (now env) (writeOk env) /\
  lastStatus (evalNotifier st') = Some (withTimestamp (cancellationRequested job) (now env)) /\
  jobCtx job ∈ cancelled st'.
Proof.
  intros Hactive Hid Hne st'. subst st'. unfold handleCancelEvaluate.
  rewrite Hid. destruct (decide (jobID job = "")) as [E|_]; [contradiction|].
  rewrite Hactive.
  destruct (decide (jobID job <> jobID job)) as [E|_]; [contradiction E; reflexivity|].
  cbn [snd evalNotifier cancelled]. split; [reflexivity|]. split; [reflexivity|].
  apply elem_of_union. left. apply elem_of_singleton. reflexivity.
Qed.

(** * Further properties *)

From Stdlib Require Import Lqa.
From Stdlib Require DecimalPos DecimalN.

(** ** Strings *)

Lemma sapp_cons (c : ascii) (s t : string) :
  (String c s ++ t)%string = String c (s ++ t)%string.
Proof. reflexivity. Qed.

Lemma sapp_nil_r (s : string) : (s ++ "")%string = s.
Proof. induction s as [|c s IH]; [reflexivity|]. rewrite sapp_cons, IH. reflexivity. Qed.

Lemma sapp_assoc (s t u : string) : ((s ++ t) ++ u)%string = (s ++ t ++ u)%string.
Proof. induction s as [|c s IH]; [reflexivity|]. rewrite !sapp_cons, IH. reflexivity. Qed.

Lemma rev_app_spec (s1 s2 : string) :
  String.rev_app s1 s2 = (String.rev s1 ++ s2)%string.
Proof.
  unfold String.rev. revert s2. induction s1 as [|c s1 IH]; intros s2; [reflexivity|].
  cbn [String.rev_app]. rewrite IH, (IH (String c "")).
  rewrite sapp_assoc. reflexivity.
Qed.

Lemma rev_cons (c : ascii) (s : string) :
  String.rev (String c s) = (String.rev s ++ String c "")%string.
Proof. unfold String.rev at 1. cbn [String.rev_app]. apply rev_app_spec. Qed.

Lemma sforall_app (p : ascii -> bool) (s t : string) :
  sforall p (s ++ t)%string = sforall p s && sforall p t.
Proof.
  induction s as [|c s IH]; [reflexivity|].
  rewrite sapp_cons. cbn [sforall]. rewrite IH, andb_assoc. reflexivity.
Qed.

Lemma sforall_rev (p : ascii -> bool) (s : string) :
  sforall p (String.rev s) = sforall p s.
Proof.
  induction s as [|c s IH]; [reflexivity|].
  rewrite rev_cons, sforall_app, IH. cbn [sforall].
  rewrite andb_true_r, andb_comm. reflexivity.
Qed.

Lemma sforall_impl (p q : ascii -> bool) (s : string) :
  (forall c, p c = true -> q c = true) -> sforall p s = true -> sforall q s = true.
Proof.
  intros Hpq. induction s as [|c s IH]; [reflexivity|].
  cbn [sforall]. rewrite !andb_true_iff. intros [Hc Hs]. split; [apply Hpq, Hc|apply IH, Hs].
Qed.

Lemma sforall_smap (p : ascii -> bool) (f : ascii -> ascii) (s : string) :
  (forall c, p (f c) = true) -> sforall p (smap f s) = true.
Proof.
  intros Hf. induction s as [|c s IH]; [reflexivity|].
  cbn [smap sforall]. rewrite Hf, IH. reflexivity.
Qed.

Lemma smap_id_on (p : ascii -> bool) (f : ascii -> ascii) (s : string) :
  (forall c, p c = true -> f c = c) -> sforall p s = true -> smap f s = s.
Proof.
  intros Hf. induction s as [|c s IH]; [reflexivity|].
  cbn [smap sforall]. rewrite andb_true_iff. intros [Hc Hs].
  rewrite (Hf c Hc), (IH Hs). reflexivity.
Qed.

Lemma sfilter_id_on (p : ascii -> bool) (s : string) :
  sforall p s = true -> sfilter p s = s.
Proof.
  induction s as [|c s IH]; [reflexivity|].
  cbn [sfilter sforall]. rewrite andb_true_iff. intros [Hc Hs].
  rewrite Hc, (IH Hs). reflexivity.
Qed.

Lemma sforall_trim_left (q p : ascii -> bool) (s : string) :
  sforall q s = true -> sforall q (trim_left p s) = true.
Proof.
  induction s as [|c s IH]; [reflexivity|].
  intros H. cbn [trim_left]. destruct (p c); [|exact H].
  cbn [sforall] in H. apply andb_true_iff in H as [_ H]. apply IH, H.
Qed.

Lemma sforall_trim_right (q p : ascii -> bool) (s : string) :
  sforall q s = true -> sforall q (trim_right p s) = true.
Proof.
  intros H. unfold trim_right. rewrite sforall_rev.
  apply sforall_trim_left. rewrite sforall_rev. exact H.
Qed.

Lemma sforall_TrimSpace (q : ascii -> bool) (s : string) :
  sforall q s = true -> sforall q (TrimSpace s) = true.
Proof. intros H. unfold TrimSpace. apply sforall_trim_right, sforall_trim_left, H. Qed.

Lemma sforall_Trim (q : ascii -> bool) (c : ascii) (s : string) :
  sforall q s = true -> sforall q (Trim s c) = true.
Proof. intros H. unfold Trim. apply sforall_trim_right, sforall_trim_left, H. Qed.

Lemma sforall_sdrop (q : ascii -> bool) (n : nat) (s : string) :
  sforall q s = true -> sforall q (sdrop n s) = true.
Proof.
  revert s. induction n as [|n IH]; intros s H; [exact H|].
  destruct s as [|c s]; [reflexivity|].
  cbn [sdrop]. apply IH. cbn [sforall] in H. apply andb_true_iff in H as [_ H]. exact H.
Qed.

Lemma sforall_stake (q : ascii -> bool) (n : nat) (s : string) :
  sforall q s = true -> sforall q (stake n s) = true.
Proof.
  revert s. induction n as [|n IH]; intros s H; [reflexivity|].
  destruct s as [|c s]; [reflexivity|].
  cbn [stake sforall]. cbn [sforall] in H. apply andb_true_iff in H as [Hc H].
  rewrite Hc. apply IH, H.
Qed.

Lemma sforall_sfilter_keep (q p : ascii -> bool) (s : string) :
  sforall q s = true -> sforall q (sfilter p s) = true.
Proof.
  induction s as [|c s IH]; [reflexivity|].
  cbn [sforall sfilter]. rewrite andb_true_iff. intros [Hc Hs].
  destruct (p c); [cbn [sforall]; rewrite Hc|]; apply IH, Hs.
Qed.

(** A string whose ends are not white space is left alone by [TrimSpace]. *)
Lemma trim_left_id (p : ascii -> bool) (s : string) :
  sforall (fun c => negb (p c)) s = true -> trim_left p s = s.
Proof.
  destruct s as [|c s]; [reflexivity|].
  cbn [sforall trim_left]. rewrite andb_true_iff. intros [Hc _].
  destruct (p c); [discriminate|reflexivity].
Qed.

Lemma rev_app_distr (s t : string) :
  String.rev (s ++ t)%string = (String.rev t ++ String.rev s)%string.
Proof.
  induction s as [|c s IH].
  - change (String.rev "") with "". rewrite sapp_nil_r. reflexivity.
  - rewrite sapp_cons, !rev_cons, IH, sapp_assoc. reflexivity.
Qed.

Lemma rev_involutive (s : string) : String.rev (String.rev s) = s.
Proof.
  induction s as [|c s IH]; [reflexivity|].
  rewrite rev_cons, rev_app_distr, IH. reflexivity.
Qed.

Lemma trim_right_id (p : ascii -> bool) (s : string) :
  sforall (fun c => negb (p c)) s = true -> trim_right p s = s.
Proof.
  intros H. unfold trim_right. rewrite trim_left_id; [apply rev_involutive|].
  rewrite sforall_rev. exact H.
Qed.

Lemma TrimSpace_id (s : string) :
  sforall (fun c => negb (Ascii.is_space c)) s = true -> TrimSpace s = s.
Proof.
  intros H. unfold TrimSpace. rewrite (trim_left_id _ _ H). apply trim_right_id, H.
Qed.

Lemma alnum_not_space (c : ascii) : is_alnum c = true -> negb (Ascii.is_space c) = true.
Proof.
  unfold is_alnum, is_lower, is_digit, code.
  destruct c as [[] [] [] [] [] [] [] []]; vm_compute; intros H; congruence.
Qed.

Lemma alnum_lower_id (c : ascii) : is_alnum c = true -> lower_ascii c = c.
Proof.
  destruct c as [[] [] [] [] [] [] [] []]; vm_compute; intros H; congruence.
Qed.

Lemma TrimSpace_alnum (s : string) : sforall is_alnum s = true -> TrimSpace s = s.
Proof. intros H. apply TrimSpace_id. eapply sforall_impl; [exact alnum_not_space|exact H]. Qed.

Lemma ToLower_alnum (s : string) : sforall is_alnum s = true -> ToLower s = s.
Proof. intros H. unfold ToLower. eapply smap_id_on; [exact alnum_lower_id|exact H]. Qed.

Lemma sanitizeLabel_alnum (label : string) : sforall is_alnum (sanitizeLabel label) = true.
Proof.
  rewrite sanitizeLabel_filter. apply sforall_sfilter. intros c H. exact H.
Qed.

Lemma sanitizeLabel_id (s : string) : sforall is_alnum s = true -> sanitizeLabel s = s.
Proof.
  intros H. rewrite sanitizeLabel_filter, (TrimSpace_alnum _ H), (ToLower_alnum _ H).
  apply (sfilter_id_on is_alnum). exact H.
Qed.

(** X1. [sanitizeLabel] yields [a-z0-9] only and is idempotent. *)
Theorem sanitizeLabel_idempotent (label : string) :
  sforall is_alnum (sanitizeLabel label) = true /\
  sanitizeLabel (sanitizeLabel label) = sanitizeLabel label.
Proof.
  split; [apply sanitizeLabel_alnum|]. apply sanitizeLabel_id, sanitizeLabel_alnum.
Qed.

(** ** The trademark index *)

Lemma buildExactMap_fold (marks : list Mark) (k : string) (m : Mark) :
  forall acc : gmap string Mark,
    fold_left
      (fun result mark =>
         let key := sanitizeLabel (MarkNoSpaces mark) in
         if decide (key = "") then result
         else match result !! key with
              | Some _ => result
              | None => <[key := mark]> result
              end) marks acc !! k = Some m <->
    acc !! k = Some m \/
    (acc !! k = None /\ k <> "" /\
     exists pre post,
       marks = pre ++ m :: post /\ sanitizeLabel (MarkNoSpaces m) = k /\
       Forall (fun m' => sanitizeLabel (MarkNoSpaces m') <> k) pre).
Proof.
  induction marks as [|x marks IH]; intros acc.
  { cbn [fold_left]. split; [intros H; left; exact H|].
    intros [H|(_ & _ & pre & post & E & _)]; [exact H|].
    destruct pre; discriminate E. }
  cbn [fold_left]. rewrite IH. clear IH. cbn zeta.
  set (key := sanitizeLabel (MarkNoSpaces x)).
  assert (Hskip : key <> k ->
            (exists pre post,
               marks = pre ++ m :: post /\ sanitizeLabel (MarkNoSpaces m) = k /\
               Forall (fun m' => sanitizeLabel (MarkNoSpaces m') <> k) pre) <->
            (exists pre post,
               x :: marks = pre ++ m :: post /\ sanitizeLabel (MarkNoSpaces m) = k /\
               Forall (fun m' => sanitizeLabel (MarkNoSpaces m') <> k) pre)).
  { intros Hne. split.
    - intros (pre & post & E & Hm & Hpre). exists (x :: pre), post.
      split; [rewrite E; reflexivity|]. split; [exact Hm|].
      apply Forall_cons. split; [exact Hne|exact Hpre].
    - intros (pre & post & E & Hm & Hpre). destruct pre as [|y pre].
      + cbn in E. inversion E. subst. contradiction.
      + cbn in E. inversion E. subst. apply Forall_cons in Hpre as [_ Hpre].
        exists pre, post. split; [reflexivity|]. split; [reflexivity|exact Hpre]. }
  case_decide as Hempty.
  { destruct (decide (key = k)) as [Hk|Hk].
    - split; (intros [H|(H1 & H2 & _)]; [left; exact H|]); congruence.
    - rewrite (Hskip Hk). reflexivity. }
  destruct (acc !! key) eqn:Hacc.
  { destruct (decide (key = k)) as [Hk|Hk].
    - split; (intros [H|(H1 & H2 & _)]; [left; exact H|]); congruence.
    - rewrite (Hskip Hk). reflexivity. }
  destruct (decide (key = k)) as [Hk|Hk].
  - rewrite Hk in *. rewrite lookup_insert_eq. split.
    + intros [H|[H _]]; [|discriminate H]. inversion H. subst m. right.
      split; [exact Hacc|]. split; [exact Hempty|].
      exists [], marks. split; [reflexivity|]. split; [exact Hk|constructor].
    + intros [H|(_ & _ & pre & post & E & Hm & Hpre)]; [congruence|].
      left. destruct pre as [|y pre].
      * cbn in E. inversion E. reflexivity.
      * cbn in E. inversion E. subst. apply Forall_cons in Hpre as [Hy _]. contradiction.
  - rewrite lookup_insert_ne by exact Hk. rewrite (Hskip Hk). reflexivity.
Qed.

(** X2. The exact map holds, under every non-empty sanitised key, the first
    mark of the list with that key; later marks with the same key are
    dropped. *)
Theorem buildExactMap_first_wins (marks : list Mark) (k : string) (m : Mark) :
  buildExactMap marks !! k = Some m <->
  k <> "" /\
  exists pre post,
    marks = pre ++ m :: post /\ sanitizeLabel (MarkNoSpaces m) = k /\
    Forall (fun m' => sanitizeLabel (MarkNoSpaces m') <> k) pre.
Proof.
  unfold buildExactMap. rewrite buildExactMap_fold, lookup_empty. split.
  - intros [H|(_ & H)]; [discriminate H|exact H].
  - intros H. right. split; [reflexivity|exact H].
Qed.

Lemma seedSet_fold (entries : list string) (k : string) :
  forall acc : gset string,
    k ∈ fold_left
          (fun set entry =>
             let normalized := sanitizeLabel entry in
             if decide (normalized = "") then set else {[normalized]} ∪ set)
          entries acc <->
    k ∈ acc \/ (k <> "" /\ exists e, e ∈ entries /\ sanitizeLabel e = k).
Proof.
  induction entries as [|x entries IH]; intros acc.
  { cbn [fold_left]. split; [intros H; left; exact H|].
    intros [H|(_ & e & He & _)]; [exact H|]. inversion He. }
  cbn [fold_left]. rewrite IH. clear IH. cbn zeta. case_decide as E.
  - split.
    + intros [H|(Hk & e & He & Hs)]; [left; exact H|].
      right. split; [exact Hk|]. exists e. split; [right; exact He|exact Hs].
    + intros [H|(Hk & e & He & Hs)]; [left; exact H|].
      apply elem_of_cons in He as [->|He]; [congruence|].
      right. split; [exact Hk|]. exists e. split; assumption.
  - rewrite elem_of_union, elem_of_singleton. split.
    + intros [[->|H]|(Hk & e & He & Hs)].
      * right. split; [exact E|]. exists x. split; [left|reflexivity].
      * left. exact H.
      * right. split; [exact Hk|]. exists e. split; [right; exact He|exact Hs].
    + intros [H|(Hk & e & He & Hs)]; [left; right; exact H|].
      apply elem_of_cons in He as [->|He]; [left; left; symmetry; exact Hs|].
      right. split; [exact Hk|]. exists e. split; assumption.
Qed.

(** The seed set holds exactly the non-empty sanitised forms of the
    entries of the seed file, so a seed is recognised whatever its case,
    spacing or punctuation. *)
Lemma seedSet_spec (entries : list string) (k : string) :
  k ∈ seedSet entries <-> k <> "" /\ exists e, e ∈ entries /\ sanitizeLabel e = k.
Proof.
  unfold seedSet. rewrite seedSet_fold. split.
  - intros [H|H]; [|exact H]. apply not_elem_of_empty in H. contradiction.
  - intros H. right. exact H.
Qed.

Lemma SetPopularTokens_spec (tokens : gset string) (t : string) :
  t ∈ SetPopularTokens tokens <->
  t ∈ defaultPopularTokens \/
  (t <> "" /\ exists token, token ∈ tokens /\ sanitizeLabel token = t).
Proof.
  unfold SetPopularTokens.
  apply (set_fold_ind_L
           (fun acc X =>
              t ∈ acc <->
              t ∈ defaultPopularTokens \/
              (t <> "" /\ exists token, token ∈ X /\ sanitizeLabel token = t))).
  - split; [intros H; left; exact H|].
    intros [H|(_ & token & Ht & _)]; [exact H|]. apply not_elem_of_empty in Ht. contradiction.
  - intros x X acc Hx IH. cbn zeta. case_decide as E.
    + rewrite IH. split.
      * intros [H|(Hk & token & Ht & Hs)]; [left; exact H|].
        right. split; [exact Hk|]. exists token. split; [|exact Hs].
        apply elem_of_union. right. exact Ht.
      * intros [H|(Hk & token & Ht & Hs)]; [left; exact H|].
        apply elem_of_union in Ht as [Ht|Ht].
        -- apply elem_of_singleton in Ht. subst token. congruence.
        -- right. split; [exact Hk|]. exists token. split; assumption.
    + rewrite elem_of_union, elem_of_singleton, IH. split.
      * intros [->|[H|(Hk & token & Ht & Hs)]].
        -- right. split; [exact E|]. exists x. split; [|reflexivity].
           apply elem_of_union. left. apply elem_of_singleton. reflexivity.
        -- left. exact H.
        -- right. split; [exact Hk|]. exists token. split; [|exact Hs].
           apply elem_of_union. right. exact Ht.
      * intros [H|(Hk & token & Ht & Hs)]; [right; left; exact H|].
        apply elem_of_union in Ht as [Ht|Ht].
        -- apply elem_of_singleton in Ht. subst token. left. symmetry. exact Hs.
        -- right. right. split; [exact Hk|]. exists token. split; assumption.
Qed.

(** X3. After [SetPopularTokens], a token is popular exactly when its
    sanitised form is not empty and is a baseline token or the sanitised
    form of a supplied token. *)
Theorem IsPopularToken_SetPopularTokens (tokens : gset string) (token : string) :
  IsPopularToken (SetPopularTokens tokens) token = true <->
  sanitizeLabel token <> "" /\
  (sanitizeLabel token ∈ defaultPopularTokens \/
   exists supplied, supplied ∈ tokens /\ sanitizeLabel supplied = sanitizeLabel token).
Proof.
  unfold IsPopularToken. cbn zeta. case_decide as E.
  - split; [discriminate|]. intros [H _]. contradiction.
  - rewrite bool_decide_eq_true, SetPopularTokens_spec. split.
    + intros [H|(_ & H)]; (split; [exact E|]); [left; exact H|right; exact H].
    + intros [_ [H|H]]; [left; exact H|right; split; [exact E|exact H]].
Qed.

(** X4. The heuristic scorer has six outcomes; it never yields the scores 1
    and 4. *)
Theorem Score_outcomes (popular : gset string) (isCommonWord : string -> bool)
    (s : option trademarkIndex) (profile : DomainProfile) :
  let r := Score popular isCommonWord s profile in
  (tmScore r, tmType r, tmConfidence r) ∈
    [(0, "none", 0.2%Q); (0, "generic", 0.4%Q); (2, "generic", 0.6%Q);
     (2, "popular", 0.75%Q); (3, "popular", 0.9%Q); (5, "fanciful", 1.0%Q)] /\
  (tmType r = "none" -> tmMatched r = "").
Proof.
  cbn zeta. unfold Score. destruct s as [index|]; [|split; [set_solver|reflexivity]].
  cbn zeta. case_decide as E; [split; [set_solver|reflexivity]|].
  destruct (lookupExact index _) as [entry|]; [|split; [set_solver|reflexivity]].
  assert (Hc : classify popular index entry = "fanciful" \/
               classify popular index entry = "popular" \/
               classify popular index entry = "generic").
  { unfold classify. cbn zeta. case_bool_decide; [tauto|].
    destruct (IsFanciful entry); [tauto|].
    destruct (IsPopularToken _ _); tauto. }
  destruct Hc as [Hc|[Hc|Hc]]; rewrite Hc; cbn;
    destruct (isCommonWord _); try destruct (IsPopularToken _ _);
    (split; [cbn; set_solver|cbn; discriminate]).
Qed.

(** ** Domain normalisation *)

Lemma IndexByte_None (s : string) (c : ascii) :
  IndexByte s c = None <-> sforall (fun d => negb (Ascii.eqb d c)) s = true.
Proof.
  induction s as [|d s IH]; [split; reflexivity|].
  cbn [IndexByte sforall]. destruct (Ascii.eqb d c).
  - split; discriminate.
  - cbn [negb andb]. rewrite <- IH. destruct (IndexByte s c); split; congruence.
Qed.

Lemma stake_IndexByte (s : string) (c : ascii) :
  forall i, IndexByte s c = Some i ->
            sforall (fun d => negb (Ascii.eqb d c)) (stake i s) = true.
Proof.
  induction s as [|d s IH]; intros i H; [discriminate H|].
  cbn [IndexByte] in H. destruct (Ascii.eqb d c) eqn:E.
  - inversion H. reflexivity.
  - destruct (IndexByte s c) as [j|]; [|discriminate H]. inversion H. subst i.
    cbn [stake sforall]. rewrite E. cbn [negb andb]. apply IH. reflexivity.
Qed.

(** What [cutAt] returns does not contain the separator. *)
Lemma cutAt_free (s : string) (c : ascii) :
  sforall (fun d => negb (Ascii.eqb d c)) (cutAt s c) = true.
Proof.
  unfold cutAt. destruct (IndexByte s c) as [i|] eqn:E.
  - apply stake_IndexByte, E.
  - apply IndexByte_None, E.
Qed.

Lemma sforall_cutAt (q : ascii -> bool) (s : string) (c : ascii) :
  sforall q s = true -> sforall q (cutAt s c) = true.
Proof.
  intros H. unfold cutAt. destruct (IndexByte s c); [apply sforall_stake, H|exact H].
Qed.

Lemma sforall_TrimPrefix (q : ascii -> bool) (s p : string) :
  sforall q s = true -> sforall q (TrimPrefix s p) = true.
Proof.
  intros H. unfold TrimPrefix. destruct (HasPrefix s p); [apply sforall_sdrop, H|exact H].
Qed.

Lemma sforall_TrimSuffix (q : ascii -> bool) (s p : string) :
  sforall q s = true -> sforall q (TrimSuffix s p) = true.
Proof.
  intros H. unfold TrimSuffix. destruct (HasSuffix s p); [apply sforall_stake, H|exact H].
Qed.

Lemma sforall_stripProtocol (q : ascii -> bool) (s : string) :
  sforall q s = true -> sforall q (stripProtocol s) = true.
Proof.
  intros H. unfold stripProtocol.
  destruct (HasPrefix s "https://"); [apply sforall_sdrop, H|].
  destruct (HasPrefix s "http://"); [apply sforall_sdrop, H|exact H].
Qed.

Lemma sdrop_LastIndexByte (s : string) (c : ascii) :
  match LastIndexByte s c with
  | Some i => sforall (fun d => negb (Ascii.eqb d c)) (sdrop (S i) s) = true
  | None => sforall (fun d => negb (Ascii.eqb d c)) s = true
  end.
Proof.
  induction s as [|d s IH]; [reflexivity|].
  cbn [LastIndexByte]. destruct (LastIndexByte s c) as [i|].
  - exact IH.
  - destruct (Ascii.eqb d c) eqn:E.
    + exact IH.
    + cbn [sforall]. rewrite E. exact IH.
Qed.

Lemma lower_ascii_not_upper (c : ascii) : negb (is_upper (lower_ascii c)) = true.
Proof. destruct c as [[] [] [] [] [] [] [] []]; vm_compute; reflexivity. Qed.

(** The steps of [hostOf] after the lower-casing only cut the string. *)
Lemma sforall_hostOf (q : ascii -> bool) (input : string) :
  sforall q (ToLower (TrimSpace input)) = true -> sforall q (hostOf input) = true.
Proof.
  intros H. unfold hostOf. cbn zeta. cbn [fold_left].
  apply sforall_cutAt, sforall_TrimPrefix, sforall_Trim.
  assert (H3 : sforall q (cutAt (cutAt (cutAt (stripProtocol (ToLower (TrimSpace input))) "/") "?") "#") = true).
  { apply sforall_cutAt, sforall_cutAt, sforall_cutAt, sforall_stripProtocol, H. }
  destruct (LastIndexByte _ "@"); [apply sforall_sdrop, H3|exact H3].
Qed.

(** X5. The host of a profile holds no upper-case letter and none of the
    delimiters of scheme, path, query, fragment, credentials and port. *)
Theorem NormalizeDomain_host_clean (input : string) :
  let host := Host (NormalizeDomain input) in
  sforall (fun c => negb (is_upper c)) host = true /\
  Forall (fun c => IndexByte host c = None) ["/"; "?"; "#"; "@"; ":"]%char.
Proof.
  cbn zeta. change (Host (NormalizeDomain input)) with (hostOf input). split.
  { apply sforall_hostOf. unfold ToLower. apply sforall_smap. exact lower_ascii_not_upper. }
  set (lower := stripProtocol (ToLower (TrimSpace input))).
  set (nohas := fun c : ascii => fun d : ascii => negb (Ascii.eqb d c)).
  assert (Tail : forall c s,
            sforall (nohas c) s = true ->
            sforall (nohas c) (cutAt (TrimPrefix (Trim s ".") "www.") ":") = true).
  { intros c s H. apply sforall_cutAt, sforall_TrimPrefix, sforall_Trim, H. }
  assert (At : forall c s,
            sforall (nohas c) s = true ->
            sforall (nohas c)
              match LastIndexByte s "@" with
              | Some idx => sdrop (S idx) s
              | None => s
              end = true).
  { intros c s H. destruct (LastIndexByte s "@"); [apply sforall_sdrop, H|exact H]. }
  repeat apply Forall_cons_2; [| | | | |constructor]; apply IndexByte_None;
    unfold hostOf; cbn zeta; cbn [fold_left]; fold lower.
  - apply (Tail "/"%char), (At "/"%char), sforall_cutAt, sforall_cutAt, cutAt_free.
  - apply (Tail "?"%char), (At "?"%char), sforall_cutAt, cutAt_free.
  - apply (Tail "#"%char), (At "#"%char), cutAt_free.
  - apply (Tail "@"%char).
    pose proof (sdrop_LastIndexByte (cutAt (cutAt (cutAt lower "/") "?") "#") "@") as H.
    destruct (LastIndexByte _ "@"); exact H.
  - apply cutAt_free.
Qed.

(** The brand token is made of [a-z0-9] only unless the core label has
    no such character, in which case it is the core label itself; it is
    empty only if the core label is. *)
Lemma NormalizeDomain_brand_token (input : string) :
  let p := NormalizeDomain input in
  (sforall is_alnum (BrandToken p) = true \/
   (BrandToken p = Core p /\ stripNonAlphaNum (Core p) = "")) /\
  (BrandToken p = "" <-> Core p = "").
Proof.
  cbn zeta. unfold NormalizeDomain. cbn [BrandToken Core]. case_decide as E.
  - split; [right; split; [reflexivity|exact E]|reflexivity].
  - split.
    + left. unfold stripNonAlphaNum. apply sforall_sfilter. intros c H. exact H.
    + split; [intros H; contradiction|]. intros H. rewrite H in E. contradiction.
Qed.

Lemma appendUnique_inv (s : list string) (v : string) :
  NoDup s -> ("" ∉ s) -> NoDup (appendUnique s v) /\ ("" ∉ appendUnique s v).
Proof.
  intros Hnd Hne. unfold appendUnique. case_decide as E; [split; assumption|].
  case_decide as Hin; [split; assumption|]. split.
  - apply NoDup_app. split; [exact Hnd|]. split; [|apply NoDup_singleton].
    intros x Hx Hx'. apply list_elem_of_singleton in Hx'. subst x. contradiction.
  - rewrite elem_of_app, list_elem_of_singleton. intros [H|H]; [contradiction|congruence].
Qed.

Lemma appendUnique_elem (s : list string) (v x : string) :
  x ∈ appendUnique s v -> x ∈ s \/ x = v.
Proof.
  unfold appendUnique. case_decide; [tauto|]. case_decide; [tauto|].
  rewrite elem_of_app, list_elem_of_singleton. tauto.
Qed.

(** X6. The compound splits of a token hold no duplicate and no empty
    string, and each one is a generic suffix or the token without a generic
    suffix at its end or start; a token of fewer than five bytes has
    none. *)
Theorem compoundSplits_spec (token : string) :
  NoDup (compoundSplits token) /\
  ("" ∉ compoundSplits token) /\
  (forall x, x ∈ compoundSplits token ->
     exists suffix, suffix ∈ genericSuffixes /\
       (String.length suffix + 2 < String.length token)%nat /\
       (x = suffix \/ x = TrimSuffix token suffix \/ x = TrimPrefix token suffix)) /\
  ((String.length token < 5)%nat -> compoundSplits token = []).
Proof.
  unfold compoundSplits.
  set (step := fun splits suffix => _).
  assert (G : forall (l : list string) (acc : list string),
            (forall x, x ∈ l -> x ∈ genericSuffixes) ->
            NoDup acc -> ("" ∉ acc) ->
            (forall x, x ∈ acc ->
               exists suffix, suffix ∈ genericSuffixes /\
                 (String.length suffix + 2 < String.length token)%nat /\
                 (x = suffix \/ x = TrimSuffix token suffix \/ x = TrimPrefix token suffix)) ->
            NoDup (fold_left step l acc) /\ ("" ∉ fold_left step l acc) /\
            (forall x, x ∈ fold_left step l acc ->
               exists suffix, suffix ∈ genericSuffixes /\
                 (String.length suffix + 2 < String.length token)%nat /\
                 (x = suffix \/ x = TrimSuffix token suffix \/ x = TrimPrefix token suffix))).
  { induction l as [|suffix l IH]; intros acc Hl Hnd Hne Hel; [cbn [fold_left]; tauto|].
    cbn [fold_left].
    assert (Hstep : NoDup (step acc suffix) /\ ("" ∉ step acc suffix) /\
                    (forall x, x ∈ step acc suffix ->
                       x ∈ acc \/
                       ((String.length suffix + 2 < String.length token)%nat /\
                        (x = suffix \/ x = TrimSuffix token suffix \/ x = TrimPrefix token suffix)))).
    { unfold step. cbn zeta.
      destruct (String.length suffix + 2 <? String.length token)%nat eqn:Hlong.
      2:{ rewrite !andb_false_r. split; [exact Hnd|]. split; [exact Hne|tauto]. }
      apply Nat.ltb_lt in Hlong. rewrite !andb_true_r.
      destruct (HasSuffix token suffix); destruct (HasPrefix token suffix).
      - destruct (appendUnique_inv acc (TrimSuffix token suffix) Hnd Hne) as [A1 A2].
        destruct (appendUnique_inv _ suffix A1 A2) as [B1 B2].
        destruct (appendUnique_inv _ suffix B1 B2) as [C1 C2].
        destruct (appendUnique_inv _ (TrimPrefix token suffix) C1 C2) as [D1 D2].
        split; [exact D1|]. split; [exact D2|]. intros x Hx.
        apply appendUnique_elem in Hx as [Hx| ->]; [|tauto].
        apply appendUnique_elem in Hx as [Hx| ->]; [|tauto].
        apply appendUnique_elem in Hx as [Hx| ->]; [|tauto].
        apply appendUnique_elem in Hx as [Hx| ->]; tauto.
      - destruct (appendUnique_inv acc (TrimSuffix token suffix) Hnd Hne) as [A1 A2].
        destruct (appendUnique_inv _ suffix A1 A2) as [B1 B2].
        split; [exact B1|]. split; [exact B2|]. intros x Hx.
        apply appendUnique_elem in Hx as [Hx| ->]; [|tauto].
        apply appendUnique_elem in Hx as [Hx| ->]; tauto.
      - destruct (appendUnique_inv acc suffix Hnd Hne) as [C1 C2].
        destruct (appendUnique_inv _ (TrimPrefix token suffix) C1 C2) as [D1 D2].
        split; [exact D1|]. split; [exact D2|]. intros x Hx.
        apply appendUnique_elem in Hx as [Hx| ->]; [|tauto].
        apply appendUnique_elem in Hx as [Hx| ->]; tauto.
      - split; [exact Hnd|]. split; [exact Hne|tauto]. }
    destruct Hstep as (S1 & S2 & S3).
    apply (IH (step acc suffix)); [|exact S1|exact S2|].
    - intros x Hx. apply Hl. right. exact Hx.
    - intros x Hx. destruct (S3 x Hx) as [Hacc|Hcase]; [apply Hel, Hacc|].
      exists suffix. split; [apply Hl; left|exact Hcase]. }
  destruct (G genericSuffixes []) as (R1 & R2 & R3).
  { tauto. }
  { constructor. }
  { apply not_elem_of_nil. }
  { intros x Hx. inversion Hx. }
  split; [exact R1|]. split; [exact R2|]. split; [exact R3|].
  intros Hshort. destruct (fold_left step genericSuffixes []) as [|x rest] eqn:E; [reflexivity|].
  exfalso. destruct (R3 x) as (sf & Hsf & Hlong & _); [left|].
  assert (Hlen : (2 <= String.length sf)%nat); [|lia].
  clear Hlong. revert sf Hsf. apply Forall_forall. unfold genericSuffixes.
  repeat (apply Forall_cons_2; [cbn; lia|]). constructor.
Qed.

(** ** Token helpers *)

Lemma trim_left_app (p : ascii -> bool) (s t : string) :
  trim_left p (s ++ t)%string =
  if sforall p s then trim_left p t else (trim_left p s ++ t)%string.
Proof.
  induction s as [|c s IH]; [reflexivity|].
  rewrite sapp_cons. cbn [trim_left sforall]. destruct (p c); [exact IH|reflexivity].
Qed.

Lemma trim_left_all (p : ascii -> bool) (s : string) :
  sforall p s = true -> trim_left p s = "".
Proof.
  induction s as [|c s IH]; [reflexivity|].
  cbn [sforall trim_left]. destruct (p c); [exact IH|discriminate].
Qed.

(** [trim_right], from the front. *)
Lemma trim_right_cons (p : ascii -> bool) (c : ascii) (s : string) :
  trim_right p (String c s) =
  if sforall p s then (if p c then "" else String c "") else String c (trim_right p s).
Proof.
  unfold trim_right. rewrite rev_cons, trim_left_app, sforall_rev.
  destruct (sforall p s) eqn:E.
  - cbn [trim_left]. destruct (p c); reflexivity.
  - rewrite rev_app_distr. reflexivity.
Qed.

Lemma trim_left_idempotent (p : ascii -> bool) (s : string) :
  trim_left p (trim_left p s) = trim_left p s.
Proof.
  induction s as [|c s IH]; [reflexivity|].
  cbn [trim_left]. destruct (p c) eqn:E; [exact IH|].
  cbn [trim_left]. rewrite E. reflexivity.
Qed.

Lemma trim_right_idempotent (p : ascii -> bool) (s : string) :
  trim_right p (trim_right p s) = trim_right p s.
Proof. unfold trim_right. rewrite rev_involutive, trim_left_idempotent. reflexivity. Qed.

Lemma trim_left_trim_right (p : ascii -> bool) (s : string) :
  trim_left p s = s -> trim_left p (trim_right p s) = trim_right p s.
Proof.
  destruct s as [|c s]; [reflexivity|].
  cbn [trim_left]. destruct (p c) eqn:E.
  - intros H. exfalso.
    assert (L : forall u, (String.length (trim_left p u) <= String.length u)%nat).
    { induction u as [|d u IHu]; [reflexivity|].
      cbn [trim_left]. destruct (p d); cbn [String.length]; lia. }
    pose proof (L s) as Hl. rewrite H in Hl. cbn [String.length] in Hl. lia.
  - intros _. rewrite trim_right_cons. destruct (sforall p s).
    + rewrite E. cbn [trim_left]. rewrite E. reflexivity.
    + cbn [trim_left]. rewrite E. reflexivity.
Qed.

Lemma TrimSpace_idempotent (s : string) : TrimSpace (TrimSpace s) = TrimSpace s.
Proof.
  unfold TrimSpace.
  rewrite (trim_left_trim_right _ _ (trim_left_idempotent _ s)).
  apply trim_right_idempotent.
Qed.

Lemma uniqueFrom_spec (items : list string) :
  forall seen : gset string,
    let out := uniqueFrom seen items in
    NoDup (map ToLower out) /\
    Forall (fun t => t <> "" /\ TrimSpace t = t /\ ToLower t ∉ seen) out /\
    sublist out (map TrimSpace items) /\
    (forall x, x ∈ items -> TrimSpace x <> "" ->
               ToLower (TrimSpace x) ∈ seen \/ ToLower (TrimSpace x) ∈ map ToLower out).
Proof.
  induction items as [|item rest IH]; intros seen; cbn zeta.
  { cbn [uniqueFrom map]. split; [constructor|]. split; [constructor|].
    split; [constructor|]. intros x Hx. inversion Hx. }
  cbn [uniqueFrom map]. cbn zeta. case_decide as Hempty.
  { destruct (IH seen) as (H1 & H2 & H3 & H4).
    split; [exact H1|]. split; [exact H2|]. split; [apply sublist_cons, H3|].
    intros x Hx Hne. apply elem_of_cons in Hx as [->|Hx]; [contradiction|]. apply H4; assumption. }
  case_decide as Hseen.
  { destruct (IH seen) as (H1 & H2 & H3 & H4).
    split; [exact H1|]. split; [exact H2|]. split; [apply sublist_cons, H3|].
    intros x Hx Hne. apply elem_of_cons in Hx as [->|Hx]; [left; exact Hseen|]. apply H4; assumption. }
  destruct (IH ({[ToLower (TrimSpace item)]} ∪ seen)) as (H1 & H2 & H3 & H4).
  split; [|split; [|split]].
  - cbn [map]. apply NoDup_cons. split; [|exact H1].
    intros Hin. apply list_elem_of_fmap in Hin as (t & Ht & Hin).
    rewrite Forall_forall in H2. destruct (H2 t Hin) as (_ & _ & Hnot).
    apply Hnot. apply elem_of_union. left. apply elem_of_singleton. symmetry. exact Ht.
  - apply Forall_cons. split.
    + split; [exact Hempty|]. split; [apply TrimSpace_idempotent|exact Hseen].
    + eapply Forall_impl; [exact H2|]. intros t (T1 & T2 & T3).
      split; [exact T1|]. split; [exact T2|]. intros Hin. apply T3.
      apply elem_of_union. right. exact Hin.
  - apply sublist_skip, H3.
  - intros x Hx Hne. cbn [map]. apply elem_of_cons in Hx as [->|Hx].
    + right. left.
    + destruct (H4 x Hx Hne) as [Hin|Hin]; [|right; right; exact Hin].
      apply elem_of_union in Hin as [Hin|Hin]; [|left; exact Hin].
      apply elem_of_singleton in Hin. right. rewrite Hin. left.
Qed.

(** X7. [uniqueStrings] keeps, in their order, the trimmed non-empty
    entries, one for each spelling compared case-insensitively. *)
Theorem uniqueStrings_spec (items : list string) :
  let out := uniqueStrings items in
  NoDup (map ToLower out) /\
  Forall (fun t => t <> "" /\ TrimSpace t = t) out /\
  sublist out (map TrimSpace items) /\
  (forall x, x ∈ items -> TrimSpace x <> "" -> ToLower (TrimSpace x) ∈ map ToLower out).
Proof.
  cbn zeta. unfold uniqueStrings.
  destruct (uniqueFrom_spec items ∅) as (H1 & H2 & H3 & H4).
  split; [exact H1|]. split; [|split; [exact H3|]].
  - eapply Forall_impl; [exact H2|]. intros t (T1 & T2 & _). split; assumption.
  - intros x Hx Hne. destruct (H4 x Hx Hne) as [Hin|Hin]; [|exact Hin].
    apply not_elem_of_empty in Hin. contradiction.
Qed.

Lemma sortStrings_sorted (items : list string) :
  StronglySorted String.le (sortStrings items).
Proof. unfold sortStrings. apply StronglySorted_merge_sort; apply _. Qed.

Lemma sortStrings_perm (items : list string) : sortStrings items ≡ₚ items.
Proof. unfold sortStrings. apply merge_sort_Permutation. Qed.

Lemma StronglySorted_strict (l : list string) :
  StronglySorted String.le l -> NoDup l -> StronglySorted (strict String.le) l.
Proof.
  induction 1 as [|x l Hs IH Hx]; intros Hnd; [constructor|].
  apply NoDup_cons in Hnd as [Hnin Hnd]. constructor; [apply IH, Hnd|].
  rewrite Forall_forall in Hx |- *. intros y Hy. split; [apply Hx, Hy|].
  intros Hyx. apply Hnin.
  replace x with y; [exact Hy|]. apply (anti_symm String.le); [exact Hyx|apply Hx, Hy].
Qed.

(** X8. The tokens handed to the AI step are strictly increasing (sorted,
    without duplicates), and they are exactly the non-empty lower-cased and
    trimmed forms of the brand token, the core label, the tokens and the
    alternative splits of the profile. *)
Theorem collectDomainTokens_spec (profile : DomainProfile) :
  StronglySorted (strict String.le) (collectDomainTokens profile) /\
  (forall t, t ∈ collectDomainTokens profile <->
     t <> "" /\
     exists v, v ∈ BrandToken profile :: Core profile :: Tokens profile ++ AltSplits profile /\
               TrimSpace (ToLower v) = t).
Proof.
  unfold collectDomainTokens. cbn zeta. split.
  - apply StronglySorted_strict; [apply sortStrings_sorted|].
    rewrite sortStrings_perm. apply NoDup_remove_dups.
  - intros t. rewrite sortStrings_perm, elem_of_remove_dups, list_elem_of_filter, list_elem_of_fmap.
    cbn [app]. split.
    + intros [Hne (v & -> & Hv)]. split; [exact Hne|]. exists v. split; [exact Hv|reflexivity].
    + intros [Hne (v & Hv & <-)]. split; [exact Hne|]. exists v. split; [reflexivity|exact Hv].
Qed.

Lemma fields_go_free (p : ascii -> bool) (s : string) :
  forall cur : option string,
    (forall c0, cur = Some c0 -> c0 <> "" /\ sforall (fun r => negb (p r)) c0 = true) ->
    Forall (fun f => f <> "" /\ sforall (fun r => negb (p r)) f = true) (fields_go p cur s).
Proof.
  assert (Hcur : forall cur : option string,
            (forall c0, cur = Some c0 -> c0 <> "" /\ sforall (fun r => negb (p r)) c0 = true) ->
            Forall (fun f => f <> "" /\ sforall (fun r => negb (p r)) f = true)
              (option_list (String.rev <$> cur))).
  { intros [c0|] H; [|constructor]. cbn. apply Forall_cons. split; [|constructor].
    destruct (H c0 eq_refl) as [Hne Hall]. split; [|rewrite sforall_rev; exact Hall].
    intros E. apply Hne. rewrite <- (rev_involutive c0), E. reflexivity. }
  induction s as [|c s IH]; intros cur H; cbn [fields_go]; [apply Hcur, H|].
  destruct (p c) eqn:E.
  - apply Forall_app. split; [apply Hcur, H|]. apply IH. intros c0 Hc0. discriminate Hc0.
  - apply IH. intros c0 Hc0. inversion Hc0. subst c0. split; [discriminate|].
    cbn [sforall]. rewrite E. cbn [negb andb].
    destruct cur as [c1|]; [apply (H c1 eq_refl)|reflexivity].
Qed.

(** X9. [splitTokens] never returns an empty list; its tokens are not
    empty and hold no separator ([-], [_], [+], digit), unless the core
    label yields no token, in which case the label itself (with [_]
    replaced by [-]) is the only token. *)
Theorem splitTokens_spec (core : string) :
  let separator r := Ascii.eqb r "-" || Ascii.eqb r "_" || Ascii.eqb r "+" || is_digit r in
  splitTokens core <> [] /\
  (Forall (fun t => t <> "" /\ TrimSpace t = t /\ sforall (fun r => negb (separator r)) t = true)
     (splitTokens core) \/
   splitTokens core = [ReplaceByte core "_" "-"]).
Proof.
  cbn zeta. unfold splitTokens. cbn zeta.
  set (separator := fun r => Ascii.eqb r "-" || Ascii.eqb r "_" || Ascii.eqb r "+" || is_digit r).
  set (parts := FieldsFunc _ _).
  destruct (filter _ (map TrimSpace parts)) as [|t out] eqn:E.
  { split; [discriminate|right; reflexivity]. }
  split; [discriminate|left]. rewrite <- E. apply Forall_forall. intros x Hx.
  apply list_elem_of_filter in Hx as [Hne Hx]. apply list_elem_of_fmap in Hx as (f & -> & Hf).
  split; [exact Hne|]. split; [apply TrimSpace_idempotent|]. apply sforall_TrimSpace.
  pose proof (fields_go_free separator (ReplaceByte core "_" "-") None) as Hall.
  rewrite Forall_forall in Hall. apply Hall; [|exact Hf]. intros c0 Hc0. discriminate Hc0.
Qed.

(** ** The recommendation matrix is monotone *)

Lemma CombineRecommendation_rank (tr : TrademarkResult) (vice : ViceResult) :
  recommendationRank (Recommendation (CombineRecommendation tr vice)) =
  if (4 <=? tmScore tr) || (4 <=? viceScore vice) then 3
  else if (viceScore vice =? 3) || (tmScore tr =? 3) then 2
  else if (tmScore tr =? 2) || (tmScore tr =? 1) then 1
  else 0.
Proof.
  unfold CombineRecommendation. cbn [Recommendation].
  destruct ((4 <=? tmScore tr) || (4 <=? viceScore vice)); [reflexivity|].
  destruct ((viceScore vice =? 3) || (tmScore tr =? 3)); [reflexivity|].
  destruct (tmScore tr =? 2); [reflexivity|].
  destruct (tmScore tr =? 1); reflexivity.
Qed.

(** X10. Raising the trademark score or the vice score never lowers the
    severity of the combined recommendation. *)
Theorem CombineRecommendation_monotone (tr tr' : TrademarkResult) (vice vice' : ViceResult) :
  tmScore tr <= tmScore tr' ->
  viceScore vice <= viceScore vice' ->
  recommendationRank (Recommendation (CombineRecommendation tr vice)) <=
  recommendationRank (Recommendation (CombineRecommendation tr' vice')).
Proof.
  intros Ht Hv. rewrite !CombineRecommendation_rank.
  destruct (4 <=? tmScore tr) eqn:A1; destruct (4 <=? viceScore vice) eqn:A2;
    destruct (4 <=? tmScore tr') eqn:B1; destruct (4 <=? viceScore vice') eqn:B2;
    cbn [orb]; try lia;
    destruct (viceScore vice =? 3) eqn:A3; destruct (tmScore tr =? 3) eqn:A4;
    destruct (viceScore vice' =? 3) eqn:B3; destruct (tmScore tr' =? 3) eqn:B4;
    cbn [orb]; try lia;
    destruct (tmScore tr =? 2) eqn:A5; destruct (tmScore tr =? 1) eqn:A6;
    destruct (tmScore tr' =? 2) eqn:B5; destruct (tmScore tr' =? 1) eqn:B6;
    cbn [orb]; lia.
Qed.

Lemma CombineRecommendation_monotone_witness :
  recommendationRank
    (Recommendation (CombineRecommendation
       {| tmScore := 2; tmType := "generic"; tmMatched := "CARS"; tmConfidence := 0.6 |}
       {| viceScore := 0; Categories := []; viceConfidence := 0.99 |})) <=
  recommendationRank
    (Recommendation (CombineRecommendation
       {| tmScore := 3; tmType := "popular"; tmMatched := "CARS"; tmConfidence := 0.9 |}
       {| viceScore := 3; Categories := ["casino"]; viceConfidence := 0.8 |})).
Proof.
  apply CombineRecommendation_monotone; cbn; lia.
Defined.

(** The commercial downgrade lowers the severity of a recommendation by
    at most one step and never below ALLOW_WITH_CAUTION: ALLOW is reached
    by no downgrade. *)
Lemma commercialDowngrade_one_step (r : string) :
  recommendationRank r - 1 <= recommendationRank (commercialDowngrade r) <= recommendationRank r /\
  (commercialDowngrade r = "ALLOW" -> r = "ALLOW").
Proof.
  unfold commercialDowngrade. case_decide as E1.
  { subst r. change (recommendationRank "BLOCK") with 3.
    change (recommendationRank "REVIEW") with 2. split; [lia|discriminate]. }
  case_decide as E2.
  { subst r. change (recommendationRank "REVIEW") with 2.
    change (recommendationRank "ALLOW_WITH_CAUTION") with 1. split; [lia|discriminate]. }
  split; [lia|tauto].
Qed.

(** ** The USPTO cache of a job *)

(** X11. A brand token is looked up at most once per job.  After a lookup for
    a token, a second lookup for it does not consult the client (whatever
    the client would answer then) and leaves the cache alone; it reports
    the same validity, and the same result when the first one was valid.  A
    failed lookup is cached as well. *)
Theorem lookupUSPTO_cached (s s' : Server) (brandToken : string)
    (cache : gmap string Usp.LookupResult) :
  is_Some (usptoClient s) ->
  is_Some (usptoClient s') ->
  let first := lookupUSPTO s brandToken cache in
  let second := lookupUSPTO s' brandToken (snd first) in
  snd second = snd first /\
  snd (fst second) = snd (fst first) /\
  (snd (fst first) = true -> fst (fst second) = fst (fst first)) /\
  (ToLower (TrimSpace brandToken) <> "" ->
   is_Some (snd first !! ToLower (TrimSpace brandToken))).
Proof.
  intros [f Hf] [f' Hf']. cbn zeta. unfold lookupUSPTO. rewrite Hf, Hf'.
  case_decide as Hkey.
  { cbn [fst snd]. split; [reflexivity|]. split; [reflexivity|]. split; [reflexivity|].
    intros Hne. contradiction. }
  destruct (cache !! ToLower (TrimSpace brandToken)) as [cached|] eqn:Hc.
  { cbn [fst snd]. rewrite Hc. cbn [fst snd].
    split; [reflexivity|]. split; [reflexivity|]. split; [reflexivity|].
    intros _. eexists; reflexivity. }
  destruct (f (ToLower (TrimSpace brandToken))) as [result|].
  - cbn [fst snd]. rewrite lookup_insert_eq. cbn [fst snd].
    split; [reflexivity|]. split; [reflexivity|]. split; [reflexivity|].
    intros _. eexists; reflexivity.
  - cbn [fst snd]. rewrite lookup_insert_eq. cbn [fst snd Usp.Checked].
    split; [reflexivity|]. split; [reflexivity|]. split; [discriminate|].
    intros _. eexists; reflexivity.
Qed.

Lemma lookupUSPTO_cached_witness :
  snd (lookupUSPTO (lookupServer downLookup) "Acme"
         (snd (lookupUSPTO (lookupServer acmeLookup) "Acme" ∅))) =
  snd (lookupUSPTO (lookupServer acmeLookup) "Acme" ∅) /\
  snd (fst (lookupUSPTO (lookupServer downLookup) "Acme"
              (snd (lookupUSPTO (lookupServer acmeLookup) "Acme" ∅)))) = true /\
  is_Some (snd (lookupUSPTO (lookupServer acmeLookup) "Acme" ∅) !! "acme").
Proof.
  destruct (lookupUSPTO_cached (lookupServer acmeLookup) (lookupServer downLookup) "Acme" ∅)
    as (H1 & H2 & _ & H4).
  - eexists; reflexivity.
  - eexists; reflexivity.
  - split; [exact H1|]. split; [rewrite H2; reflexivity|].
    apply H4. vm_compute. discriminate.
Defined.

(** ** Ranges of the stored scores and confidences *)

Lemma clampScore_range (value : Z) : 0 <= clampScore value <= 5.
Proof.
  unfold clampScore. destruct (value <? 0) eqn:E1; [lia|].
  destruct (5 <? value) eqn:E2; lia.
Qed.

Lemma clampConfidence_range (value : Q) :
  (0 <= clampConfidence value)%Q /\ (clampConfidence value <= 1)%Q.
Proof.
  unfold clampConfidence. destruct (Qltb value 0) eqn:E1.
  { split; [apply Qle_refl|discriminate]. }
  destruct (Qltb 1 value) eqn:E2.
  { split; [discriminate|apply Qle_refl]. }
  apply Qltb_false in E1, E2. split; assumption.
Qed.

Lemma Score_in_range (popular : gset string) (isCommonWord : string -> bool)
    (scorer : option trademarkIndex) (profile : DomainProfile) :
  let r := Score popular isCommonWord scorer profile in
  0 <= tmScore r <= 5 /\ (0 <= tmConfidence r)%Q /\ (tmConfidence r <= 1)%Q.
Proof.
  cbn zeta. unfold Score. destruct scorer as [index|]; [|cbn; split; [lia|split; discriminate]].
  cbn zeta. case_decide; [cbn; split; [lia|split; discriminate]|].
  destruct (lookupExact index _) as [entry|]; [|cbn; split; [lia|split; discriminate]].
  repeat case_decide; destruct (isCommonWord _); try destruct (IsPopularToken _ _);
    cbn; (split; [lia|split; discriminate]).
Qed.

Lemma scanExact_in_range (popular : gset string) (decider : option FancifulDecider)
    (sldToken : string) (exacts : list Usp.Mark) :
  forall closeMatches cm r,
    scanExact popular decider sldToken closeMatches exacts = (cm, Some r) ->
    0 <= tmScore r <= 5 /\ (0 <= tmConfidence r)%Q /\ (tmConfidence r <= 1)%Q.
Proof.
  induction exacts as [|x exacts IH]; intros closeMatches cm r H; [discriminate H|].
  cbn [scanExact] in H. case_decide; [exact (IH _ _ _ H)|].
  cbn zeta in H. case_decide; [exact (IH _ _ _ H)|].
  destruct (match decider with Some d => _ | None => false end);
    [|destruct (IsPopularToken popular (Usp.MarkText x))];
    inversion H; subst; cbn; (split; [lia|split; discriminate]).
Qed.

Lemma resolveTrademark_in_range (popular : gset string) (decider : option FancifulDecider)
    (profile : DomainProfile) (hasLookup : bool) (lookup : Usp.LookupResult)
    (fallback : TrademarkResult) :
  0 <= tmScore fallback <= 5 /\ (0 <= tmConfidence fallback)%Q /\ (tmConfidence fallback <= 1)%Q ->
  let r := fst (resolveTrademark popular decider profile hasLookup lookup fallback) in
  0 <= tmScore r <= 5 /\ (0 <= tmConfidence r)%Q /\ (tmConfidence r <= 1)%Q.
Proof.
  intros Hf. cbn zeta. unfold resolveTrademark. cbn zeta.
  destruct ((0 <? tmScore fallback) && negb (String.eqb (tmMatched fallback) "")); [exact Hf|].
  destruct (hasLookup && Usp.Checked lookup); [|cbn; split; [lia|split; discriminate]].
  destruct (scanExact _ _ _ _ _) as [cm [r|]] eqn:E.
  - cbn [fst]. eapply scanExact_in_range, E.
  - cbn; split; [lia|split; discriminate].
Qed.

Lemma scoreFrom_in_range (v : ViceScorer) (domain brand : string) (n : nat) :
  (n <= 5)%nat ->
  let r := scoreFrom v domain brand n in
  0 <= viceScore r <= 5 /\ (0 <= viceConfidence r)%Q /\ (viceConfidence r <= 1)%Q /\
  (viceScore r = 0 <-> Categories r = []).
Proof.
  cbn zeta. induction n as [|n IH]; intros Hn.
  { cbn. split; [lia|]. split; [discriminate|]. split; [discriminate|]. tauto. }
  cbn [scoreFrom]. cbn zeta. destruct (0 <? length _)%nat eqn:E; [|apply IH; lia].
  cbn [viceScore viceConfidence Categories]. split; [lia|].
  assert (C : (S n = 1 \/ S n = 2 \/ S n = 3 \/ S n = 4 \/ S n = 5)%nat) by lia.
  split; [|split].
  - destruct C as [->|[->|[->|[->| ->]]]]; discriminate.
  - destruct C as [->|[->|[->|[->| ->]]]]; discriminate.
  - split; [lia|]. intros Hnil. exfalso.
    apply Nat.ltb_lt in E.
    destruct (hitsAt v domain brand (Z.of_nat (S n))) as [|h hits] eqn:Eh; [cbn in E; lia|].
    assert (Hin : h ∈ dedupe (h :: hits)).
    { rewrite <- Eh. apply (dedupe_hits v domain brand). apply hitsAt_matches.
      rewrite Eh. left. }
    rewrite Hnil in Hin. inversion Hin.
Qed.

Lemma ViceScore_in_range (v : option ViceScorer) (profile : DomainProfile) :
  let r := ViceScore v profile in
  0 <= viceScore r <= 5 /\ (0 <= viceConfidence r)%Q /\ (viceConfidence r <= 1)%Q /\
  (viceScore r = 0 <-> Categories r = []).
Proof.
  cbn zeta. unfold ViceScore. destruct v as [v|].
  - apply scoreFrom_in_range. lia.
  - cbn. split; [lia|]. split; [discriminate|]. split; [discriminate|]. tauto.
Qed.

Section StoredRanges.

Variable isCommonWord : string -> bool.
Variable s : Server.

Lemma heuristics_results (profile : DomainProfile) (domainValue : string)
    (scorer : option trademarkIndex) (lookupResult : Usp.LookupResult) (lookupValid : bool) :
  let h := heuristics isCommonWord s profile domainValue scorer lookupResult lookupValid in
  hTrademark h =
    fst (resolveTrademark (popularTokens s) (fancifulDecider s) profile lookupValid lookupResult
           (Score (popularTokens s) isCommonWord scorer profile)) /\
  hVice h = ViceScore (viceScorer s) profile.
Proof.
  cbn zeta. unfold heuristics.
  destruct (resolveTrademark _ _ _ _ _ _) as [tr cm].
  destruct (splitDomainParts domainValue) as [sl tl].
  destruct (commercial s) as [best|]; [|split; reflexivity].
  destruct (best sl) as [m|]; [|split; reflexivity].
  destruct (Qle_bool _ _); split; reflexivity.
Qed.

Lemma assemble_in_range (h : Heuristics) (decision : Ai.Decision)
    (domainValue normalizedKey : string) :
  0 <= tmScore (hTrademark h) <= 5 ->
  (0 <= tmConfidence (hTrademark h))%Q /\ (tmConfidence (hTrademark h) <= 1)%Q ->
  0 <= viceScore (hVice h) <= 5 ->
  (0 <= viceConfidence (hVice h))%Q /\ (viceConfidence (hVice h) <= 1)%Q ->
  let e := assemble h decision domainValue normalizedKey in
  0 <= Store.TrademarkScore e <= 5 /\ 0 <= Store.ViceScore e <= 5 /\
  ((0 <= Store.TrademarkConfidence e)%Q /\ (Store.TrademarkConfidence e <= 1)%Q) /\
  ((0 <= Store.ViceConfidence e)%Q /\ (Store.ViceConfidence e <= 1)%Q).
Proof.
  intros Ht Htc Hv Hvc. cbn zeta. unfold assemble. cbn zeta.
  cbn [Store.TrademarkScore Store.ViceScore Store.TrademarkConfidence Store.ViceConfidence].
  unfold overriddenTrademark, overriddenVice.
  split; [|split; [|split]].
  - destruct (Ai.TrademarkScore decision); [apply clampScore_range|exact Ht].
  - destruct (Ai.ViceScore decision); [apply clampScore_range|exact Hv].
  - destruct (Ai.Confidence decision) as [c|]; cbn [fmap option_fmap option_map default].
    + apply clampConfidence_range.
    + destruct (Ai.TrademarkScore decision); exact Htc.
  - destruct (Ai.Confidence decision) as [c|]; cbn [fmap option_fmap option_map default].
    + apply clampConfidence_range.
    + destruct (Ai.ViceScore decision); exact Hvc.
Qed.

(** X12. Whatever the index, the collaborators and the AI answer, the scores
    of the evaluation returned for a domain lie in 0..5 and its
    confidences in [0, 1]. *)
Theorem evaluateDomain_ranges (ctx : Context) (domain : BatchDomain)
    (scorer : option trademarkIndex) (marks : list Mark) (totalDomains : Z)
    (cache : gmap string Usp.LookupResult) :
  let e := Evaluation (fst (fst (evaluateDomain isCommonWord s ctx domain scorer marks
                                   totalDomains cache))) in
  0 <= Store.TrademarkScore e <= 5 /\ 0 <= Store.ViceScore e <= 5 /\
  ((0 <= Store.TrademarkConfidence e)%Q /\ (Store.TrademarkConfidence e <= 1)%Q) /\
  ((0 <= Store.ViceConfidence e)%Q /\ (Store.ViceConfidence e <= 1)%Q).
Proof.
  cbn zeta. unfold evaluateDomain.
  assert (Hempty : 0 <= Store.TrademarkScore emptyEvaluation <= 5 /\
                   0 <= Store.ViceScore emptyEvaluation <= 5 /\
                   ((0 <= Store.TrademarkConfidence emptyEvaluation)%Q /\
                    (Store.TrademarkConfidence emptyEvaluation <= 1)%Q) /\
                   ((0 <= Store.ViceConfidence emptyEvaluation)%Q /\
                    (Store.ViceConfidence emptyEvaluation <= 1)%Q)).
  { cbn. split; [lia|]. split; [lia|]. split; split; discriminate. }
  destruct (cancelledAtStart ctx); [exact Hempty|].
  case_decide; [exact Hempty|]. cbn zeta.
  destruct (lookupUSPTO s _ cache) as [[lookupResult lookupValid] cache'].
  match goal with
  | |- context [generateDecision s ctx ?p ?d ?m ?t ?h] =>
      destruct (generateDecision s ctx p d m t h) as [[decision [err|]] t'];
      [exact Hempty|];
      destruct (heuristics_results p d scorer lookupResult lookupValid) as [Etr Evi]
  end.
  cbn [fst Evaluation].
  pose proof (Score_in_range (popularTokens s) isCommonWord scorer
                (NormalizeDomain (TrimSpace (itemDomain domain)))) as Hs.
  pose proof (resolveTrademark_in_range (popularTokens s) (fancifulDecider s)
                (NormalizeDomain (TrimSpace (itemDomain domain))) lookupValid lookupResult _ Hs)
    as (T1 & T2 & T3).
  pose proof (ViceScore_in_range (viceScorer s)
                (NormalizeDomain (TrimSpace (itemDomain domain)))) as (V1 & V2 & V3 & _).
  apply assemble_in_range.
  - rewrite Etr. exact T1.
  - rewrite Etr. split; [exact T2|exact T3].
  - rewrite Evi. exact V1.
  - rewrite Evi. split; [exact V2|exact V3].
Qed.

End StoredRanges.

(** ** The recommendation that is stored *)

Lemma smap_app (f : ascii -> ascii) (s t : string) :
  smap f (s ++ t)%string = (smap f s ++ smap f t)%string.
Proof.
  induction s as [|c s IH]; [reflexivity|].
  rewrite sapp_cons. cbn [smap]. rewrite IH, sapp_cons. reflexivity.
Qed.

Lemma rev_smap (f : ascii -> ascii) (s : string) :
  String.rev (smap f s) = smap f (String.rev s).
Proof.
  induction s as [|c s IH]; [reflexivity|].
  cbn [smap]. rewrite !rev_cons, IH, smap_app. reflexivity.
Qed.

Lemma trim_left_smap (p : ascii -> bool) (f : ascii -> ascii) (s : string) :
  (forall c, p (f c) = p c) -> trim_left p (smap f s) = smap f (trim_left p s).
Proof.
  intros Hf. induction s as [|c s IH]; [reflexivity|].
  cbn [smap trim_left]. rewrite Hf. destruct (p c); [exact IH|reflexivity].
Qed.

Lemma TrimSpace_smap (f : ascii -> ascii) (s : string) :
  (forall c, Ascii.is_space (f c) = Ascii.is_space c) ->
  TrimSpace (smap f s) = smap f (TrimSpace s).
Proof.
  intros Hf. unfold TrimSpace, trim_right.
  rewrite (trim_left_smap _ _ _ Hf), rev_smap, (trim_left_smap _ _ _ Hf), rev_smap.
  reflexivity.
Qed.

Lemma upper_ascii_space (c : ascii) : Ascii.is_space (upper_ascii c) = Ascii.is_space c.
Proof. destruct c as [[] [] [] [] [] [] [] []]; vm_compute; reflexivity. Qed.

Lemma upper_ascii_idempotent (c : ascii) : upper_ascii (upper_ascii c) = upper_ascii c.
Proof. destruct c as [[] [] [] [] [] [] [] []]; vm_compute; reflexivity. Qed.

Lemma smap_smap (f g : ascii -> ascii) (s : string) :
  smap f (smap g s) = smap (fun c => f (g c)) s.
Proof. induction s as [|c s IH]; [reflexivity|]. cbn [smap]. rewrite IH. reflexivity. Qed.

Lemma smap_ext (f g : ascii -> ascii) (s : string) :
  (forall c, f c = g c) -> smap f s = smap g s.
Proof.
  intros H. induction s as [|c s IH]; [reflexivity|]. cbn [smap]. rewrite H, IH. reflexivity.
Qed.

(** Upper-casing and trimming a string that has been upper-cased and
    trimmed changes nothing. *)
Lemma ToUpper_TrimSpace_idempotent (x : string) :
  ToUpper (TrimSpace (ToUpper (TrimSpace x))) = ToUpper (TrimSpace x).
Proof.
  unfold ToUpper. rewrite (TrimSpace_smap _ _ upper_ascii_space), TrimSpace_idempotent, smap_smap.
  apply smap_ext, upper_ascii_idempotent.
Qed.

Lemma retryLoop_success (ctx : Context) (e : Ai.Explainer) (input : Ai.ExplanationInput)
    (remaining : nat) :
  forall attempt delay lastErr decision t,
    retryLoop ctx e input remaining attempt delay lastErr = ((decision, None), t) ->
    lastErr = None \/ exists n, Ai.Explain e input n = inl decision.
Proof.
  induction remaining as [|remaining IH]; intros attempt delay lastErr decision t H.
  { cbn [retryLoop] in H. inversion H. left. reflexivity. }
  cbn [retryLoop] in H. destruct (Ai.Explain e input attempt) as [d|err] eqn:E.
  { inversion H. subst. right. exists attempt. exact E. }
  destruct (cancelledAfterAttempt ctx attempt); [discriminate H|].
  destruct (negb (shouldRetryAI (Some err))); [discriminate H|].
  destruct (cancelledDuringBackoff ctx attempt); [discriminate H|].
  cbn zeta in H.
  destruct (retryLoop ctx e input remaining (S attempt) _ (Some err)) as [[d' err'] t'] eqn:Er.
  inversion H. subst. destruct (IH _ _ _ _ _ Er) as [Hn|Hex]; [discriminate Hn|].
  right. exact Hex.
Qed.

Lemma retryLoop_None (ctx : Context) (e : Ai.Explainer) (input : Ai.ExplanationInput)
    (remaining : nat) :
  forall attempt delay lastErr decision t,
    retryLoop ctx e input remaining attempt delay lastErr = ((decision, None), t) ->
    (0 < remaining)%nat ->
    exists n, Ai.Explain e input n = inl decision.
Proof.
  destruct remaining as [|remaining]; intros attempt delay lastErr decision t H Hpos; [lia|].
  cbn [retryLoop] in H. destruct (Ai.Explain e input attempt) as [d|err] eqn:E.
  { inversion H. subst. exists attempt. exact E. }
  destruct (cancelledAfterAttempt ctx attempt); [discriminate H|].
  destruct (negb (shouldRetryAI (Some err))); [discriminate H|].
  destruct (cancelledDuringBackoff ctx attempt); [discriminate H|].
  cbn zeta in H.
  destruct (retryLoop ctx e input remaining (S attempt) _ (Some err)) as [[d' err'] t'] eqn:Er.
  inversion H. subst.
  destruct (retryLoop_success _ _ _ _ _ _ _ _ _ Er) as [Hn|Hex]; [discriminate Hn|exact Hex].
Qed.

Lemma recommendation_normal (r : string) :
  r ∈ recommendations -> ToUpper (TrimSpace r) = r.
Proof.
  intros H. apply recommendations_cases in H.
  destruct H as [->|[->|[->| ->]]]; vm_compute; reflexivity.
Qed.

Section StoredRecommendation.

Variable isCommonWord : string -> bool.
Variable s : Server.

Lemma generateDecision_recommendation (ctx : Context) (profile : DomainProfile)
    (domain : string) (marksCount totalDomains : Z) (h : Heuristics) :
  Recommendation (hOverall h) ∈ recommendations ->
  let decision := fst (fst (generateDecision s ctx profile domain marksCount totalDomains h)) in
  Ai.Recommendation decision = Recommendation (hOverall h) \/
  exists e input n result,
    explainer s = Some e /\ Ai.Enabled e = true /\ Ai.Explain e input n = inl result /\
    Ai.Recommendation decision = ToUpper (TrimSpace (Ai.Recommendation result)) /\
    Ai.Recommendation decision <> "".
Proof.
  intros Hrec. cbn zeta. unfold generateDecision. cbn zeta.
  destruct (explainer s) as [e|] eqn:Ee.
  2:{ cbn. left. apply recommendation_normal, Hrec. }
  destruct (Ai.Enabled e) eqn:Een; cbn [negb].
  2:{ cbn. left. apply recommendation_normal, Hrec. }
  match goal with
  | |- context [callAIWithRetry (Some e) ctx ?i] =>
      set (input := i); destruct (callAIWithRetry (Some e) ctx input) as [[result [err|]] t] eqn:Ec
  end.
  { cbn. left. apply recommendation_normal, Hrec. }
  cbn [fst Ai.Recommendation]. case_decide as Hne.
  - right. unfold callAIWithRetry in Ec. rewrite Een in Ec. cbn [negb] in Ec.
    destruct (retryLoop_None _ _ _ _ _ _ _ _ _ Ec) as [n Hn]; [unfold aiMaxRetries; lia|].
    exists e, input, n, result. split; [first [reflexivity|exact Ee]|].
    split; [first [reflexivity|exact Een]|].
    split; [exact Hn|]. split; [reflexivity|exact Hne].
  - left. apply recommendation_normal, Hrec.
Qed.

(** X13. The decision of the AI step always names a recommendation, and it
    is the one that is stored: the heuristic recommendation, or the
    non-blank recommendation of an answer of the explainer, upper-cased and
    trimmed.  The recommendation combined again from the overridden scores
    never reaches the stored evaluation. *)
Theorem stored_recommendation_is_the_decisions
    (ctx : Context) (profile : DomainProfile) (domainValue normalizedKey : string)
    (scorer : option trademarkIndex) (lookupResult : Usp.LookupResult) (lookupValid : bool)
    (marksCount totalDomains : Z) :
  let h := heuristics isCommonWord s profile domainValue scorer lookupResult lookupValid in
  let decision := fst (fst (generateDecision s ctx profile domainValue marksCount totalDomains h)) in
  let stored := assemble h decision domainValue normalizedKey in
  Store.OverallRecommendation stored = Ai.Recommendation decision /\
  Ai.Recommendation decision <> "" /\
  (Ai.Recommendation decision = Recommendation (hOverall h) \/
   exists e input n result,
     explainer s = Some e /\ Ai.Enabled e = true /\ Ai.Explain e input n = inl result /\
     Ai.Recommendation decision = ToUpper (TrimSpace (Ai.Recommendation result))).
Proof.
  intros h decision stored.
  pose proof (heuristics_recommendation isCommonWord s profile domainValue scorer
                lookupResult lookupValid) as Hrec.
  fold h in Hrec.
  pose proof (generateDecision_recommendation ctx profile domainValue marksCount totalDomains
                h Hrec) as Hd.
  cbn zeta in Hd. fold decision in Hd.
  assert (Hnorm : ToUpper (TrimSpace (Ai.Recommendation decision)) = Ai.Recommendation decision /\
                  Ai.Recommendation decision <> "").
  { destruct Hd as [Hd|(e & input & n & result & _ & _ & _ & Hd & Hne)].
    - rewrite Hd. split; [apply recommendation_normal, Hrec|].
      apply recommendations_cases in Hrec.
      destruct Hrec as [->|[->|[->| ->]]]; discriminate.
    - split; [|exact Hne]. rewrite Hd. apply ToUpper_TrimSpace_idempotent. }
  destruct Hnorm as [Hnorm Hne]. split; [|split; [exact Hne|]].
  - subst stored. unfold assemble. cbn [Store.OverallRecommendation]. rewrite Hnorm.
    destruct (decide (Ai.Recommendation decision <> "")); [reflexivity|contradiction].
  - destruct Hd as [Hd|(e & input & n & result & H1 & H2 & H3 & H4 & _)]; [left; exact Hd|].
    right. exists e, input, n, result. repeat split; assumption.
Qed.

End StoredRecommendation.

(** ** The terminal event of a run *)

Section TerminalEvent.

Variable job : evaluationJob.
Variable req : EvaluateRequest.
Variable duration : string.

Lemma terminalInv_broadcast (st : runState) (event : EvaluationEvent) :
  returned st = false -> isTerminalType (evType event) = false ->
  terminalInv st -> terminalInv (broadcast st event).
Proof.
  intros Hret Hev [Hp Hinv]. unfold terminalInv in *. cbn [broadcast pendingEvent returned].
  rewrite Hret in *. destruct Hinv as [Hs Hall]. split; [exact Hp|].
  cbn [finishStatus emitted]. split; [exact Hs|].
  apply Forall_app. split; [exact Hall|]. apply Forall_cons. split; [exact Hev|constructor].
Qed.

Lemma terminalInv_flush (force elapsed : bool) (st : runState) :
  returned st = false -> terminalInv st ->
  terminalInv (flush force elapsed st) /\ returned (flush force elapsed st) = false.
Proof.
  intros Hret Hinv. unfold flush.
  destruct (negb (hasPending st)); [split; assumption|].
  destruct (negb force && negb (lastEmitIsZero st) && negb elapsed); [split; assumption|].
  destruct (pendingEvent st) as [ev|] eqn:Ep; [|split; assumption].
  assert (Hev : isTerminalType (evType ev) = false).
  { destruct Hinv as [Hp _]. rewrite (Hp ev Ep). reflexivity. }
  pose proof (terminalInv_broadcast st ev Hret Hev Hinv) as Hb.
  split; [|exact Hret]. exact Hb.
Qed.

Lemma terminalInv_finish (status : string) (event : EvaluationEvent) (st : runState) :
  returned st = false -> isTerminalType (evType event) = true ->
  status = finishStatusOf (evType event) ->
  terminalInv st -> terminalInv (finish status event st).
Proof.
  intros Hret Hev Hstatus [Hp Hinv]. unfold terminalInv in *.
  cbn [finish broadcast pendingEvent returned emitted finishStatus].
  rewrite Hret in Hinv. destruct Hinv as [_ Hall]. split; [exact Hp|].
  exists (emitted st), event. split; [reflexivity|]. split; [exact Hall|].
  split; [exact Hev|exact Hstatus].
Qed.

Lemma terminalInv_record (eval : Store.Evaluation) (st : runState) :
  terminalInv st -> terminalInv (record job req eval st).
Proof.
  intros [Hp Hinv]. unfold terminalInv in *.
  cbn [record pendingEvent returned emitted finishStatus]. split; [|exact Hinv].
  intros ev [= <-]. reflexivity.
Qed.

Lemma terminalInv_flag (st st' : runState) :
  pendingEvent st' = pendingEvent st -> returned st' = returned st ->
  emitted st' = emitted st -> finishStatus st' = finishStatus st ->
  terminalInv st -> terminalInv st'.
Proof. unfold terminalInv. intros -> -> -> ->. tauto. Qed.

Lemma terminalInv_receive (st : runState) (input : collectorInput) :
  returned st = false -> terminalInv st ->
  terminalInv (receive job req st input) /\
  (returned (receive job req st input) = false ->
   finishStatus (receive job req st input) = "completed").
Proof.
  intros Hret Hinv.
  assert (Hkeep : terminalInv st /\ (returned st = false -> finishStatus st = "completed")).
  { split; [exact Hinv|]. intros _. destruct Hinv as [_ Hinv]. rewrite Hret in Hinv. tauto. }
  destruct input as [| |err| |res saveErr elapsed]; cbn [receive].
  - destruct (terminalInv_flush true false st Hret Hinv) as [Hf Hr].
    split; [|discriminate]. apply terminalInv_finish; [exact Hr|reflexivity|reflexivity|exact Hf].
  - destruct (activeErrCh st); [|exact Hkeep].
    split; [|apply Hkeep]. eapply terminalInv_flag; [..|exact Hinv]; reflexivity.
  - destruct (activeErrCh st); cbn [negb]; [|exact Hkeep].
    destruct err as [msg|]; [|exact Hkeep].
    destruct (terminalInv_flush true false st Hret Hinv) as [Hf Hr].
    split; [|discriminate]. apply terminalInv_finish; [exact Hr|reflexivity|reflexivity|exact Hf].
  - destruct (activeResultCh st); [|exact Hkeep].
    split; [|apply Hkeep]. eapply terminalInv_flag; [..|exact Hinv]; reflexivity.
  - destruct (activeResultCh st); cbn [negb]; [|exact Hkeep].
    destruct (done st); [exact Hkeep|].
    destruct (terminalInv_flush true false st Hret Hinv) as [Hf Hr].
    destruct (Err res) as [e|].
    { split; [|discriminate].
      apply terminalInv_finish; [exact Hr|reflexivity|reflexivity|exact Hf]. }
    destruct saveErr as [msg|].
    { split; [|discriminate].
      apply terminalInv_finish; [exact Hr|reflexivity|reflexivity|exact Hf]. }
    destruct (terminalInv_flush false elapsed (record job req (Evaluation res) st))
      as [Hf' Hr']; [exact Hret|apply terminalInv_record, Hinv|].
    assert (Hs : finishStatus (flush false elapsed (record job req (Evaluation res) st))
                 = "completed").
    { destruct Hf' as [_ Hf']. rewrite Hr' in Hf'. tauto. }
    destruct (total job <=? totalProcessed _).
    + split; [|intros _; exact Hs]. eapply terminalInv_flag; [..|exact Hf']; reflexivity.
    + split; [exact Hf'|intros _; exact Hs].
Qed.

Lemma terminalInv_jobTurn (st : runState) (step : jobStep) :
  terminalInv st -> terminalInv (jobTurn job req duration st step).
Proof.
  intros Hinv. destruct step as [input|]; cbn [jobTurn].
  - unfold collect. destruct (returned st) eqn:Hret; [exact Hinv|].
    destruct (terminalInv_receive st input Hret Hinv) as [Hrecv Hstatus].
    destruct (returned (receive job req st input)) eqn:Hret'; [exact Hrecv|].
    destruct (negb (activeResultCh _) && negb (activeErrCh _)); [|exact Hrecv].
    destruct (terminalInv_flush true false _ Hret' Hrecv) as [Hf Hr].
    apply terminalInv_finish; [exact Hr|reflexivity| |exact Hf].
    destruct Hf as [_ Hf]. rewrite Hr in Hf. destruct Hf as [Hs _]. exact Hs.
  - destruct (returned st) eqn:Hret; [exact Hinv|].
    apply terminalInv_broadcast; [exact Hret|reflexivity|exact Hinv].
Qed.

Lemma terminalInv_initial (processed : Z) (seen : gset string) :
  terminalInv (initial processed seen) /\ returned (initial processed seen) = false.
Proof.
  split; [|reflexivity]. unfold terminalInv. cbn. split; [discriminate|].
  split; [reflexivity|constructor].
Qed.

Lemma terminalInv_runStart (marksErr scorerErr : option string)
    (evaluated : string + list string) :
  terminalInv (runStart job req marksErr scorerErr evaluated).
Proof.
  assert (Hfail : forall msg,
            terminalInv (finish "failed" (errorEvent job msg) (initial 0 ∅))).
  { intros msg. apply terminalInv_finish; [reflexivity|reflexivity|reflexivity|].
    apply terminalInv_initial. }
  assert (Hstart : forall processed seen ev,
            evType ev = "started" -> terminalInv (broadcast (initial processed seen) ev)).
  { intros processed seen ev Hev. apply terminalInv_broadcast; [reflexivity| |apply terminalInv_initial].
    rewrite Hev. reflexivity. }
  unfold runStart. destruct (total job <=? 0); [apply Hfail|].
  destruct marksErr; [apply Hfail|]. destruct scorerErr; [apply Hfail|].
  destruct (skipExisting req); [|apply Hstart; reflexivity].
  destruct evaluated; [apply Hfail|apply Hstart; reflexivity].
Qed.

Lemma terminalInv_steps (steps : list jobStep) :
  forall st, terminalInv st -> terminalInv (fold_left (jobTurn job req duration) steps st).
Proof.
  induction steps as [|step steps IH]; intros st Hinv; [exact Hinv|].
  cbn [fold_left]. apply IH, terminalInv_jobTurn, Hinv.
Qed.

End TerminalEvent.

(** X14. Whatever the collector receives and whenever cancellations are
    requested, a run that has returned has broadcast exactly one terminal
    event (complete, cancelled or error), as its last event, and leaves
    with the status of that event (completed, cancelled, failed); a run
    that has not returned has broadcast no terminal event. *)
Theorem run_ends_with_one_terminal_event (job : evaluationJob) (req : EvaluateRequest)
    (duration : string) (marksErr scorerErr : option string)
    (evaluated : string + list string) (steps : list jobStep) :
  let st := fold_left (jobTurn job req duration) steps
              (runStart job req marksErr scorerErr evaluated) in
  if returned st then
    exists before final,
      emitted st = before ++ [final] /\
      Forall (fun ev => isTerminalType (evType ev) = false) before /\
      isTerminalType (evType final) = true /\
      finishStatus st = finishStatusOf (evType final)
  else
    Forall (fun ev => isTerminalType (evType ev) = false) (emitted st).
Proof.
  cbn zeta.
  pose proof (terminalInv_steps job req duration steps _
                (terminalInv_runStart job req marksErr scorerErr evaluated)) as [_ H].
  destruct (returned _); [exact H|]. destruct H as [_ H]. exact H.
Qed.

(** ** Connections of the notifier *)

(** Handles are allocated in increasing order, and every registered client
    has a log. *)
Lemma notifier_handles (ops : list notifierOp) :
  forall n : EvaluationNotifier,
    (forall c, c ∈ clients n -> (c < nextClient n)%nat /\ is_Some (sent n !! c)) ->
    (forall c, c ∈ clients (runOps ops n) ->
               (c < nextClient (runOps ops n))%nat /\ is_Some (sent (runOps ops n) !! c)) /\
    (nextClient n <= nextClient (runOps ops n))%nat.
Proof.
  induction ops as [|op ops IH]; intros n Hn; [split; [exact Hn|cbn; lia]|].
  cbn [runOps fold_left]. fold (runOps ops (applyOp n op)).
  assert (Hop : (forall c, c ∈ clients (applyOp n op) ->
                           (c < nextClient (applyOp n op))%nat /\
                           is_Some (sent (applyOp n op) !! c)) /\
                (nextClient n <= nextClient (applyOp n op))%nat).
  { destruct op as [ok|client|event now ok]; cbn [applyOp].
    - cbn [Register snd clients nextClient sent]. split; [|lia]. intros c Hc.
      apply elem_of_union in Hc as [Hc|Hc].
      + apply elem_of_singleton in Hc. subst c. split; [lia|].
        rewrite lookup_insert_eq. eexists; reflexivity.
      + destruct (Hn c Hc) as [Hlt Hs]. split; [lia|].
        rewrite lookup_insert_ne by lia. exact Hs.
    - destruct client as [c0|]; [|cbn [Unregister]; split; [exact Hn|lia]].
      cbn [Unregister clients nextClient sent]. split; [|lia]. intros c Hc.
      apply elem_of_difference in Hc as [Hc _]. apply Hn, Hc.
    - cbn [Broadcast clients nextClient sent]. split; [|lia]. intros c Hc.
      apply elem_of_filter in Hc as [_ Hc]. destruct (Hn c Hc) as [Hlt [log Hs]].
      split; [exact Hlt|]. rewrite map_lookup_imap, Hs. cbn.
      destruct (decide (c ∈ clients n)); [destruct (ok c)|]; eexists; reflexivity. }
  destruct Hop as [Hop Hle]. destruct (IH (applyOp n op) Hop) as [H1 H2].
  split; [exact H1|lia].
Qed.

Lemma disconnected_stays (c : nat) (ops : list notifierOp) :
  forall n : EvaluationNotifier,
    (c < nextClient n)%nat -> c ∉ clients n ->
    sent (runOps ops n) !! c = sent n !! c /\ c ∉ clients (runOps ops n).
Proof.
  induction ops as [|op ops IH]; intros n Hlt Hout; [split; [reflexivity|exact Hout]|].
  cbn [runOps fold_left]. fold (runOps ops (applyOp n op)).
  destruct op as [ok|client|event now ok]; cbn [applyOp].
  - destruct (IH (snd (Register n ok))) as [H1 H2].
    + cbn. lia.
    + cbn [Register snd clients]. rewrite elem_of_union, elem_of_singleton. intros [->|H]; [lia|].
      contradiction.
    + split; [|exact H2]. rewrite H1. cbn [Register snd sent].
      apply lookup_insert_ne. lia.
  - destruct client as [c0|]; [|apply IH; assumption].
    destruct (IH (Unregister n (Some c0))) as [H1 H2].
    + exact Hlt.
    + cbn [Unregister clients]. rewrite elem_of_difference. tauto.
    + split; [|exact H2]. rewrite H1. reflexivity.
  - destruct (IH (Broadcast n event now ok)) as [H1 H2].
    + exact Hlt.
    + cbn [Broadcast clients]. rewrite elem_of_filter. tauto.
    + split; [|exact H2]. rewrite H1. cbn [Broadcast sent]. rewrite map_lookup_imap.
      destruct (sent n !! c) as [log|]; [|reflexivity]. cbn.
      rewrite decide_False by exact Hout. reflexivity.
Qed.

(** X15. A disconnection is final.  A client that [Unregister] has removed,
    or that a broadcast has dropped because the write to it failed, is not
    a client any more, and whatever is called on the notifier afterwards
    nothing is written to its connection and it never becomes a client
    again. *)
Theorem disconnect_is_final (n : EvaluationNotifier) (c : nat) (ops : list notifierOp) :
  (c < nextClient n)%nat ->
  (let n' := Unregister n (Some c) in
   (c ∉ clients n') /\ c ∈ closed n' /\
   sent (runOps ops n') !! c = sent n !! c /\ c ∉ clients (runOps ops n')) /\
  (forall event now ok,
     c ∈ clients n -> ok c = false ->
     let n' := Broadcast n event now ok in
     (c ∉ clients n') /\ c ∈ closed n' /\
     sent (runOps ops n') !! c = sent n !! c /\ c ∉ clients (runOps ops n')).
Proof.
  intros Hlt. split.
  - cbn zeta.
    assert (Hout : c ∉ clients (Unregister n (Some c))).
    { cbn [Unregister clients]. rewrite elem_of_difference, elem_of_singleton. tauto. }
    split; [exact Hout|]. split.
    { cbn [Unregister closed]. apply elem_of_union. left. apply elem_of_singleton. reflexivity. }
    destruct (disconnected_stays c ops (Unregister n (Some c)) Hlt Hout) as [H1 H2].
    split; [exact H1|exact H2].
  - intros event now ok Hin Hok. cbn zeta.
    assert (Hout : c ∉ clients (Broadcast n event now ok)).
    { cbn [Broadcast clients]. rewrite elem_of_filter, Hok. intros [H _]. exact H. }
    split; [exact Hout|]. split.
    { cbn [Broadcast closed]. apply elem_of_union. left. apply elem_of_filter.
      rewrite Hok. split; [exact I|exact Hin]. }
    destruct (disconnected_stays c ops (Broadcast n event now ok) Hlt Hout) as [H1 H2].
    split; [|exact H2]. rewrite H1. cbn [Broadcast sent]. rewrite map_lookup_imap.
    destruct (sent n !! c) as [log|]; [|reflexivity]. cbn.
    rewrite decide_True by exact Hin. rewrite Hok. reflexivity.
Qed.

Lemma disconnect_is_final_witness :
  sent (runOps [OpBroadcast testEvaluationEvent 5 (fun _ => true)]
          (Unregister oneSubscriber (Some 0%nat))) !! 0%nat = sent oneSubscriber !! 0%nat.
Proof.
  assert (Hlt : (0 < nextClient oneSubscriber)%nat) by (cbn; lia).
  destruct (disconnect_is_final oneSubscriber 0
              [OpBroadcast testEvaluationEvent 5 (fun _ => true)] Hlt)
    as [(_ & _ & H & _) _].
  exact H.
Defined.

(** A broadcast reaches every registered client: for a notifier reached
    from the empty one, each client has a log, and a broadcast appends the
    stamped event to the log of each client whose write succeeds and to no
    other log; the clients whose write fails are dropped and closed. *)
Lemma Broadcast_delivers (ops : list notifierOp) (event : EvaluationEvent) (now : Z)
    (ok : nat -> bool) (c : nat) :
  let n := runOps ops NewEvaluationNotifier in
  let n' := Broadcast n event now ok in
  (c ∈ clients n ->
   exists log,
     sent n !! c = Some log /\
     if ok c
     then sent n' !! c = Some (log ++ [withTimestamp event now]) /\ c ∈ clients n'
     else sent n' !! c = Some log /\ (c ∉ clients n') /\ c ∈ closed n') /\
  (c ∉ clients n -> sent n' !! c = sent n !! c /\ c ∉ clients n').
Proof.
  cbn zeta. set (n := runOps ops NewEvaluationNotifier).
  destruct (notifier_handles ops NewEvaluationNotifier) as [Hn _].
  { intros c0 Hc0. cbn in Hc0. apply not_elem_of_empty in Hc0. contradiction. }
  fold n in Hn. split.
  - intros Hin. destruct (Hn c Hin) as [_ [log Hlog]]. exists log. split; [exact Hlog|].
    cbn [Broadcast sent clients closed]. rewrite map_lookup_imap, Hlog. cbn.
    rewrite decide_True by exact Hin. destruct (ok c) eqn:Hok.
    + split; [reflexivity|]. apply elem_of_filter. rewrite Hok. split; [exact I|exact Hin].
    + split; [reflexivity|]. split.
      * rewrite elem_of_filter, Hok. intros [H _]. exact H.
      * apply elem_of_union. left. apply elem_of_filter. rewrite Hok. split; [exact I|exact Hin].
  - intros Hout. cbn [Broadcast sent clients]. split.
    + rewrite map_lookup_imap. destruct (sent n !! c) as [log|]; [|reflexivity]. cbn.
      rewrite decide_False by exact Hout. reflexivity.
    + rewrite elem_of_filter. tauto.
Qed.

(** ** Cancellation requests *)

(** X16. A cancellation request is refused, with the state untouched, when
    the job id is blank (400), no job is running or the id is not the one
    of the active job (404); when it is accepted (202) the context of the
    active job is cancelled and the progress event is broadcast, while the
    job stays the active job, and the database and the spawned runs are
    left alone. *)
Theorem handleCancelEvaluate_contract (st : State) (env : Env) (jobIDParam : string) :
  let r := handleCancelEvaluate st env jobIDParam in
  match fst r with
  | StatusOnly code word =>
      code = StatusAccepted /\ word = "cancelling" /\
      exists job,
        activeJob st = Some job /\ jobID job = TrimSpace jobIDParam /\
        cancelled (snd r) = {[jobCtx job]} ∪ cancelled st /\
        evalNotifier (snd r) =
          Broadcast (evalNotifier st) (cancellationRequested job) (now env) (writeOk env) /\
        activeJob (snd r) = activeJob st /\ db (snd r) = db st /\
        spawned (snd r) = spawned st /\ nextContext (snd r) = nextContext st
  | Failure code _ =>
      snd r = st /\
      (code = StatusBadRequest /\ TrimSpace jobIDParam = "" \/
       code = StatusNotFound /\ TrimSpace jobIDParam <> "" /\
       forall job, activeJob st = Some job -> jobID job <> TrimSpace jobIDParam)
  | Started _ _ => False
  end.
Proof.
  cbn zeta. unfold handleCancelEvaluate. cbn zeta. case_decide as Hblank.
  { cbn [fst snd]. split; [reflexivity|]. left. split; [reflexivity|exact Hblank]. }
  destruct (activeJob st) as [job|] eqn:Hjob.
  2:{ cbn [fst snd]. split; [reflexivity|]. right. split; [reflexivity|].
      split; [exact Hblank|]. intros job H. discriminate H. }
  case_decide as Hid.
  { cbn [fst snd]. split; [reflexivity|]. right. split; [reflexivity|].
    split; [exact Hblank|]. intros job' [= <-]. exact Hid. }
  cbn [fst snd]. split; [reflexivity|]. split; [reflexivity|].
  exists job. split; [reflexivity|].
  split; [destruct (decide (jobID job = TrimSpace jobIDParam)) as [E|E]; [exact E|contradiction]|].
  cbn [cancelled evalNotifier activeJob db spawned nextContext]. rewrite ?Hjob.
  repeat split; reflexivity.
Qed.

(** ** The client of the explainer *)

Lemma clampInt_range (value : Z) : 0 <= Ai.clampInt value 0 5 <= 5.
Proof.
  unfold Ai.clampInt. destruct (value <? 0) eqn:E1; [lia|].
  destruct (5 <? value) eqn:E2; lia.
Qed.

Lemma clampInt_id (value : Z) : 0 <= value <= 5 -> Ai.clampInt value 0 5 = value.
Proof.
  intros H. unfold Ai.clampInt. destruct (value <? 0) eqn:E1; [lia|].
  destruct (5 <? value) eqn:E2; [lia|reflexivity].
Qed.

Lemma clampFloat_range (value : Q) :
  (0 <= Ai.clampFloat value 0 1)%Q /\ (Ai.clampFloat value 0 1 <= 1)%Q.
Proof.
  unfold Ai.clampFloat. destruct (Qltb value 0) eqn:E1.
  { split; [apply Qle_refl|discriminate]. }
  destruct (Qltb 1 value) eqn:E2.
  { split; [discriminate|apply Qle_refl]. }
  apply Qltb_false in E1, E2. split; assumption.
Qed.

Lemma clampFloat_idempotent (value : Q) :
  Ai.clampFloat (Ai.clampFloat value 0 1) 0 1 = Ai.clampFloat value 0 1.
Proof.
  unfold Ai.clampFloat at 2 3. destruct (Qltb value 0) eqn:E1; [reflexivity|].
  destruct (Qltb 1 value) eqn:E2; [reflexivity|].
  unfold Ai.clampFloat. rewrite E1, E2. reflexivity.
Qed.

Lemma sanitizeDecision_recommendation (decision : Ai.Decision) :
  Ai.Recommendation (Ai.sanitizeDecision decision) = "" \/
  Ai.Recommendation (Ai.sanitizeDecision decision) ∈ recommendations.
Proof.
  unfold Ai.sanitizeDecision. cbn [Ai.Recommendation]. case_decide as E; [|left; reflexivity].
  right. unfold recommendations. rewrite !elem_of_cons. tauto.
Qed.

Lemma sanitizeDecision_fixed (d : Ai.Decision) :
  TrimSpace (Ai.Narrative d) = Ai.Narrative d ->
  (fun v => Ai.clampInt v 0 5) <$> Ai.TrademarkScore d = Ai.TrademarkScore d ->
  (fun v => Ai.clampInt v 0 5) <$> Ai.ViceScore d = Ai.ViceScore d ->
  Ai.Recommendation d = "" \/ Ai.Recommendation d ∈ recommendations ->
  (fun v => Ai.clampFloat v 0 1) <$> Ai.Confidence d = Ai.Confidence d ->
  Ai.sanitizeDecision d = d.
Proof.
  destruct d as [n t v r c]. cbn [Ai.Narrative Ai.TrademarkScore Ai.ViceScore Ai.Recommendation
                                    Ai.Confidence].
  intros Hn Ht Hv Hr Hc. unfold Ai.sanitizeDecision.
  cbn [Ai.Narrative Ai.TrademarkScore Ai.ViceScore Ai.Recommendation Ai.Confidence].
  rewrite Hn, Ht, Hv, Hc. f_equal.
  destruct Hr as [->|Hr].
  - case_decide as E; [|reflexivity]. vm_compute in E. reflexivity.
  - rewrite (recommendation_normal _ Hr). apply recommendations_cases in Hr.
    case_decide as E; [reflexivity|contradiction].
Qed.

(** X17. [sanitizeDecision] is idempotent, and it leaves the scores in
    0..5, the confidence in [0, 1], the narrative trimmed and the
    recommendation empty or one of the four values. *)
Theorem sanitizeDecision_spec (decision : Ai.Decision) :
  let d := Ai.sanitizeDecision decision in
  Ai.sanitizeDecision d = d /\
  (forall v, Ai.TrademarkScore d = Some v -> 0 <= v <= 5) /\
  (forall v, Ai.ViceScore d = Some v -> 0 <= v <= 5) /\
  (forall c, Ai.Confidence d = Some c -> (0 <= c)%Q /\ (c <= 1)%Q) /\
  TrimSpace (Ai.Narrative d) = Ai.Narrative d /\
  (Ai.Recommendation d = "" \/ Ai.Recommendation d ∈ recommendations).
Proof.
  cbn zeta. split; [|split; [|split; [|split; [|split]]]].
  - apply sanitizeDecision_fixed.
    + apply TrimSpace_idempotent.
    + unfold Ai.sanitizeDecision. cbn [Ai.TrademarkScore].
      destruct (Ai.TrademarkScore decision) as [v|]; [|reflexivity]. cbn.
      rewrite (clampInt_id _ (clampInt_range v)). reflexivity.
    + unfold Ai.sanitizeDecision. cbn [Ai.ViceScore].
      destruct (Ai.ViceScore decision) as [v|]; [|reflexivity]. cbn.
      rewrite (clampInt_id _ (clampInt_range v)). reflexivity.
    + apply sanitizeDecision_recommendation.
    + unfold Ai.sanitizeDecision. cbn [Ai.Confidence].
      destruct (Ai.Confidence decision) as [c|]; [|reflexivity]. cbn.
      rewrite clampFloat_idempotent. reflexivity.
  - unfold Ai.sanitizeDecision. cbn [Ai.TrademarkScore].
    destruct (Ai.TrademarkScore decision) as [v0|]; cbn; intros v [= <-]. apply clampInt_range.
  - unfold Ai.sanitizeDecision. cbn [Ai.ViceScore].
    destruct (Ai.ViceScore decision) as [v0|]; cbn; intros v [= <-]. apply clampInt_range.
  - unfold Ai.sanitizeDecision. cbn [Ai.Confidence].
    destruct (Ai.Confidence decision) as [c0|]; cbn; intros c [= <-]. apply clampFloat_range.
  - apply TrimSpace_idempotent.
  - apply sanitizeDecision_recommendation.
Qed.

Lemma explainParsed_accepts (parsed decision : Ai.Decision) :
  Ai.explainParsed parsed = inl decision ->
  decision = Ai.sanitizeDecision parsed /\
  Ai.Narrative decision <> "" /\ TrimSpace (Ai.Narrative decision) = Ai.Narrative decision /\
  Ai.Recommendation decision ∈ recommendations.
Proof.
  unfold Ai.explainParsed. cbn zeta. case_decide as En; [discriminate|].
  case_decide as Er; [discriminate|]. intros [= <-].
  split; [reflexivity|]. split; [exact En|]. split; [apply TrimSpace_idempotent|].
  destruct (sanitizeDecision_recommendation parsed) as [E|E]; [contradiction|exact E].
Qed.

Lemma Client_accepts (apiKey : string) (answer : Ai.ExplanationInput -> nat -> Ai.Decision + Ai.error)
    (input : Ai.ExplanationInput) (n : nat) (decision : Ai.Decision) :
  Ai.Explain (Ai.Client apiKey answer) input n = inl decision ->
  Ai.Narrative decision <> "" /\ TrimSpace (Ai.Narrative decision) = Ai.Narrative decision /\
  Ai.Recommendation decision ∈ recommendations.
Proof.
  cbn [Ai.Client Ai.Explain]. destruct (String.eqb apiKey ""); [discriminate|].
  destruct (answer input n) as [parsed|err]; [|discriminate].
  intros H. apply explainParsed_accepts in H. tauto.
Qed.

Lemma buildFallbackNarrative_nonempty (recommendation : string) :
  buildFallbackNarrative recommendation <> "".
Proof. unfold buildFallbackNarrative. repeat case_decide; discriminate. Qed.

(** X18. With the client of the remote service as explainer, the evaluation
    assembled for a domain always carries one of the four recommendations
    and a non-empty explanation: the client refuses the answers that lack
    either, and the fallback provides both. *)
Theorem Client_evaluation_complete (isCommonWord : string -> bool) (s : Server)
    (apiKey : string) (answer : Ai.ExplanationInput -> nat -> Ai.Decision + Ai.error)
    (ctx : Context) (profile : DomainProfile) (domainValue normalizedKey : string)
    (scorer : option trademarkIndex) (lookupResult : Usp.LookupResult) (lookupValid : bool)
    (marksCount totalDomains : Z) :
  let s' := withExplainer s (Some (Ai.Client apiKey answer)) in
  let h := heuristics isCommonWord s' profile domainValue scorer lookupResult lookupValid in
  let r := fst (generateDecision s' ctx profile domainValue marksCount totalDomains h) in
  let stored := assemble h (fst r) domainValue normalizedKey in
  snd r = None /\
  Store.OverallRecommendation stored ∈ recommendations /\
  Store.Explanation stored <> "".
Proof.
  intros s' h r stored.
  pose proof (heuristics_recommendation isCommonWord s' profile domainValue scorer
                lookupResult lookupValid) as Hrec.
  fold h in Hrec.
  assert (Hd : snd r = None /\
               Ai.Recommendation (fst r) ∈ recommendations /\
               Ai.Narrative (fst r) <> "" /\
               TrimSpace (Ai.Narrative (fst r)) = Ai.Narrative (fst r)).
  { subst r. unfold generateDecision. cbn zeta.
    change (explainer s') with (Some (Ai.Client apiKey answer)).
    assert (Hfb : forall t : AITrace,
              let r :=
                fst ({| Ai.Narrative := buildFallbackNarrative (Recommendation (hOverall h));
                        Ai.TrademarkScore := None; Ai.ViceScore := None;
                        Ai.Recommendation := ToUpper (TrimSpace (Recommendation (hOverall h)));
                        Ai.Confidence := None |}, @None Ai.error, t) in
              snd r = None /\
              Ai.Recommendation (fst r) ∈ recommendations /\
              Ai.Narrative (fst r) <> "" /\
              TrimSpace (Ai.Narrative (fst r)) = Ai.Narrative (fst r)).
    { intros t. cbn. split; [reflexivity|].
      split; [rewrite (recommendation_normal _ Hrec); exact Hrec|].
      split; [apply buildFallbackNarrative_nonempty|apply buildFallbackNarrative_trimmed]. }
    destruct (Ai.Enabled (Ai.Client apiKey answer)) eqn:Een; cbn [negb]; [|apply Hfb].
    match goal with
    | |- context [callAIWithRetry ?e ctx ?i] =>
        set (input := i); destruct (callAIWithRetry e ctx input) as [[result [err|]] t] eqn:Ec
    end; [apply Hfb|].
    unfold callAIWithRetry in Ec. rewrite Een in Ec. cbn [negb] in Ec.
    destruct (retryLoop_None _ _ _ _ _ _ _ _ _ Ec) as [n Hn]; [unfold aiMaxRetries; lia|].
    apply Client_accepts in Hn. destruct Hn as (N1 & N2 & N3).
    cbn [fst snd Ai.Recommendation Ai.Narrative]. split; [reflexivity|].
    rewrite (recommendation_normal _ N3). rewrite N2.
    assert (Hne : Ai.Recommendation result <> "").
    { apply recommendations_cases in N3. destruct N3 as [->|[->|[->| ->]]]; discriminate. }
    destruct (decide (Ai.Recommendation result <> "")); [|contradiction].
    destruct (decide (Ai.Narrative result <> "")); [|contradiction].
    split; [exact N3|]. split; [exact N1|exact N2]. }
  destruct Hd as (D1 & D2 & D3 & D4). split; [exact D1|].
  subst stored. unfold assemble. cbn [Store.OverallRecommendation Store.Explanation].
  rewrite (recommendation_normal _ D2), D4. split; [|exact D3].
  assert (Hne : Ai.Recommendation (fst r) <> "").
  { apply recommendations_cases in D2. destruct D2 as [E|[E|[E|E]]]; rewrite E; discriminate. }
  destruct (decide (Ai.Recommendation (fst r) <> "")); [exact D2|contradiction].
Qed.

(** ** The chain of explainers *)

Lemma retryLoop_first (ctx : Context) (e : Ai.Explainer) (input : Ai.ExplanationInput)
    (decision : Ai.Decision) (remaining : nat) (delay : Z) (lastErr : option Ai.error) :
  Ai.Explain e input 0 = inl decision ->
  retryLoop ctx e input (S remaining) 0 delay lastErr = ((decision, None), callMade noTrace).
Proof. intros H. cbn [retryLoop]. rewrite H. reflexivity. Qed.

(** X19. A chain is enabled when one of its explainers is; it answers with
    the decision of the primary explainer when that one is enabled and
    gives a decision with a non-blank narrative and a recommendation, and
    with the answer of the enabled fallback otherwise.  When the fallback
    is enabled and always gives a decision, the call of the AI step on the
    chain succeeds at its first attempt, without any backoff. *)
Theorem WithFallback_spec (primary fallback : Ai.Explainer) (ctx : Context)
    (input : Ai.ExplanationInput) :
  exists chain,
    Ai.WithFallback (Some primary) (Some fallback) = Some chain /\
    Ai.Enabled chain = Ai.Enabled primary || Ai.Enabled fallback /\
    (forall n decision,
       Ai.Explain chain input n = inl decision ->
       (Ai.Enabled primary = true /\ Ai.Explain primary input n = inl decision /\
        TrimSpace (Ai.Narrative decision) <> "" /\ Ai.Recommendation decision <> "") \/
       (Ai.Enabled fallback = true /\ Ai.Explain fallback input n = inl decision)) /\
    (forall n decision,
       Ai.Enabled primary = true -> Ai.Explain primary input n = inl decision ->
       TrimSpace (Ai.Narrative decision) <> "" -> Ai.Recommendation decision <> "" ->
       Ai.Explain chain input n = inl decision) /\
    (Ai.Enabled fallback = true ->
     (forall n, exists decision, Ai.Explain fallback input n = inl decision) ->
     let r := callAIWithRetry (Some chain) ctx input in
     snd (fst r) = None /\ attempts (snd r) = 1%nat /\ backoffs (snd r) = []).
Proof.
  exists (Ai.explainerChain primary fallback). split; [reflexivity|]. split; [reflexivity|].
  split; [|split].
  - intros n decision. cbn [Ai.explainerChain Ai.Explain]. cbn zeta.
    assert (Hfb : (if Ai.Enabled fallback then Ai.Explain fallback input n else inr Ai.ErrDisabled)
                  = inl decision ->
                  Ai.Enabled fallback = true /\ Ai.Explain fallback input n = inl decision).
    { destruct (Ai.Enabled fallback); [intros H; split; [reflexivity|exact H]|discriminate]. }
    destruct (Ai.Enabled primary); [|intros H; right; apply Hfb, H].
    destruct (Ai.Explain primary input n) as [d|err]; [|intros H; right; apply Hfb, H].
    case_decide as E; [|intros H; right; apply Hfb, H].
    intros [= <-]. left. split; [reflexivity|]. split; [reflexivity|exact E].
  - intros n decision Hen Hex Hn Hr. cbn [Ai.explainerChain Ai.Explain]. cbn zeta.
    rewrite Hen, Hex. case_decide as E; [reflexivity|]. exfalso. apply E. split; assumption.
  - intros Hen Hall. cbn zeta. unfold callAIWithRetry.
    assert (Een : Ai.Enabled (Ai.explainerChain primary fallback) = true).
    { cbn. rewrite Hen. apply orb_true_r. }
    rewrite Een. cbn [negb].
    assert (Hfirst : exists decision,
              Ai.Explain (Ai.explainerChain primary fallback) input 0 = inl decision).
    { cbn [Ai.explainerChain Ai.Explain]. cbn zeta. rewrite Hen.
      destruct (Hall 0%nat) as [d Hd]. rewrite Hd.
      destruct (Ai.Enabled primary); [|exists d; reflexivity].
      destruct (Ai.Explain primary input 0) as [d'|err]; [|exists d; reflexivity].
      case_decide; [exists d'|exists d]; reflexivity. }
    destruct Hfirst as [decision Hfirst]. unfold aiMaxRetries.
    rewrite (retryLoop_first ctx _ input decision 2 aiInitialBackoff None Hfirst).
    cbn. split; [reflexivity|]. split; reflexivity.
Qed.

(** ** Loading the vice terms *)

Lemma wrapInt_id (z : Z) : - 2 ^ 63 <= z < 2 ^ 63 -> wrapInt z = z.
Proof.
  intros H. unfold wrapInt. rewrite Z.mod_small; lia.
Qed.

Lemma atoiFrom_uint (d : Decimal.uint) :
  forall acc : Z,
    0 <= acc ->
    acc * 10 ^ Z.of_N (DecimalPos.Unsigned.usize d)
      + Z.of_N (DecimalPos.Unsigned.of_lu (Decimal.rev d)) < 2 ^ 63 ->
    atoiFrom acc (NilEmpty.string_of_uint d) =
    acc * 10 ^ Z.of_N (DecimalPos.Unsigned.usize d)
      + Z.of_N (DecimalPos.Unsigned.of_lu (Decimal.rev d)).
Proof.
  assert (Hstep : forall (k : Z) (d0 : Decimal.uint) (acc : Z),
            0 <= k <= 9 -> 0 <= acc ->
            (forall acc' : Z,
               0 <= acc' ->
               acc' * 10 ^ Z.of_N (DecimalPos.Unsigned.usize d0)
                 + Z.of_N (DecimalPos.Unsigned.of_lu (Decimal.rev d0)) < 2 ^ 63 ->
               atoiFrom acc' (NilEmpty.string_of_uint d0) =
               acc' * 10 ^ Z.of_N (DecimalPos.Unsigned.usize d0)
                 + Z.of_N (DecimalPos.Unsigned.of_lu (Decimal.rev d0))) ->
            acc * 10 ^ Z.of_N (N.succ (DecimalPos.Unsigned.usize d0))
              + Z.of_N (DecimalPos.Unsigned.of_lu (Decimal.rev d0)
                        + Z.to_N k * 10 ^ DecimalPos.Unsigned.usize d0) < 2 ^ 63 ->
            atoiFrom (wrapInt (acc * 10 + k)) (NilEmpty.string_of_uint d0) =
            acc * 10 ^ Z.of_N (N.succ (DecimalPos.Unsigned.usize d0))
              + Z.of_N (DecimalPos.Unsigned.of_lu (Decimal.rev d0)
                        + Z.to_N k * 10 ^ DecimalPos.Unsigned.usize d0)).
  { intros k d0 acc Hk Hacc IH Hbound.
    rewrite N2Z.inj_succ, Z.pow_succ_r in * by lia.
    rewrite N2Z.inj_add, N2Z.inj_mul, N2Z.inj_pow, Z2N.id in * by lia.
    change (Z.of_N 10) with 10 in *.
    set (u := Z.of_N (DecimalPos.Unsigned.usize d0)) in *.
    set (v := Z.of_N (DecimalPos.Unsigned.of_lu (Decimal.rev d0))) in *.
    assert (Hu : 0 < 10 ^ u) by (apply Z.pow_pos_nonneg; subst u; lia).
    assert (Hv : 0 <= v) by (subst v; lia).
    rewrite wrapInt_id by nia.
    rewrite IH; [ring|lia|nia]. }
  induction d; intros acc Hacc Hbound.
  { cbn. cbn in Hbound. lia. }
  all: cbn [NilEmpty.string_of_uint atoiFrom];
    match goal with
    | |- context [if ?b then 0 else atoiFrom (wrapInt (?a * 10 + ?k)) ?s] =>
        let b' := eval vm_compute in b in
        let k' := eval vm_compute in k in
        change (if b then 0 else atoiFrom (wrapInt (a * 10 + k)) s)
          with (if b' then 0 else atoiFrom (wrapInt (a * 10 + k')) s);
        cbv iota
    end;
    match goal with
    | |- context [Decimal.rev ?t] =>
        let r := eval cbn [Decimal.rev Decimal.revapp] in (Decimal.rev t) in
        change (Decimal.rev t) with r in Hbound |- *;
        let u := eval cbn [DecimalPos.Unsigned.usize] in (DecimalPos.Unsigned.usize t) in
        change (DecimalPos.Unsigned.usize t) with u in Hbound |- *
    end;
    rewrite DecimalPos.Unsigned.of_lu_revapp in Hbound |- *;
    match goal with
    | |- context [(DecimalPos.Unsigned.of_lu ?x * _)%N] =>
        let v := eval vm_compute in (DecimalPos.Unsigned.of_lu x) in
        change (DecimalPos.Unsigned.of_lu x) with v in Hbound |- *
    end.
  - apply (Hstep 0 d acc); [lia|exact Hacc|exact IHd|exact Hbound].
  - apply (Hstep 1 d acc); [lia|exact Hacc|exact IHd|exact Hbound].
  - apply (Hstep 2 d acc); [lia|exact Hacc|exact IHd|exact Hbound].
  - apply (Hstep 3 d acc); [lia|exact Hacc|exact IHd|exact Hbound].
  - apply (Hstep 4 d acc); [lia|exact Hacc|exact IHd|exact Hbound].
  - apply (Hstep 5 d acc); [lia|exact Hacc|exact IHd|exact Hbound].
  - apply (Hstep 6 d acc); [lia|exact Hacc|exact IHd|exact Hbound].
  - apply (Hstep 7 d acc); [lia|exact Hacc|exact IHd|exact Hbound].
  - apply (Hstep 8 d acc); [lia|exact Hacc|exact IHd|exact Hbound].
  - apply (Hstep 9 d acc); [lia|exact Hacc|exact IHd|exact Hbound].
Qed.

Lemma atoiFrom_nondigit (s : string) :
  forall acc : Z, sforall is_digit s = false -> atoiFrom acc s = 0.
Proof.
  induction s as [|c s IH]; intros acc H; [discriminate H|].
  cbn [sforall atoiFrom] in *. unfold is_digit in H.
  destruct (code c <? 48)%N eqn:E1.
  { reflexivity. }
  destruct (57 <? code c)%N eqn:E2.
  { reflexivity. }
  cbn [orb]. apply IH.
  apply N.ltb_ge in E1, E2. apply N.leb_le in E1, E2. rewrite E1, E2 in H. exact H.
Qed.

(** X20. [atoiSafe] reads back the decimal notation of every non-negative
    [int], and is 0 on every string that holds another character than a
    digit. *)
Theorem atoiSafe_spec (n : Z) (s : string) :
  0 <= n < 2 ^ 63 ->
  atoiSafe (formatInt n) = n /\
  (sforall is_digit s = false -> atoiSafe s = 0).
Proof.
  intros Hn. split; [|apply atoiFrom_nondigit].
  unfold atoiSafe, formatInt.
  assert (Hval : Z.of_N (DecimalPos.Unsigned.of_lu (Decimal.rev (N.to_uint (Z.to_N n)))) = n).
  { rewrite <- DecimalPos.Unsigned.of_uint_alt.
    change (Pos.of_uint (N.to_uint (Z.to_N n))) with (N.of_uint (N.to_uint (Z.to_N n))).
    rewrite DecimalN.Unsigned.of_to. lia. }
  assert (Hstr : NilZero.string_of_uint (N.to_uint (Z.to_N n))
                 = NilEmpty.string_of_uint (N.to_uint (Z.to_N n))).
  { destruct (N.to_uint (Z.to_N n)) eqn:E; try reflexivity.
    destruct (Z.to_N n) as [|p]; [discriminate E|].
    exfalso. exact (DecimalPos.Unsigned.to_uint_nonnil p E). }
  rewrite Hstr, atoiFrom_uint; [|lia|]; rewrite Hval; lia.
Qed.

Lemma atoiSafe_spec_witness :
  atoiSafe (formatInt 5) = 5 /\ (sforall is_digit "3a" = false -> atoiSafe "3a" = 0).
Proof. apply (atoiSafe_spec 5 "3a"). lia. Defined.

Lemma NewViceScorer_fold (raw : list (string * list string)) (severity : Z) (tier : list string) :
  forall acc : gmap Z (list string),
    fold_left
      (fun terms kv =>
         let severity := atoiSafe (fst kv) in
         let list := filter (fun term => term <> "") (map normalizeTerm (snd kv)) in
         if (0 <? length list)%nat then <[severity := list]> terms else terms)
      raw acc !! severity = Some tier ->
    acc !! severity = Some tier \/
    exists kv, kv ∈ raw /\ atoiSafe (fst kv) = severity /\ tier <> [] /\
               tier = filter (fun term => term <> "") (map normalizeTerm (snd kv)).
Proof.
  induction raw as [|kv raw IH]; intros acc H; [left; exact H|].
  cbn [fold_left] in H. apply IH in H. destruct H as [H|(kv' & Hin & Hrest)].
  - cbn zeta in H.
    destruct (0 <? length (filter (fun term => term <> "") (map normalizeTerm (snd kv))))%nat
      eqn:E; [|left; exact H].
    destruct (decide (atoiSafe (fst kv) = severity)) as [Hk|Hk].
    + rewrite Hk, lookup_insert_eq in H. inversion H. subst tier. right. exists kv.
      split; [left|]. split; [exact Hk|]. split; [|reflexivity].
      intros Hnil. rewrite Hnil in E. discriminate E.
    + rewrite lookup_insert_ne in H by exact Hk. left. exact H.
  - right. exists kv'. split; [right; exact Hin|exact Hrest].
Qed.

Lemma NewViceScorer_last (raw : list (string * list string)) (kv : string * list string) :
  forall acc : gmap Z (list string),
    NoDup (map (fun kv => atoiSafe (fst kv)) raw) ->
    kv ∈ raw ->
    filter (fun term => term <> "") (map normalizeTerm (snd kv)) <> [] ->
    fold_left
      (fun terms kv =>
         let severity := atoiSafe (fst kv) in
         let list := filter (fun term => term <> "") (map normalizeTerm (snd kv)) in
         if (0 <? length list)%nat then <[severity := list]> terms else terms)
      raw acc !! atoiSafe (fst kv)
    = Some (filter (fun term => term <> "") (map normalizeTerm (snd kv))).
Proof.
  induction raw as [|x raw IH]; intros acc Hnd Hin Hne; [inversion Hin|].
  cbn [map] in Hnd. apply NoDup_cons in Hnd as [Hx Hnd].
  cbn [fold_left]. apply elem_of_cons in Hin as [->|Hin]; [|apply IH; assumption].
  cbn zeta.
  destruct (filter (fun term => term <> "") (map normalizeTerm (snd x))) as [|t ts] eqn:E;
    [contradiction|].
  cbn [length Nat.ltb Nat.leb]. rewrite <- E.
  match goal with
  | |- fold_left ?f raw ?a !! ?k = Some ?l =>
      destruct (fold_left f raw a !! k) as [l'|] eqn:El
  end.
  - apply NewViceScorer_fold in El. destruct El as [El|(kv' & Hin' & Hk & _)].
    + rewrite lookup_insert_eq in El. symmetry. exact El.
    + exfalso. apply Hx. apply list_elem_of_fmap. exists kv'. split; [symmetry; exact Hk|exact Hin'].
  - exfalso.
    assert (G : forall (l : list (string * list string)) (a : gmap Z (list string)) k,
              is_Some (a !! k) ->
              is_Some (fold_left
                         (fun terms kv =>
                            let severity := atoiSafe (fst kv) in
                            let list := filter (fun term => term <> "")
                                          (map normalizeTerm (snd kv)) in
                            if (0 <? length list)%nat then <[severity := list]> terms
                            else terms) l a !! k)).
    { induction l as [|y l IHl]; intros a k Ha; [exact Ha|].
      cbn [fold_left]. apply IHl. cbn zeta. destruct (0 <? length _)%nat; [|exact Ha].
      destruct (decide (atoiSafe (fst y) = k)) as [->|Hk].
      - rewrite lookup_insert_eq. eexists; reflexivity.
      - rewrite lookup_insert_ne by exact Hk. exact Ha. }
    match type of El with
    | fold_left _ raw ?a !! ?k = None =>
        destruct (G raw a k) as [l' Hl']; [rewrite lookup_insert_eq; eexists; reflexivity|]
    end.
    assert (C : Some l' = None) by (etransitivity; [symmetry; exact Hl'|exact El]).
    discriminate C.
Qed.

(** X21. Every tier of a scorer built by [NewViceScorer] holds at least one
    term, its terms are not empty and made of [a-z0-9] only, and they are
    the normalised terms of an entry of the file whose key reads as the
    severity of the tier. *)
Theorem NewViceScorer_terms (raw : list (string * list string)) (severity : Z)
    (tier : list string) :
  terms (NewViceScorer raw) !! severity = Some tier ->
  tier <> [] /\
  Forall (fun term => term <> "" /\ sforall is_alnum term = true) tier /\
  exists key entries,
    (key, entries) ∈ raw /\ atoiSafe key = severity /\
    tier = filter (fun term => term <> "") (map normalizeTerm entries).
Proof.
  intros H. unfold NewViceScorer in H. cbn [terms] in H.
  apply NewViceScorer_fold in H. destruct H as [H|([key entries] & Hin & Hk & Hne & Hl)].
  { rewrite lookup_empty in H. discriminate H. }
  cbn [fst snd] in *. split; [exact Hne|]. split.
  - rewrite Hl. apply Forall_forall. intros term Hterm.
    apply list_elem_of_filter in Hterm as [Hterm Hmap]. split; [exact Hterm|].
    apply list_elem_of_fmap in Hmap as (t & -> & _). apply normalizeTerm_alnum.
  - exists key, entries. split; [exact Hin|]. split; [exact Hk|exact Hl].
Qed.

Lemma NewViceScorer_terms_witness :
  exists key entries,
    (key, entries) ∈ viceFile /\ atoiSafe key = 3 /\
    ["casino"; "poker"] = filter (fun term => term <> "") (map normalizeTerm entries).
Proof.
  destruct (NewViceScorer_terms viceFile 3 ["casino"; "poker"]) as (_ & _ & H).
  - vm_compute. reflexivity.
  - exact H.
Defined.

Lemma scoreFrom_at_least (v : ViceScorer) (domain brand : string) (n : nat) (severity : Z) :
  1 <= severity <= Z.of_nat n ->
  hitsAt v domain brand severity <> [] ->
  severity <= viceScore (scoreFrom v domain brand n).
Proof.
  induction n as [|n IH]; intros Hs Hhit; [lia|].
  cbn [scoreFrom]. cbn zeta.
  destruct (hitsAt v domain brand (Z.of_nat (S n))) as [|h hits] eqn:E.
  - cbn [length Nat.ltb Nat.leb]. apply IH; [|exact Hhit].
    assert (severity <> Z.of_nat (S n)) by (intros ->; contradiction). lia.
  - cbn [length Nat.ltb Nat.leb viceScore]. lia.
Qed.

(** X22. A term of the vice file is detected whatever its case and its
    spaces, hyphens and underscores.  When the keys of the file read as
    distinct severities, a term listed under a key that reads as a
    severity of 1..5 whose normalised form is not empty and occurs in the
    normalised host gives the domain a vice score of at least that
    severity. *)
Theorem configured_term_is_detected (raw : list (string * list string)) (key : string)
    (entries : list string) (term : string) (profile : DomainProfile) :
  NoDup (map (fun kv => atoiSafe (fst kv)) raw) ->
  (key, entries) ∈ raw ->
  1 <= atoiSafe key <= 5 ->
  term ∈ entries ->
  normalizeTerm term <> "" ->
  Contains (normalizeTerm (Host profile)) (normalizeTerm term) = true ->
  atoiSafe key <= viceScore (ViceScore (Some (NewViceScorer raw)) profile).
Proof.
  intros Hnd Hin Hkey Hterm Hne Hcontains. unfold ViceScore.
  apply scoreFrom_at_least; [lia|]. unfold hitsAt, NewViceScorer. cbn [terms].
  assert (Hfilter : normalizeTerm term
                    ∈ filter (fun t => t <> "") (map normalizeTerm entries)).
  { apply list_elem_of_filter. split; [exact Hne|]. apply list_elem_of_fmap.
    exists term. split; [reflexivity|exact Hterm]. }
  rewrite (NewViceScorer_last raw (key, entries) ∅ Hnd Hin).
  2:{ cbn [snd]. intros E. rewrite E in Hfilter. inversion Hfilter. }
  cbn [fst snd]. unfold default. cbn [from_option]. unfold id. intros Hnil.
  assert (Hhit : normalizeTerm term ∈
                 filter (fun t => t <> "" /\
                                  (Contains (normalizeTerm (Host profile)) t
                                   || Contains (normalizeTerm (BrandToken profile)) t))
                   (filter (fun t => t <> "") (map normalizeTerm entries))).
  { apply list_elem_of_filter. split; [|exact Hfilter]. split; [exact Hne|].
    rewrite Hcontains. reflexivity. }
  rewrite Hnil in Hhit. inversion Hhit.
Qed.

Lemma configured_term_is_detected_witness :
  3 <= viceScore (ViceScore (Some (NewViceScorer viceFile)) (NormalizeDomain "Play-Casino.io")).
Proof.
  apply (configured_term_is_detected viceFile "3" ["Casino"; "Poker "] "Casino"
           (NormalizeDomain "Play-Casino.io")).
  - apply (bool_decide_unpack _). vm_compute. exact I.
  - vm_compute. right. left.
  - vm_compute. split; discriminate.
  - left.
  - vm_compute. discriminate.
  - vm_compute. reflexivity.
Defined.

(** ** The edit distance computed by [levenshtein] *)

Lemma editDistance_nil_r (x : list ascii) : editDistance x [] = Z.of_nat (length x).
Proof. destruct x; reflexivity. Qed.

Lemma editDistance_cons (a : ascii) (x : list ascii) (b : ascii) (y : list ascii) :
  editDistance (a :: x) (b :: y) =
  Z.min (Z.min (editDistance x (b :: y) + 1) (editDistance (a :: x) y + 1))
    (editDistance x y + (if decide (a = b) then 0 else 1)).
Proof. reflexivity. Qed.

(** The distance obeys the same recurrence on the last elements as on the
    first ones. *)
Lemma editDistance_nil_l (y : list ascii) : editDistance [] y = Z.of_nat (length y).
Proof. reflexivity. Qed.

(** [min_le] proves that a minimum is below one of its operands. *)
Ltac min_le :=
  match goal with
  | |- Z.min _ _ <= _ =>
      first [ eapply Z.le_trans; [apply Z.le_min_l|]; min_le
            | eapply Z.le_trans; [apply Z.le_min_r|]; min_le ]
  | |- _ => lia
  end.

(** [min_eq] proves the equality of two minima of the same operands. *)
Ltac min_eq :=
  rewrite <- ?Z.add_min_distr_r; apply Z.le_antisymm; repeat apply Z.min_glb; min_le.

Lemma editDistance_snoc (x : list ascii) (a : ascii) :
  forall (y : list ascii) (b : ascii),
    editDistance (x ++ [a]) (y ++ [b]) =
    Z.min (Z.min (editDistance x (y ++ [b]) + 1) (editDistance (x ++ [a]) y + 1))
      (editDistance x y + (if decide (a = b) then 0 else 1)).
Proof.
  induction x as [|x1 x' IHx]; intros y b.
  - induction y as [|y1 y' IHy]; [reflexivity|].
    cbn [app] in *. rewrite !editDistance_cons, IHy, !editDistance_nil_l.
    cbn [length]. rewrite !length_app. cbn [length].
    destruct (decide (a = b)); destruct (decide (a = y1)); lia.
  - induction y as [|y1 y' IHy].
    + pose proof (IHx [] b) as H0. cbn [app] in *. rewrite !editDistance_cons, H0.
      rewrite !editDistance_nil_r, ?editDistance_nil_l. cbn [length].
      rewrite ?length_app. cbn [length].
      destruct (decide (a = b)); destruct (decide (x1 = b)); lia.
    + pose proof (IHx (y1 :: y') b) as H0. pose proof (IHx y' b) as H1.
      cbn [app] in *. rewrite !editDistance_cons.
      rewrite H0, IHy, H1. rewrite ?editDistance_cons. min_eq.
Qed.

Lemma minInt_three (d i s : Z) : Commercial.minInt [d; i; s] = Z.min (Z.min d i) s.
Proof.
  unfold Commercial.minInt. cbn [fold_left].
  destruct (i <? d) eqn:E1.
  - destruct (s <? i) eqn:E2; lia.
  - destruct (s <? d) eqn:E2; lia.
Qed.

(** A fold over the values [start, start + 1, ...] of a loop counter
    establishes what each iteration carries one step further. *)
Lemma fold_seq_inv {A : Type} (P : nat -> A -> Prop) (f : A -> nat -> A) (len : nat) :
  forall (start : nat) (x : A),
    P start x ->
    (forall i y, (start <= i < start + len)%nat -> P i y -> P (S i) (f y i)) ->
    P (start + len)%nat (fold_left f (seq start len) x).
Proof.
  induction len as [|len IH]; intros start x Hx Hstep.
  - cbn [seq fold_left]. rewrite Nat.add_0_r. exact Hx.
  - cbn [seq fold_left]. replace (start + S len)%nat with (S start + len)%nat by lia.
    apply IH.
    + apply Hstep; [lia|exact Hx].
    + intros i y Hi Hy. apply Hstep; [lia|exact Hy].
Qed.

Lemma index_inj (cols r c r' c' : nat) :
  (c < cols)%nat -> (c' < cols)%nat ->
  Commercial.index cols r c = Commercial.index cols r' c' -> r = r' /\ c = c'.
Proof.
  unfold Commercial.index. intros Hc Hc' E.
  assert (Hr : r = r').
  { destruct (Nat.lt_trichotomy r r') as [H|[H|H]]; [|exact H|]; exfalso; nia. }
  subst r'. split; [reflexivity|lia].
Qed.

Lemma index_bound (cols rows r c : nat) :
  (r < rows)%nat -> (c < cols)%nat -> (Commercial.index cols r c < rows * cols)%nat.
Proof. unfold Commercial.index. intros Hr Hc. nia. Qed.

Section Table.

Variables a b : list ascii.

Lemma editDistance_row0 (c : nat) :
  (c <= length b)%nat -> editDistance (take 0 a) (take c b) = Z.of_nat c.
Proof. intros H. rewrite take_0, editDistance_nil_l, length_take. lia. Qed.

Lemma editDistance_col0 (r : nat) :
  (r <= length a)%nat -> editDistance (take r a) (take 0 b) = Z.of_nat r.
Proof. intros H. rewrite (take_0 b), editDistance_nil_r, length_take. lia. Qed.

(** The two loops that fill the first column and the first row. *)
Lemma table_borders :
  tableInv a b 1 1
    (fold_left (fun dp c => <[Commercial.index (length b + 1) 0 c := Z.of_nat c]> dp) (seq 0 (length b + 1))
       (fold_left (fun dp r => <[Commercial.index (length b + 1) r 0 := Z.of_nat r]> dp) (seq 0 (length a + 1))
          (replicate ((length a + 1) * (length b + 1)) 0))).
Proof.
  set (dp0 := replicate ((length a + 1) * (length b + 1)) 0).
  set (dp1 := fold_left (fun dp r => <[Commercial.index (length b + 1) r 0 := Z.of_nat r]> dp)
                (seq 0 (length a + 1)) dp0).
  assert (H1 : length dp1 = ((length a + 1) * (length b + 1))%nat /\
               forall r', (r' < 0 + (length a + 1))%nat ->
                          dp1 !! Commercial.index (length b + 1) r' 0 = Some (Z.of_nat r')).
  { apply (fold_seq_inv
             (fun k dp => length dp = ((length a + 1) * (length b + 1))%nat /\
                          forall r', (r' < k)%nat ->
                                     dp !! Commercial.index (length b + 1) r' 0 = Some (Z.of_nat r'))).
    - split; [apply length_replicate|]. intros r' Hr'. lia.
    - intros i y Hi [Hlen Hy]. split; [rewrite length_insert; exact Hlen|].
      intros r' Hr'. destruct (decide (r' = i)) as [->|Hne].
      + apply list_lookup_insert_eq. rewrite Hlen. apply index_bound; lia.
      + rewrite list_lookup_insert_ne; [apply Hy; lia|].
        intros E. apply index_inj in E; lia. }
  destruct H1 as [Hlen1 Hcol].
  set (dp2 := fold_left (fun dp c => <[Commercial.index (length b + 1) 0 c := Z.of_nat c]> dp)
                (seq 0 (length b + 1)) dp1).
  assert (H2 : length dp2 = ((length a + 1) * (length b + 1))%nat /\
               (forall r', (r' < length a + 1)%nat ->
                           dp2 !! Commercial.index (length b + 1) r' 0 = Some (Z.of_nat r')) /\
               forall c', (c' < 0 + (length b + 1))%nat ->
                          dp2 !! Commercial.index (length b + 1) 0 c' = Some (Z.of_nat c')).
  { apply (fold_seq_inv
             (fun k dp => length dp = ((length a + 1) * (length b + 1))%nat /\
                          (forall r', (r' < length a + 1)%nat ->
                                      dp !! Commercial.index (length b + 1) r' 0 = Some (Z.of_nat r')) /\
                          forall c', (c' < k)%nat ->
                                     dp !! Commercial.index (length b + 1) 0 c' = Some (Z.of_nat c'))).
    - split; [exact Hlen1|]. split; [intros r' Hr'; apply Hcol; lia|]. intros c' Hc'. lia.
    - intros i y Hi (Hlen & Hc0 & Hr0). split; [rewrite length_insert; exact Hlen|]. split.
      + intros r' Hr'.
        destruct (decide (Commercial.index (length b + 1) 0 i = Commercial.index (length b + 1) r' 0)) as [E|Hne].
        * rewrite E. apply index_inj in E; [|lia..]. destruct E as [<- ->].
          apply list_lookup_insert_eq. rewrite Hlen. apply index_bound; lia.
        * rewrite list_lookup_insert_ne by exact Hne. apply Hc0, Hr'.
      + intros c' Hc'. destruct (decide (c' = i)) as [->|Hne].
        * apply list_lookup_insert_eq. rewrite Hlen. apply index_bound; lia.
        * rewrite list_lookup_insert_ne; [apply Hr0; lia|].
          intros E. apply index_inj in E; lia. }
  destruct H2 as (Hlen2 & Hc0 & Hr0). split; [exact Hlen2|].
  intros r' c' Hr' Hc' Hregion.
  assert (Hcase : r' = 0%nat \/ c' = 0%nat) by lia. destruct Hcase as [->| ->].
  - rewrite editDistance_row0 by exact Hc'. apply Hr0. lia.
  - rewrite editDistance_col0 by exact Hr'. apply Hc0. lia.
Qed.

(** The body of the inner loop fills one cell. *)
Lemma table_cell (r c : nat) (dp : list Z) :
  (1 <= r <= length a)%nat -> (1 <= c <= length b)%nat ->
  tableInv a b r c dp ->
  tableInv a b r (S c)
    (<[Commercial.index (length b + 1) r c :=
         Commercial.minInt
           [dp !!! Commercial.index (length b + 1) (r - 1) c + 1;
            dp !!! Commercial.index (length b + 1) r (c - 1) + 1;
            dp !!! Commercial.index (length b + 1) (r - 1) (c - 1)
              + (if decide (a !! (r - 1)%nat <> b !! (c - 1)%nat) then 1 else 0)]]> dp).
Proof.
  intros Hr Hc [Hlen Hinv]. split; [rewrite length_insert; exact Hlen|].
  destruct (lookup_lt_is_Some_2 a (r - 1)) as [xa Ha]; [lia|].
  destruct (lookup_lt_is_Some_2 b (c - 1)) as [xb Hb]; [lia|].
  assert (Ta : take r a = take (r - 1) a ++ [xa]).
  { replace r with (S (r - 1)) at 1 by lia. apply take_S_r, Ha. }
  assert (Tb : take c b = take (c - 1) b ++ [xb]).
  { replace c with (S (c - 1)) at 1 by lia. apply take_S_r, Hb. }
  intros r' c' Hr' Hc' Hregion.
  destruct (decide (r' = r /\ c' = c)) as [[-> ->]|Hne].
  - rewrite list_lookup_insert_eq
      by (rewrite Hlen; apply index_bound; lia).
    f_equal. rewrite minInt_three.
    pose proof (Hinv (r - 1)%nat c ltac:(lia) ltac:(lia) ltac:(lia)) as R1.
    pose proof (Hinv r (c - 1)%nat ltac:(lia) ltac:(lia) ltac:(lia)) as R2.
    pose proof (Hinv (r - 1)%nat (c - 1)%nat ltac:(lia) ltac:(lia) ltac:(lia)) as R3.
    apply list_lookup_total_correct in R1, R2, R3. rewrite R1, R2, R3.
    rewrite Ha, Hb, Ta, Tb, editDistance_snoc.
    destruct (decide (Some xa <> Some xb)) as [E|E]; destruct (decide (xa = xb)) as [E'|E'];
      try reflexivity.
    + exfalso. apply E. rewrite E'. reflexivity.
    + exfalso. apply E'. destruct (decide (xa = xb)) as [?|N]; [assumption|].
      exfalso. apply E. intros [= ?]. contradiction.
  - rewrite list_lookup_insert_ne.
    + apply Hinv; [exact Hr'|exact Hc'|lia].
    + intros E. apply index_inj in E; lia.
Qed.

(** The nested loops fill the table row after row. *)
Lemma table_rows :
  forall dp, tableInv a b 1 1 dp ->
    tableInv a b (S (length a)) 1
      (fold_left
         (fun dp r =>
            fold_left
              (fun dp c =>
                 let cost := if decide (a !! (r - 1)%nat <> b !! (c - 1)%nat) then 1 else 0 in
                 let deletion := dp !!! Commercial.index (length b + 1) (r - 1) c + 1 in
                 let insertion := dp !!! Commercial.index (length b + 1) r (c - 1) + 1 in
                 let substitution := dp !!! Commercial.index (length b + 1) (r - 1) (c - 1) + cost in
                 <[Commercial.index (length b + 1) r c :=
                     Commercial.minInt [deletion; insertion; substitution]]> dp)
              (seq 1 (length b + 1 - 1)) dp)
         (seq 1 (length a + 1 - 1)) dp).
Proof.
  intros dp Hdp.
  replace (S (length a)) with (1 + (length a + 1 - 1))%nat by lia.
  apply (fold_seq_inv (fun r dp => tableInv a b r 1 dp)); [exact Hdp|].
  intros r y Hr Hy.
  assert (Hrow : tableInv a b r (1 + (length b + 1 - 1))
                   (fold_left
                      (fun dp c =>
                         let cost :=
                           if decide (a !! (r - 1)%nat <> b !! (c - 1)%nat) then 1 else 0 in
                         let deletion := dp !!! Commercial.index (length b + 1) (r - 1) c + 1 in
                         let insertion := dp !!! Commercial.index (length b + 1) r (c - 1) + 1 in
                         let substitution := dp !!! Commercial.index (length b + 1) (r - 1) (c - 1) + cost in
                         <[Commercial.index (length b + 1) r c :=
                             Commercial.minInt [deletion; insertion; substitution]]> dp)
                      (seq 1 (length b + 1 - 1)) y)).
  { apply (fold_seq_inv (fun c dp => tableInv a b r c dp)); [exact Hy|].
    intros c z Hc Hz. cbn zeta. apply table_cell; [lia|lia|exact Hz]. }
  destruct Hrow as [Hlen Hinv]. split; [exact Hlen|].
  intros r' c' Hr' Hc' Hregion. apply Hinv; [exact Hr'|exact Hc'|lia].
Qed.

End Table.

(** The cell of the last row and column of the filled table holds the
    distance of the whole arguments. *)
Lemma levenshtein_table_result (a b : list ascii) :
  Commercial.levenshtein a b = editDistance a b.
Proof.
  unfold Commercial.levenshtein. cbn zeta.
  pose proof (table_rows a b _ (table_borders a b)) as [_ Hinv].
  cbv zeta in Hinv.
  replace (length a + 1 - 1)%nat with (length a) by lia.
  replace (length b + 1 - 1)%nat with (length b) by lia.
  replace (length a + 1 - 1)%nat with (length a) in Hinv by lia.
  replace (length b + 1 - 1)%nat with (length b) in Hinv by lia.
  pose proof (Hinv (length a) (length b) ltac:(lia) ltac:(lia) ltac:(lia)) as R.
  apply list_lookup_total_correct in R. rewrite R.
  rewrite !take_ge by lia. reflexivity.
Qed.

(** X23. [levenshtein], which fills a table stored in one slice, computes
    the edit distance of its arguments. *)
Theorem levenshtein_editDistance (a b : list ascii) :
  Commercial.levenshtein a b = editDistance a b.
Proof. exact (levenshtein_table_result a b). Qed.

(** ** Properties of the edit distance and of the similarity *)

Lemma editDistance_bounds (x : list ascii) :
  forall y : list ascii,
    0 <= editDistance x y /\
    Z.of_nat (length x) - Z.of_nat (length y) <= editDistance x y /\
    Z.of_nat (length y) - Z.of_nat (length x) <= editDistance x y /\
    editDistance x y <= Z.max (Z.of_nat (length x)) (Z.of_nat (length y)).
Proof.
  induction x as [|a x IHx]; intros y.
  { rewrite editDistance_nil_l. cbn [length]. lia. }
  induction y as [|b y IHy].
  { rewrite editDistance_nil_r. cbn [length]. lia. }
  rewrite editDistance_cons.
  pose proof (IHx (b :: y)) as H1. pose proof (IHx y) as H2.
  cbn [length] in *. destruct (decide (a = b)); lia.
Qed.

Lemma editDistance_refl (x : list ascii) : editDistance x x = 0.
Proof.
  induction x as [|a x IH]; [reflexivity|].
  rewrite editDistance_cons, IH. rewrite decide_True by reflexivity.
  pose proof (editDistance_bounds x (a :: x)) as H1.
  pose proof (editDistance_bounds (a :: x) x) as H2. lia.
Qed.

Lemma editDistance_zero (x : list ascii) :
  forall y : list ascii, editDistance x y = 0 -> x = y.
Proof.
  induction x as [|a x IHx]; intros y H.
  { rewrite editDistance_nil_l in H. destruct y; [reflexivity|cbn [length] in H; lia]. }
  destruct y as [|b y].
  { rewrite editDistance_nil_r in H. cbn [length] in H. lia. }
  rewrite editDistance_cons in H.
  pose proof (editDistance_bounds x (b :: y)) as H1.
  pose proof (editDistance_bounds (a :: x) y) as H2.
  pose proof (editDistance_bounds x y) as H3.
  destruct (decide (a = b)) as [->|Hne]; [|lia].
  f_equal. apply IHx. lia.
Qed.

Lemma editDistance_sym (x : list ascii) :
  forall y : list ascii, editDistance x y = editDistance y x.
Proof.
  induction x as [|a x IHx]; intros y.
  { rewrite editDistance_nil_l, editDistance_nil_r. reflexivity. }
  induction y as [|b y IHy].
  { rewrite editDistance_nil_l, editDistance_nil_r. reflexivity. }
  rewrite !editDistance_cons, (IHx (b :: y)), IHy, (IHx y).
  destruct (decide (a = b)); destruct (decide (b = a)); congruence || lia.
Qed.

(** The edit distance that [levenshtein] computes is a distance within
    the expected bounds: it is symmetric, zero exactly on equal
    arguments, at least the difference of the lengths and at most the
    greater length. *)
Lemma levenshtein_metric (a b : list ascii) :
  Commercial.levenshtein a b = Commercial.levenshtein b a /\
  (Commercial.levenshtein a b = 0 <-> a = b) /\
  Z.abs (Z.of_nat (length a) - Z.of_nat (length b)) <= Commercial.levenshtein a b /\
  Commercial.levenshtein a b <= Z.max (Z.of_nat (length a)) (Z.of_nat (length b)).
Proof.
  rewrite !levenshtein_table_result.
  pose proof (editDistance_bounds a b) as H.
  split; [apply editDistance_sym|]. split; [|lia].
  split; [apply editDistance_zero|]. intros ->. apply editDistance_refl.
Qed.

Lemma list_ascii_of_string_inj (a b : string) :
  list_ascii_of_string a = list_ascii_of_string b -> a = b.
Proof.
  intros H. rewrite <- (string_of_list_ascii_of_string a), H.
  apply string_of_list_ascii_of_string.
Qed.

Lemma list_ascii_of_string_nil (a : string) :
  length (list_ascii_of_string a) = 0%nat <-> a = "".
Proof.
  destruct a; cbn; split; intros H; try reflexivity; discriminate H.
Qed.

Lemma Qmax_inject_Z (x y : Z) : (Qmax (inject_Z x) (inject_Z y) == inject_Z (Z.max x y))%Q.
Proof.
  destruct (Z.le_ge_cases x y) as [H|H].
  - rewrite Z.max_r by exact H. apply Q.max_r. rewrite <- Zle_Qle. exact H.
  - rewrite Z.max_l by lia. apply Q.max_l. rewrite <- Zle_Qle. lia.
Qed.

(** The similarity of two non-empty labels is one minus the edit distance
    taken relative to the greater length; the clamping is idle. *)
Lemma similarity_nonempty (a b : string) :
  a <> "" -> b <> "" ->
  let d := editDistance (list_ascii_of_string a) (list_ascii_of_string b) in
  let m := Z.max (Z.of_nat (String.length a)) (Z.of_nat (String.length b)) in
  0 < m /\ 0 <= d <= m /\
  (Commercial.similarity a b == 1 - inject_Z d / inject_Z m)%Q.
Proof.
  intros Ha Hb d m.
  assert (La : length (list_ascii_of_string a) = String.length a).
  { clear. induction a as [|c a IH]; [reflexivity|]. cbn. rewrite IH. reflexivity. }
  assert (Lb : length (list_ascii_of_string b) = String.length b).
  { clear. induction b as [|c b IH]; [reflexivity|]. cbn. rewrite IH. reflexivity. }
  assert (Pa : (0 < String.length a)%nat) by (destruct a; [contradiction|cbn; lia]).
  assert (Pb : (0 < String.length b)%nat) by (destruct b; [contradiction|cbn; lia]).
  pose proof (editDistance_bounds (list_ascii_of_string a) (list_ascii_of_string b)) as Hd.
  rewrite La, Lb in Hd. fold d in Hd. fold m in Hd.
  assert (Hm : 0 < m) by (subst m; lia).
  split; [exact Hm|]. split; [lia|].
  unfold Commercial.similarity. cbn zeta. rewrite levenshtein_table_result, La, Lb. fold d.
  destruct (String.length a =? 0)%nat eqn:Ea; [apply Nat.eqb_eq in Ea; lia|].
  destruct (String.length b =? 0)%nat eqn:Eb; [apply Nat.eqb_eq in Eb; lia|].
  cbn [andb orb].
  pose proof (Qmax_inject_Z (Z.of_nat (String.length a)) (Z.of_nat (String.length b))) as Hmax.
  fold m in Hmax.
  set (maxLen := Qmax (inject_Z (Z.of_nat (String.length a)))
                   (inject_Z (Z.of_nat (String.length b)))) in *.
  assert (Hpos : (0 < maxLen)%Q).
  { rewrite Hmax. change 0%Q with (inject_Z 0). rewrite <- Zlt_Qlt. exact Hm. }
  destruct (Qeq_bool maxLen 0) eqn:Ez.
  { apply Qeq_bool_iff in Ez. rewrite Ez in Hpos. exfalso. apply (Qlt_irrefl 0), Hpos. }
  assert (Hlo : (0 <= inject_Z d / maxLen)%Q).
  { apply Qle_shift_div_l; [exact Hpos|]. rewrite Qmult_0_l.
    change 0%Q with (inject_Z 0). rewrite <- Zle_Qle. lia. }
  assert (Hhi : (inject_Z d / maxLen <= 1)%Q).
  { apply Qle_shift_div_r; [exact Hpos|]. rewrite Qmult_1_l, Hmax, <- Zle_Qle. lia. }
  destruct (Qltb (1 - inject_Z d / maxLen) 0) eqn:E1.
  { apply Qltb_true in E1. exfalso. lra. }
  destruct (Qltb 1 (1 - inject_Z d / maxLen)) eqn:E2.
  { apply Qltb_true in E2. exfalso. lra. }
  rewrite Hmax. reflexivity.
Qed.

Lemma similarity_nonneg (a b : string) : (0 <= Commercial.similarity a b)%Q.
Proof.
  destruct (decide (a = "")) as [->|Ha]; [|destruct (decide (b = "")) as [->|Hb]].
  - destruct b as [|c b]; [discriminate|].
    assert (E1 : Commercial.similarity "" (String c b) = 0%Q) by reflexivity.
    rewrite E1. apply Qle_refl.
  - destruct a as [|c a]; [contradiction|].
    assert (E2 : Commercial.similarity (String c a) "" = 0%Q) by reflexivity.
    rewrite E2. apply Qle_refl.
  - destruct (similarity_nonempty a b Ha Hb) as (Hm & Hd & E).
    set (d := editDistance (list_ascii_of_string a) (list_ascii_of_string b)) in *.
    set (m := Z.max (Z.of_nat (String.length a)) (Z.of_nat (String.length b))) in *.
    assert (Hpos : (0 < inject_Z m)%Q).
    { change 0%Q with (inject_Z 0). rewrite <- Zlt_Qlt. exact Hm. }
    assert (Hhi : (inject_Z d / inject_Z m <= 1)%Q).
    { apply Qle_shift_div_r; [exact Hpos|]. rewrite Qmult_1_l, <- Zle_Qle. lia. }
    rewrite E. lra.
Qed.

(** X24. The similarity of two labels lies in [0, 1], is symmetric, and is 1
    exactly when the labels are equal; for non-empty labels it is one
    minus the edit distance divided by the greater length. *)
Theorem similarity_spec (a b : string) :
  (0 <= Commercial.similarity a b)%Q /\ (Commercial.similarity a b <= 1)%Q /\
  (Commercial.similarity a b == Commercial.similarity b a)%Q /\
  ((Commercial.similarity a b == 1)%Q <-> a = b) /\
  (a <> "" -> b <> "" ->
   (Commercial.similarity a b ==
    1 - inject_Z (editDistance (list_ascii_of_string a) (list_ascii_of_string b))
        / inject_Z (Z.max (Z.of_nat (String.length a)) (Z.of_nat (String.length b))))%Q).
Proof.
  destruct (decide (a = "")) as [->|Ha]; [|destruct (decide (b = "")) as [->|Hb]].
  - destruct b as [|c b].
    + cbn. repeat split; try discriminate; try reflexivity; try tauto.
    + assert (E1 : Commercial.similarity "" (String c b) = 0%Q) by reflexivity.
      assert (E2 : Commercial.similarity (String c b) "" = 0%Q) by reflexivity.
      rewrite E1, E2. split; [apply Qle_refl|]. split; [discriminate|].
      split; [reflexivity|]. split; [split; discriminate|]. intros H. contradiction.
  - destruct a as [|c a]; [contradiction|].
    assert (E1 : Commercial.similarity "" (String c a) = 0%Q) by reflexivity.
    assert (E2 : Commercial.similarity (String c a) "" = 0%Q) by reflexivity.
    rewrite E1, E2. split; [apply Qle_refl|]. split; [discriminate|].
    split; [reflexivity|]. split; [split; discriminate|]. intros _ H. contradiction.
  - destruct (similarity_nonempty a b Ha Hb) as (Hm & Hd & E).
    destruct (similarity_nonempty b a Hb Ha) as (_ & _ & E').
    rewrite editDistance_sym, Z.max_comm in E'.
    set (d := editDistance (list_ascii_of_string a) (list_ascii_of_string b)) in *.
    set (m := Z.max (Z.of_nat (String.length a)) (Z.of_nat (String.length b))) in *.
    assert (Hpos : (0 < inject_Z m)%Q).
    { change 0%Q with (inject_Z 0). rewrite <- Zlt_Qlt. exact Hm. }
    assert (Hlo : (0 <= inject_Z d / inject_Z m)%Q).
    { apply Qle_shift_div_l; [exact Hpos|]. rewrite Qmult_0_l.
      change 0%Q with (inject_Z 0). rewrite <- Zle_Qle. lia. }
    assert (Hhi : (inject_Z d / inject_Z m <= 1)%Q).
    { apply Qle_shift_div_r; [exact Hpos|]. rewrite Qmult_1_l, <- Zle_Qle. lia. }
    split; [rewrite E; lra|]. split; [rewrite E; lra|]. split; [rewrite E, E'; reflexivity|].
    split; [|intros _ _; exact E]. split.
    + intros H1. rewrite E in H1.
      assert (Hz : (inject_Z d / inject_Z m == 0)%Q) by lra.
      assert (Hd0 : (inject_Z d == 0)%Q).
      { rewrite <- (Qmult_div_r (inject_Z d) (inject_Z m)).
        - rewrite Hz. apply Qmult_0_r.
        - intros Hm0. rewrite Hm0 in Hpos. apply (Qlt_irrefl 0), Hpos. }
      assert (d = 0).
      { unfold Qeq in Hd0. cbn in Hd0. lia. }
      apply list_ascii_of_string_inj, editDistance_zero. exact H.
    + intros Hab. rewrite E. subst b d. rewrite editDistance_refl.
      unfold Qdiv. rewrite Qmult_0_l. reflexivity.
Qed.

(** ** The best matching sale *)

Section BestMatchSearch.

Variable find : list string -> Z -> Z -> Z -> Z -> option (list CommercialSale).
Variable normalized : string.

Lemma scan_cons (x : CommercialSale) (candidates : list CommercialSale)
    (acc : Commercial.Match * bool) :
  Commercial.scan normalized (x :: candidates) acc =
  Commercial.scan normalized candidates
    (if Qltb (Commercial.Similarity (fst acc))
          (Commercial.similarity normalized (saleNormalized x))
     then ({| Commercial.SLD := saleSLD x; Commercial.Price := salePrice x;
              Commercial.Similarity :=
                Commercial.similarity normalized (saleNormalized x) |}, true)
     else acc).
Proof. reflexivity. Qed.

Lemma scan_spec (candidates : list CommercialSale) :
  forall acc : Commercial.Match * bool,
    let r := Commercial.scan normalized candidates acc in
    (Commercial.Similarity (fst acc) <= Commercial.Similarity (fst r))%Q /\
    (forall candidate, candidate ∈ candidates ->
       (Commercial.similarity normalized (saleNormalized candidate)
        <= Commercial.Similarity (fst r))%Q) /\
    (r = acc \/
     snd r = true /\ exists candidate, candidate ∈ candidates /\ takenFrom normalized (fst r) candidate).
Proof.
  induction candidates as [|x candidates IH]; intros acc; cbn zeta.
  { cbn [Commercial.scan fold_left]. split; [apply Qle_refl|]. split; [|left; reflexivity].
    intros candidate H. inversion H. }
  rewrite scan_cons.
  destruct (Qltb (Commercial.Similarity (fst acc))
              (Commercial.similarity normalized (saleNormalized x))) eqn:E.
  - apply Qltb_true in E.
    match goal with
    | |- context [Commercial.scan normalized candidates ?acc'] =>
        destruct (IH acc') as (H1 & H2 & H3)
    end.
    cbn [fst Commercial.Similarity] in H1. split; [|split].
    + eapply Qle_trans; [apply Qlt_le_weak, E|exact H1].
    + intros candidate Hin. apply elem_of_cons in Hin as [->|Hin]; [exact H1|apply H2, Hin].
    + right. destruct H3 as [H3|(H3 & candidate & Hin & Ht)].
      * rewrite H3. cbn [fst snd]. split; [reflexivity|]. exists x. split; [left|reflexivity].
      * split; [exact H3|]. exists candidate. split; [right; exact Hin|exact Ht].
  - apply Qltb_false in E. destruct (IH acc) as (H1 & H2 & H3). split; [exact H1|]. split.
    + intros candidate Hin. apply elem_of_cons in Hin as [->|Hin]; [|apply H2, Hin].
      eapply Qle_trans; [exact E|exact H1].
    + destruct H3 as [H3|(H3 & candidate & Hin & Ht)]; [left; exact H3|].
      right. split; [exact H3|]. exists candidate. split; [right; exact Hin|exact Ht].
Qed.

Lemma search_spec (minLen maxLen targetLen : Z) (rounds : list (list string)) :
  forall acc : Commercial.Match * bool,
    let r := Commercial.search find normalized minLen maxLen targetLen rounds acc in
    (Commercial.Similarity (fst acc) <= Commercial.Similarity (fst r))%Q /\
    (r = acc \/
     snd r = true /\
     exists prefixes candidates candidate,
       prefixes ∈ rounds /\ find prefixes minLen maxLen targetLen 75 = Some candidates /\
       candidate ∈ candidates /\ takenFrom normalized (fst r) candidate) /\
    (forall prefixes candidates candidate,
       rounds !! 0%nat = Some prefixes \/ snd r = false -> prefixes ∈ rounds ->
       find prefixes minLen maxLen targetLen 75 = Some candidates ->
       candidate ∈ candidates ->
       (Commercial.similarity normalized (saleNormalized candidate)
        <= Commercial.Similarity (fst r))%Q) /\
    (snd acc = true -> snd r = true).
Proof.
  induction rounds as [|prefixes rounds IH]; intros acc; cbn zeta.
  { cbn [Commercial.search]. split; [apply Qle_refl|]. split; [left; reflexivity|].
    split; [|tauto]. intros prefixes candidates candidate _ H. inversion H. }
  cbn [Commercial.search].
  destruct (find prefixes minLen maxLen targetLen 75) as [candidates|] eqn:Ef.
  2:{ destruct (IH acc) as (H1 & H2 & H3 & H4). split; [exact H1|]. split; [|split; [|exact H4]].
      - destruct H2 as [H2|(H2 & p & cs & c & Hp & Hrest)]; [left; exact H2|].
        right. split; [exact H2|]. exists p, cs, c. split; [right; exact Hp|exact Hrest].
      - intros p cs c Hfirst Hp Hfind Hc.
        apply elem_of_cons in Hp as [->|Hp]; [congruence|].
        destruct Hfirst as [Hfirst|Hnot].
        + cbn in Hfirst. inversion Hfirst. subst p. congruence.
        + apply (H3 p cs c); [right; exact Hnot|exact Hp|exact Hfind|exact Hc]. }
  cbn zeta. destruct (scan_spec candidates acc) as (S1 & S2 & S3).
  set (acc' := Commercial.scan normalized candidates acc) in *.
  assert (Hacc' : acc' = acc \/
                  snd acc' = true /\
                  exists p cs c,
                    p ∈ prefixes :: rounds /\ find p minLen maxLen targetLen 75 = Some cs /\
                    c ∈ cs /\ takenFrom normalized (fst acc') c).
  { destruct S3 as [S3|(S3 & c & Hc & Ht)]; [left; exact S3|].
    right. split; [exact S3|]. exists prefixes, candidates, c.
    split; [left|]. split; [exact Ef|]. split; assumption. }
  assert (Hkeep : snd acc = true -> snd acc' = true).
  { intros Hacc. destruct S3 as [->|[S3 _]]; assumption. }
  destruct (snd acc' && Qle_bool 0.95 (Commercial.Similarity (fst acc'))) eqn:Ebreak.
  - split; [exact S1|]. split; [exact Hacc'|]. split; [|exact Hkeep].
    intros p cs c Hfirst Hp Hfind Hc. destruct Hfirst as [Hfirst|Hnot].
    + cbn in Hfirst. inversion Hfirst. subst p. rewrite Ef in Hfind. inversion Hfind. subst cs.
      apply S2, Hc.
    + apply andb_true_iff in Ebreak as [Hfound _]. congruence.
  - destruct (IH acc') as (H1 & H2 & H3 & H4). split; [eapply Qle_trans; eassumption|].
    split; [|split].
    + destruct H2 as [H2|(H2 & p & cs & c & Hp & Hrest)].
      * rewrite H2. exact Hacc'.
      * right. split; [exact H2|]. exists p, cs, c. split; [right; exact Hp|exact Hrest].
    + intros p cs c Hfirst Hp Hfind Hc.
      assert (Hhere : p = prefixes ->
                      (Commercial.similarity normalized (saleNormalized c)
                       <= Commercial.Similarity
                            (fst (Commercial.search find normalized minLen maxLen targetLen
                                    rounds acc')))%Q).
      { intros ->. rewrite Ef in Hfind. inversion Hfind. subst cs.
        eapply Qle_trans; [apply S2, Hc|exact H1]. }
      destruct Hfirst as [Hfirst|Hnot].
      * cbn in Hfirst. inversion Hfirst. subst p. apply Hhere. reflexivity.
      * apply elem_of_cons in Hp as [->|Hp]; [apply Hhere; reflexivity|].
        apply (H3 p cs c); [right; exact Hnot|exact Hp|exact Hfind|exact Hc].
    + intros Hacc. apply H4, Hkeep, Hacc.
Qed.

End BestMatchSearch.

Lemma search_not_found (find : list string -> Z -> Z -> Z -> Z -> option (list CommercialSale))
    (normalized : string) (minLen maxLen targetLen : Z) (rounds : list (list string))
    (acc : Commercial.Match * bool) :
  snd (Commercial.search find normalized minLen maxLen targetLen rounds acc) = false ->
  Commercial.search find normalized minLen maxLen targetLen rounds acc = acc.
Proof.
  intros H. destruct (search_spec find normalized minLen maxLen targetLen rounds acc)
    as (_ & [E|[E _]] & _); [exact E|congruence].
Qed.

(** The answer of [BestMatch] for a blank label and for a label that is not
    in the cache. *)
Lemma BestMatch_answer
    (find : list string -> Z -> Z -> Z -> Z -> option (list CommercialSale))
    (cache : gmap string Commercial.cacheEntry) (sld : string) :
  let normalized := Commercial.normalize sld in
  let targetLen := Commercial.runeLen normalized in
  let minLen := if targetLen - 2 <? 1 then 1 else targetLen - 2 in
  let rounds :=
    [Commercial.uniqueNonEmpty [Commercial.prefix normalized 3];
     Commercial.uniqueNonEmpty [Commercial.prefix normalized 2];
     Commercial.uniqueNonEmpty [Commercial.prefix normalized 1]; []] in
  let r := Commercial.BestMatch find cache sld in
  (normalized = "" -> r = ((Commercial.emptyMatch, false), cache)) /\
  (normalized <> "" -> cache !! normalized = None ->
   snd r !! normalized
     = Some {| Commercial.entryMatch := fst (fst r); Commercial.entryFound := snd (fst r) |} /\
   (snd (fst r) = true ->
    (0 < Commercial.Similarity (fst (fst r)))%Q /\
    (exists prefixes candidates candidate,
       prefixes ∈ rounds /\
       find prefixes minLen (targetLen + 2) targetLen 75 = Some candidates /\
       candidate ∈ candidates /\
       fst (fst r) =
         {| Commercial.SLD := saleSLD candidate; Commercial.Price := salePrice candidate;
            Commercial.Similarity :=
              Commercial.similarity normalized (saleNormalized candidate) |}) /\
    (forall candidates candidate,
       find (Commercial.uniqueNonEmpty [Commercial.prefix normalized 3])
         minLen (targetLen + 2) targetLen 75 = Some candidates ->
       candidate ∈ candidates ->
       (Commercial.similarity normalized (saleNormalized candidate)
        <= Commercial.Similarity (fst (fst r)))%Q)) /\
   (snd (fst r) = false ->
    fst (fst r) = Commercial.emptyMatch /\
    forall prefixes candidates candidate,
      prefixes ∈ rounds ->
      find prefixes minLen (targetLen + 2) targetLen 75 = Some candidates ->
      candidate ∈ candidates ->
      (Commercial.similarity normalized (saleNormalized candidate) == 0)%Q)).
Proof.
  intros normalized targetLen minLen rounds r. subst r. unfold Commercial.BestMatch.
  fold normalized. cbn zeta. fold targetLen. fold minLen. fold rounds.
  split.
  { intros ->. reflexivity. }
  intros Hne Hmiss. destruct (decide (normalized = "")) as [E|_]; [contradiction|].
  rewrite Hmiss.
  destruct (search_spec find normalized minLen (targetLen + 2) targetLen rounds
              (Commercial.emptyMatch, false)) as (S1 & S2 & S3 & _).
  set (acc := Commercial.search find normalized minLen (targetLen + 2) targetLen rounds
                (Commercial.emptyMatch, false)) in *.
  destruct (snd acc) eqn:Hfound; cbn [negb fst snd].
  - split; [rewrite lookup_insert_eq; reflexivity|]. split; [|discriminate].
    intros _. destruct S2 as [S2|(_ & p & cs & c & Hp & Hfind & Hc & Ht)].
    { rewrite S2 in Hfound. discriminate Hfound. }
    split; [|split].
    + rewrite Ht. cbn [Commercial.Similarity].
      destruct (Qlt_le_dec 0 (Commercial.similarity normalized (saleNormalized c)))
        as [Hpos|Hle]; [exact Hpos|].
      exfalso.
      assert (Hstay : forall (cands : list CommercialSale) (a0 : Commercial.Match * bool),
                (0 <= Commercial.Similarity (fst a0))%Q ->
                snd (Commercial.scan normalized cands a0) = true ->
                snd a0 = true \/ (0 < Commercial.Similarity
                                        (fst (Commercial.scan normalized cands a0)))%Q).
      { induction cands as [|x cands IHc]; intros a0 Ha0 Hs; [left; exact Hs|].
        rewrite scan_cons in *.
        destruct (Qltb (Commercial.Similarity (fst a0))
                    (Commercial.similarity normalized (saleNormalized x))) eqn:Eq.
        - apply Qltb_true in Eq. right.
          destruct (scan_spec normalized cands
                      ({| Commercial.SLD := saleSLD x; Commercial.Price := salePrice x;
                          Commercial.Similarity :=
                            Commercial.similarity normalized (saleNormalized x) |}, true))
            as (T1 & _).
          cbn [fst Commercial.Similarity] in T1.
          eapply Qlt_le_trans; [|exact T1]. eapply Qle_lt_trans; [exact Ha0|exact Eq].
        - apply IHc; assumption. }
      assert (Hall : forall (rs : list (list string)) (a0 : Commercial.Match * bool),
                (0 <= Commercial.Similarity (fst a0))%Q ->
                snd (Commercial.search find normalized minLen (targetLen + 2) targetLen rs a0)
                  = true ->
                snd a0 = true \/
                (0 < Commercial.Similarity
                       (fst (Commercial.search find normalized minLen (targetLen + 2)
                               targetLen rs a0)))%Q).
      { induction rs as [|p0 rs IHr]; intros a0 Ha0 Hs; [left; exact Hs|].
        cbn [Commercial.search] in *.
        destruct (find p0 minLen (targetLen + 2) targetLen 75) as [cs0|]; [|apply IHr; assumption].
        cbn zeta in *.
        destruct (scan_spec normalized cs0 a0) as (T1 & _).
        destruct (snd (Commercial.scan normalized cs0 a0)
                  && Qle_bool 0.95 (Commercial.Similarity (fst (Commercial.scan normalized cs0 a0))))
          eqn:Eb.
        - apply Hstay; assumption.
        - destruct (IHr (Commercial.scan normalized cs0 a0)) as [Hs'|Hpos].
          + eapply Qle_trans; [exact Ha0|exact T1].
          + exact Hs.
          + destruct (Hstay cs0 a0 Ha0 Hs') as [H0|Hpos]; [left; exact H0|].
            right. eapply Qlt_le_trans; [exact Hpos|].
            destruct (search_spec find normalized minLen (targetLen + 2) targetLen rs
                        (Commercial.scan normalized cs0 a0)) as (U1 & _).
            exact U1.
          + right. exact Hpos. }
      destruct (Hall rounds (Commercial.emptyMatch, false)) as [H0|Hpos].
      * apply Qle_refl.
      * exact Hfound.
      * discriminate H0.
      * fold acc in Hpos. rewrite Ht in Hpos. cbn [Commercial.Similarity] in Hpos.
        apply (Qlt_irrefl 0). eapply Qlt_le_trans; [exact Hpos|exact Hle].
    + exists p, cs, c. split; [exact Hp|]. split; [exact Hfind|]. split; [exact Hc|exact Ht].
    + intros cs0 c0 Hfind0 Hc0.
      apply (S3 (Commercial.uniqueNonEmpty [Commercial.prefix normalized 3]) cs0 c0);
        [left; reflexivity|left|exact Hfind0|exact Hc0].
  - assert (Hacc : acc = (Commercial.emptyMatch, false)).
    { apply search_not_found. exact Hfound. }
    split; [rewrite lookup_insert_eq, Hacc; reflexivity|]. split; [discriminate|].
    intros _. split; [reflexivity|]. intros p cs c Hp Hfind Hc.
    pose proof (S3 p cs c (or_intror eq_refl) Hp Hfind Hc) as Hle.
    rewrite Hacc in Hle. cbn [fst Commercial.emptyMatch Commercial.Similarity] in Hle.
    pose proof (similarity_nonneg normalized (saleNormalized c)) as Hlo.
    apply Qle_antisym; assumption.
Qed.

(** X25. [BestMatch] answers a blank label with no match.  Otherwise, for a
    label that is not in the cache, a match that is found was taken from a
    sale that one of the four queries returned, its similarity is positive
    and at least the similarity of every sale that the first query (on
    the three-letter prefix) returned; when no match is found, every sale
    returned by any query has similarity 0.  The answer is stored in the
    cache. *)
Theorem BestMatch_spec
    (find : list string -> Z -> Z -> Z -> Z -> option (list CommercialSale))
    (cache : gmap string Commercial.cacheEntry) (sld : string) :
  let normalized := Commercial.normalize sld in
  let targetLen := Commercial.runeLen normalized in
  let minLen := if targetLen - 2 <? 1 then 1 else targetLen - 2 in
  let rounds :=
    [Commercial.uniqueNonEmpty [Commercial.prefix normalized 3];
     Commercial.uniqueNonEmpty [Commercial.prefix normalized 2];
     Commercial.uniqueNonEmpty [Commercial.prefix normalized 1]; []] in
  let r := Commercial.BestMatch find cache sld in
  (normalized = "" -> r = ((Commercial.emptyMatch, false), cache)) /\
  (normalized <> "" -> cache !! normalized = None ->
   snd r !! normalized
     = Some {| Commercial.entryMatch := fst (fst r); Commercial.entryFound := snd (fst r) |} /\
   (snd (fst r) = true ->
    (0 < Commercial.Similarity (fst (fst r)))%Q /\
    (exists prefixes candidates candidate,
       prefixes ∈ rounds /\
       find prefixes minLen (targetLen + 2) targetLen 75 = Some candidates /\
       candidate ∈ candidates /\
       fst (fst r) =
         {| Commercial.SLD := saleSLD candidate; Commercial.Price := salePrice candidate;
            Commercial.Similarity :=
              Commercial.similarity normalized (saleNormalized candidate) |}) /\
    (forall candidates candidate,
       find (Commercial.uniqueNonEmpty [Commercial.prefix normalized 3])
         minLen (targetLen + 2) targetLen 75 = Some candidates ->
       candidate ∈ candidates ->
       (Commercial.similarity normalized (saleNormalized candidate)
        <= Commercial.Similarity (fst (fst r)))%Q)) /\
   (snd (fst r) = false ->
    fst (fst r) = Commercial.emptyMatch /\
    forall prefixes candidates candidate,
      prefixes ∈ rounds ->
      find prefixes minLen (targetLen + 2) targetLen 75 = Some candidates ->
      candidate ∈ candidates ->
      (Commercial.similarity normalized (saleNormalized candidate) == 0)%Q)).
Proof. exact (BestMatch_answer find cache sld). Qed.

(** X26. [BestMatch] consults the inventory once per label: asked again for
    the same label with the cache it has left, it gives the same answer
    and the same cache whatever the inventory then holds. *)
Theorem BestMatch_cached
    (find find' : list string -> Z -> Z -> Z -> Z -> option (list CommercialSale))
    (cache : gmap string Commercial.cacheEntry) (sld : string) :
  Commercial.BestMatch find' (snd (Commercial.BestMatch find cache sld)) sld
  = Commercial.BestMatch find cache sld.
Proof.
  unfold Commercial.BestMatch. cbn zeta.
  destruct (decide (Commercial.normalize sld = "")) as [E|E].
  { reflexivity. }
  destruct (cache !! Commercial.normalize sld) as [cached|] eqn:Hc.
  { cbn [snd]. rewrite Hc. reflexivity. }
  match goal with
  | |- context [Commercial.search find ?n ?lo ?hi ?t ?rs ?a0] =>
      pose proof (search_not_found find n lo hi t rs a0) as Hnf;
      set (acc := Commercial.search find n lo hi t rs a0) in *
  end.
  destruct (snd acc) eqn:Hfound; cbn [negb snd].
  - rewrite lookup_insert_eq.
    cbn [Commercial.entryMatch Commercial.entryFound]. reflexivity.
  - rewrite lookup_insert_eq.
    cbn [Commercial.entryMatch Commercial.entryFound]. rewrite (Hnf eq_refl). reflexivity.
Qed.

(** ** The commercial override needs a close sale *)

Lemma String_length_list_ascii (a : string) :
  length (list_ascii_of_string a) = String.length a.
Proof. induction a as [|c a IH]; [reflexivity|]. cbn. rewrite IH. reflexivity. Qed.

(** A similarity of at least 0.8 bounds the edit distance by a fifth of
    the greater length. *)
Lemma similarity_threshold (a b : string) :
  a <> "" ->
  (0.8 <= Commercial.similarity a b)%Q ->
  5 * Commercial.levenshtein (list_ascii_of_string a) (list_ascii_of_string b)
  <= Z.max (Z.of_nat (String.length a)) (Z.of_nat (String.length b)).
Proof.
  intros Ha Hsim. destruct (decide (b = "")) as [->|Hb].
  { exfalso. destruct a as [|c a]; [contradiction|].
    assert (E : Commercial.similarity (String c a) "" = 0%Q) by reflexivity.
    rewrite E in Hsim. unfold Qle in Hsim. cbn in Hsim. lia. }
  destruct (similarity_nonempty a b Ha Hb) as (Hm & Hd & E).
  rewrite levenshtein_table_result.
  set (d := editDistance (list_ascii_of_string a) (list_ascii_of_string b)) in *.
  set (m := Z.max (Z.of_nat (String.length a)) (Z.of_nat (String.length b))) in *.
  rewrite E in Hsim.
  assert (Hpos : (0 < inject_Z m)%Q).
  { change 0%Q with (inject_Z 0). rewrite <- Zlt_Qlt. exact Hm. }
  assert (Hdiv : (inject_Z d / inject_Z m <= 1 # 5)%Q) by lra.
  assert (Hmul : (inject_Z d <= (1 # 5) * inject_Z m)%Q).
  { rewrite <- (Qmult_div_r (inject_Z d) (inject_Z m)) at 1.
    - rewrite (Qmult_comm (inject_Z m)). apply Qmult_le_compat_r; [exact Hdiv|].
      apply Qlt_le_weak, Hpos.
    - intros Hm0. rewrite Hm0 in Hpos. apply (Qlt_irrefl 0), Hpos. }
  unfold Qle in Hmul. cbn in Hmul. lia.
Qed.

(** X27. With the commercial service as matcher, an override is granted
    only when one of the queries on the inventory returned a sale whose
    normalised label is within an edit distance of one fifth of the
    greater length from the normalised second-level label of the domain;
    the source that is reported is the price of that sale. *)
Theorem override_needs_a_close_sale (isCommonWord : string -> bool) (s : Server)
    (find : list string -> Z -> Z -> Z -> Z -> option (list CommercialSale))
    (profile : DomainProfile) (domainValue : string) (scorer : option trademarkIndex)
    (lookupResult : Usp.LookupResult) (lookupValid : bool) :
  let s' := withCommercial s (Some (inventoryMatcher find ∅)) in
  let h := heuristics isCommonWord s' profile domainValue scorer lookupResult lookupValid in
  let label := Commercial.normalize (fst (splitDomainParts domainValue)) in
  hCommercialOverride h = true ->
  exists prefixes minLen maxLen targetLen candidates sale,
    find prefixes minLen maxLen targetLen 75 = Some candidates /\
    sale ∈ candidates /\
    5 * Commercial.levenshtein (list_ascii_of_string label)
          (list_ascii_of_string (saleNormalized sale))
    <= Z.max (Z.of_nat (String.length label)) (Z.of_nat (String.length (saleNormalized sale))) /\
    hCommercialSimilarity h = Commercial.similarity label (saleNormalized sale) /\
    hCommercialSource h = ("sale $" ++ formatFloat0 (salePrice sale))%string.
Proof.
  intros s' h label Hgranted.
  assert (Hh : exists m,
             inventoryMatcher find ∅ (fst (splitDomainParts domainValue)) = Some m /\
             (0.8 <= Commercial.Similarity m)%Q /\
             hCommercialSimilarity h = Commercial.Similarity m /\
             hCommercialSource h = ("sale $" ++ formatFloat0 (Commercial.Price m))%string).
  { subst h. unfold heuristics in *.
    destruct (resolveTrademark _ _ _ _ _ _) as [tr cm].
    destruct (splitDomainParts domainValue) as [sl tl]. cbn [fst].
    change (commercial s') with (Some (inventoryMatcher find ∅)) in *. cbn match in *.
    destruct (inventoryMatcher find ∅ sl) as [m|]; [|discriminate Hgranted].
    destruct (Qle_bool commercialSimilarityThreshold (Commercial.Similarity m)) eqn:Es;
      [|discriminate Hgranted].
    exists m. split; [reflexivity|]. split; [apply Qle_bool_iff, Es|]. split; reflexivity. }
  destruct Hh as (m & Hm & Hsim & Hs1 & Hs2).
  unfold inventoryMatcher in Hm. cbn zeta in Hm.
  destruct (snd (fst (Commercial.BestMatch find ∅ (fst (splitDomainParts domainValue)))))
    eqn:Hfound; [|discriminate Hm].
  inversion Hm as [Hm']. clear Hm.
  pose proof (BestMatch_answer find ∅ (fst (splitDomainParts domainValue))) as Hspec.
  cbn zeta in Hspec. fold label in Hspec. destruct Hspec as [Hblank Hrest].
  destruct (decide (label = "")) as [E|Hne].
  { rewrite (Hblank E) in Hfound. discriminate Hfound. }
  destruct (Hrest Hne (lookup_empty _)) as (_ & Hyes & _).
  destruct (Hyes Hfound) as (_ & (prefixes & candidates & sale & _ & Hfind & Hin & Htaken) & _).
  rewrite Hm' in Htaken.
  exists prefixes, (if Commercial.runeLen label - 2 <? 1 then 1 else Commercial.runeLen label - 2),
    (Commercial.runeLen label + 2), (Commercial.runeLen label), candidates, sale.
  split; [exact Hfind|]. split; [exact Hin|].
  rewrite Htaken in Hsim, Hs1, Hs2. cbn [Commercial.Similarity Commercial.Price] in Hsim, Hs1, Hs2.
  split; [apply similarity_threshold; assumption|]. split; assumption.
Qed.

Lemma override_needs_a_close_sale_witness :
  exists prefixes minLen maxLen targetLen candidates sale,
    carsInventory prefixes minLen maxLen targetLen 75 = Some candidates /\
    sale ∈ candidates /\
    5 * Commercial.levenshtein (list_ascii_of_string (Commercial.normalize "cars"))
          (list_ascii_of_string (saleNormalized sale))
    <= Z.max (Z.of_nat (String.length (Commercial.normalize "cars")))
         (Z.of_nat (String.length (saleNormalized sale))).
Proof.
  destruct (override_needs_a_close_sale noDictionary carsServer carsInventory
              (NormalizeDomain "cars.ai") "cars.ai" (Some carsIndex) Usp.emptyLookup false)
    as (prefixes & minLen & maxLen & targetLen & candidates & sale & H1 & H2 & H3 & _).
  - vm_compute. reflexivity.
  - exists prefixes, minLen, maxLen, targetLen, candidates, sale.
    split; [exact H1|]. split; [exact H2|exact H3].
Defined.

(** ** Workers, status and the end of a request *)

(** The number of workers of a run lies between 2 and 12, and it is the
    number of processors when that one does. *)
Lemma determineWorkerCount_range (numCPU : Z) :
  2 <= determineWorkerCount numCPU <= 12 /\
  (2 <= numCPU <= 12 -> determineWorkerCount numCPU = numCPU).
Proof.
  unfold determineWorkerCount. cbn zeta.
  destruct (numCPU <? 2) eqn:E1.
  - cbn. split; lia.
  - destruct (12 <? numCPU) eqn:E2; split; lia.
Qed.

(** X28. The status answer tells that a job is running exactly when the job
    slot is taken; its state is the type of the retained status, which for
    a notifier reached from the empty one is started, progress or
    evaluation (or empty when nothing has been retained), never the type
    of a terminal event; and it never carries a last evaluation, the
    retained status being stored without its payload. *)
Theorem handleEvaluateStatus_spec (ops : list notifierOp) (d : Database)
    (job : option evaluationJob) (next : nat) (cancelledSet : gset nat)
    (runs : list spawnedRun) :
  let st := {| db := d; activeJob := job; evalNotifier := runOps ops NewEvaluationNotifier;
               nextContext := next; cancelled := cancelledSet; spawned := runs |} in
  let resp := handleEvaluateStatus st in
  (statusRunning resp = true <-> is_Some job) /\
  statusState resp ∈ [""; "started"; "progress"; "evaluation"] /\
  isTerminalType (statusState resp) = false /\
  statusLastEvaluation resp = None /\
  (forall j, job = Some j -> statusJobID resp = jobID j /\ statusRequestID resp = jobRequestID j).
Proof.
  cbn zeta. unfold handleEvaluateStatus. cbn [activeJob evalNotifier]. cbn zeta.
  unfold LastStatus.
  pose proof (lastStatus_retained ops NewEvaluationNotifier) as Hret.
  destruct (lastStatus (runOps ops NewEvaluationNotifier)) as [status|] eqn:Hs.
  - destruct (Hret ltac:(intros st0 H; discriminate H) status eq_refl) as [Htype Hpayload].
    cbn [statusRunning statusState statusLastEvaluation statusJobID statusRequestID].
    assert (Hstate : evType status ∈ ["started"; "progress"; "evaluation"]).
    { unfold isStatusType in Htype. rewrite !orb_true_iff, !String.eqb_eq in Htype.
      rewrite !elem_of_cons. tauto. }
    split; [|split; [|split; [|split]]].
    + destruct job; cbn; split; intros H; try reflexivity; try discriminate H.
      * eexists; reflexivity.
      * destruct H as [x H]. discriminate H.
    + right. exact Hstate.
    + rewrite !elem_of_cons, elem_of_nil in Hstate.
      destruct Hstate as [->|[->|[->|[]]]]; reflexivity.
    + exact Hpayload.
    + intros j ->. split; reflexivity.
  - split; [|split; [|split; [|split]]].
    + destruct job; cbn; split; intros H; try reflexivity; try discriminate H.
      * eexists; reflexivity.
      * destruct H as [x H]. discriminate H.
    + destruct job; cbn; left.
    + destruct job; reflexivity.
    + destruct job; reflexivity.
    + intros j ->. split; reflexivity.
Qed.

Lemma UpdateBatchRequest_last (d : Database) (request : BatchRequest) (status : string)
    (now : Z) (rest : list BatchRequest) :
  batch_requests d = rest ++ [request] ->
  last (batch_requests (UpdateBatchRequest d (requestID request) status now)) =
  Some {| requestID := requestID request; requestBatchID := requestBatchID request;
          requestType := requestType request; Status := status; JobID := JobID request;
          StartedAt := StartedAt request;
          FinishedAt :=
            if String.eqb status "completed" || String.eqb status "failed"
            then Some now else FinishedAt request |}.
Proof.
  intros E. unfold UpdateBatchRequest. cbn [batch_requests]. rewrite E, map_app. cbn [map].
  rewrite Z.eqb_refl. apply last_snoc.
Qed.

(** X29. The request of a job that has been started is given, at the end of
    the run, the status the run leaves with, and its end time only for the
    statuses completed and failed: a cancelled request keeps none.  The job
    slot is released, so that a new evaluation can be started. *)
Theorem finishRequest_spec (st : State) (env env' : Env) (req req' : EvaluateRequest)
    (batch batch' : CSVBatch) (totalDomains totalDomains' : Z) (job : evaluationJob)
    (st1 : State) (finishStatus : string) (processed : option Z) (finishedAt : Z) :
  startEvaluation st env req batch totalDomains = (inl job, st1) ->
  createFails (faults env') = false ->
  let st2 := finishRequest st1 job finishStatus false true processed finishedAt in
  activeJob st2 = None /\
  last (batch_requests (db st2)) =
    Some {| requestID := jobRequestID job; requestBatchID := batchID batch;
            requestType := "evaluate"; Status := finishStatus; JobID := jobID job;
            StartedAt := now env;
            FinishedAt :=
              if String.eqb finishStatus "completed" || String.eqb finishStatus "failed"
              then Some finishedAt else None |} /\
  exists job' st3, startEvaluation st2 env' req' batch' totalDomains' = (inl job', st3).
Proof.
  intros Hstart Hcreate st2. unfold startEvaluation in Hstart.
  destruct (activeJob st) eqn:Hactive; [discriminate Hstart|].
  destruct (createFails (faults env)); [discriminate Hstart|].
  cbn in Hstart. inversion Hstart. subst job st1. clear Hstart.
  subst st2. unfold finishRequest. cbn [jobRequestID negb andb orb activeJob db].
  assert (Hid : (Z.of_nat (length (batch_requests (db st))) + 1 =? 0) = false)
    by (apply Z.eqb_neq; lia).
  rewrite Hid. cbn [negb andb]. split; [reflexivity|]. split.
  - match goal with
    | |- context [UpdateBatchRequest ?d0 ?id ?s ?n] =>
        assert (Hlast : last (batch_requests (UpdateBatchRequest d0 id s n)) =
                        Some {| requestID := Z.of_nat (length (batch_requests (db st))) + 1;
                                requestBatchID := batchID batch; requestType := "evaluate";
                                Status := finishStatus; JobID := newUUID env;
                                StartedAt := now env;
                                FinishedAt :=
                                  if String.eqb finishStatus "completed"
                                     || String.eqb finishStatus "failed"
                                  then Some finishedAt else None |})
    end.
    { apply (UpdateBatchRequest_last _
               {| requestID := Z.of_nat (length (batch_requests (db st))) + 1;
                  requestBatchID := batchID batch; requestType := "evaluate";
                  Status := "running"; JobID := newUUID env; StartedAt := now env;
                  FinishedAt := None |} finishStatus finishedAt (batch_requests (db st))).
      reflexivity. }
    destruct processed; exact Hlast.
  - unfold startEvaluation. cbn [activeJob]. rewrite Hcreate. cbn.
    eexists. eexists. reflexivity.
Qed.

Lemma finishRequest_spec_witness :
  activeJob
    (finishRequest (snd (startEvaluation idleState testEnv testRequest
                           {| batchID := 7; Name := "batch"; UniqueDomains := 2;
                              ProcessedDomains := 0 |} 2))
       {| jobID := "job-1"; jobCtx := 0; startedAt := 100; total := 2; jobBatchID := 7;
          batchName := "batch"; jobRequestID := 1 |}
       "cancelled" false true (Some 1) 160) = None.
Proof.
  destruct (finishRequest_spec idleState testEnv testEnv testRequest testRequest
              {| batchID := 7; Name := "batch"; UniqueDomains := 2; ProcessedDomains := 0 |}
              {| batchID := 7; Name := "batch"; UniqueDomains := 2; ProcessedDomains := 0 |}
              2 2
              {| jobID := "job-1"; jobCtx := 0; startedAt := 100; total := 2; jobBatchID := 7;
                 batchName := "batch"; jobRequestID := 1 |}
              (snd (startEvaluation idleState testEnv testRequest
                      {| batchID := 7; Name := "batch"; UniqueDomains := 2;
                         ProcessedDomains := 0 |} 2))
              "cancelled" (Some 1) 160) as [H _].
  - vm_compute. reflexivity.
  - reflexivity.
  - exact H.
Defined.

(** ** Rounding of the wire form *)




